(** * kana-dojo: theme system and streak calendar

    A shallow embedding of the theme engine (theme building, lookup,
    cache handling and application to the document) and of the streak
    calendar grid, with the properties the specification states about
    them.

    JavaScript strings are [string]; a JS [Map] keyed by theme id is a
    [gmap string _]; [Map] objects live in an explicit heap because the
    store listener keeps a reference to the map object it was created
    with while the module-level variable is reassigned. *)

From Stdlib Require Import String Ascii ZArith List Bool Lia Sorted.
From Stdlib Require Import DecimalString.
From stdpp Require Import base option gmap strings list.

(** ** JavaScript helpers *)

(** The double quote character, for template literals that contain it. *)
Definition dquote : string := String (ascii_of_nat 34) EmptyString.

(** Truthiness of a JS string: every string but the empty one. *)
Definition truthy (s : string) : bool := negb (String.eqb s EmptyString).

(** Truthiness of [string | undefined]. *)
Definition truthyOpt (o : option string) : bool :=
  match o with
  | Some s => truthy s
  | None => false
  end.

(** [a || b] on strings where [a] may be undefined. *)
Definition orElse (a : option string) (b : string) : string :=
  match a with
  | Some s => if truthy s then s else b
  | None => b
  end.

(** [Array.prototype.includes] / [Set.prototype.has] on strings. *)
Definition includes (l : list string) (s : string) : bool :=
  existsb (String.eqb s) l.

(** ** Data model *)

Module BaseTheme.
Record t := mk {
  id : string;
  backgroundColor : string;
  mainColor : string;
  secondaryColor : string;
  wallpaperId : option string
}.
End BaseTheme.

Module BaseThemeGroup.
Record t := mk {
  name : string;
  isLight : bool;
  themes : list BaseTheme.t
}.
End BaseThemeGroup.

Module Theme.
Record t := mk {
  id : string;
  backgroundColor : string;
  cardColor : string;
  borderColor : string;
  mainColor : string;
  mainColorAccent : string;
  secondaryColor : string;
  secondaryColorAccent : string
}.
End Theme.

Module ThemeGroup.
Record t := mk {
  name : string;
  themes : list Theme.t
}.
End ThemeGroup.

(** A custom colour theme as the custom theme store holds it. *)
Module ThemeTemplate.
Record t := mk {
  id : string;
  backgroundColor : string;
  cardColor : string;
  borderColor : string;
  mainColor : string;
  secondaryColor : string
}.
End ThemeTemplate.

(** An entry of the wallpaper registry. *)
Module Wallpaper.
Record t := mk {
  id : string;
  name : string;
  url : string;
  urlWebp : string
}.
End Wallpaper.

(** A custom wallpaper as the custom wallpaper store holds it. *)
Module CustomWallpaper.
Record t := mk {
  id : string;
  name : string;
  thumbnailDataUrl : string
}.
End CustomWallpaper.

(** The seven colours written to the document root. *)
Module EffectiveTheme.
Record t := mk {
  backgroundColor : string;
  cardColor : string;
  borderColor : string;
  mainColor : string;
  mainColorAccent : string;
  secondaryColor : string;
  secondaryColorAccent : string
}.
End EffectiveTheme.

(** The wallpaper properties of [document.body.style]; a property that
    is not set reads as the empty string. *)
Module BodyStyle.
Record t := mk {
  backgroundImage : string;
  backgroundSize : string;
  backgroundPosition : string;
  backgroundRepeat : string;
  backgroundAttachment : string
}.
Definition cleared : t :=
  mk EmptyString EmptyString EmptyString EmptyString EmptyString.
End BodyStyle.

(** The colour math of [./themeColors], which the theme module imports. *)
Class ThemeColors := {
  generateCardColor : string → bool → string;
  generateBorderColor : string → bool → string;
  generateAccentColor : string → string
}.

(** The base palettes of [./themeDefinitions], which the theme module
    imports as [baseThemeSets]. *)
Class ThemeDefinitions := {
  baseThemeSets : list BaseThemeGroup.t
}.

(** The wallpaper registry of [./wallpapers], which the theme module
    imports, over a registry state [R]. *)
Class WallpaperRegistry (R : Type) := {
  getWallpaperById : R → string → option Wallpaper.t;
  registerCustomWallpaper : Wallpaper.t → R → R;
  unregisterCustomWallpaper : string → R → R
}.

(** What the theme module does to the console, the preference store and
    the document, in program order. *)
Inductive Effect :=
| ConsoleError (msg : string)
| SetGlassMode (b : bool)
| SetProperty (name value : string)
| SetAttribute (name value : string)
| SetBodyStyle (style : BodyStyle.t).

Definition isSetProperty (e : Effect) : bool :=
  match e with
  | SetProperty _ _ => true
  | _ => false
  end.

Definition isSetGlassMode (e : Effect) : bool :=
  match e with
  | SetGlassMode _ => true
  | _ => false
  end.

(** ** Legacy aliases and premium constants *)

Definition legacyThemeAliases : list (string * string) :=
  [("neon-city-glass", "neon-city")].

Fixpoint assocGet (l : list (string * string)) (k : string) : option string :=
  match l with
  | [] => None
  | (k', v) :: r => if String.eqb k' k then Some v else assocGet r k
  end.

Definition resolveThemeId (themeId : string) : string :=
  default themeId (assocGet legacyThemeAliases themeId).

Module PREMIUM_THEME_VARIABLES.
Definition backgroundColor : string := "oklch(0% 0 0 / 0.95)".
Definition cardColor : string := "oklch(20% 0.01 255 / 0.85)".
Definition borderColor : string := "oklch(30% 0.01 255 / 0.85)".
Definition mainColor : string := "oklch(100% 0 0)".
Definition secondaryColor : string := "oklch(85% 0 0)".
End PREMIUM_THEME_VARIABLES.

(** ** The world the theme module runs in *)

Section World.
Context {R : Type}.

Record World := mkWorld {
  (** heap of [Map<string, Theme>] objects, addressed by position *)
  maps : list (gmap string Theme.t);
  (** [let _themeMap: Map<string, Theme> | null] *)
  _themeMap : option nat;
  (** [let _customThemesLoaded] *)
  _customThemesLoaded : bool;
  (** the [themeMap] constant of [ensureCustomThemesLoaded], which the
      custom theme listener closes over; [None] until it subscribes *)
  listenerThemeMap : option nat;
  (** [useCustomThemeStore.getState().themes] *)
  customThemes : list ThemeTemplate.t;
  (** [useCustomWallpaperStore.getState()] *)
  wallpapers : list CustomWallpaper.t;
  objectUrls : gmap string string;
  (** state of the wallpaper registry *)
  registry : R;
  (** [usePreferencesStore]: the glass mode preference *)
  glassMode : bool;
  (** custom properties of [document.documentElement.style] *)
  rootStyle : gmap string string;
  (** attributes of [document.documentElement] *)
  rootAttrs : gmap string string;
  (** wallpaper properties of [document.body.style] *)
  bodyStyle : BodyStyle.t;
  (** effects so far, oldest first *)
  effects : list Effect
}.

Definition withMaps (f : list (gmap string Theme.t) → list (gmap string Theme.t))
    (w : World) : World :=
  mkWorld (f (maps w)) (_themeMap w) (_customThemesLoaded w)
    (listenerThemeMap w) (customThemes w) (wallpapers w) (objectUrls w)
    (registry w) (glassMode w) (rootStyle w) (rootAttrs w) (bodyStyle w)
    (effects w).

Definition withThemeMap (r : option nat) (w : World) : World :=
  mkWorld (maps w) r (_customThemesLoaded w)
    (listenerThemeMap w) (customThemes w) (wallpapers w) (objectUrls w)
    (registry w) (glassMode w) (rootStyle w) (rootAttrs w) (bodyStyle w)
    (effects w).

Definition withLoaded (b : bool) (w : World) : World :=
  mkWorld (maps w) (_themeMap w) b
    (listenerThemeMap w) (customThemes w) (wallpapers w) (objectUrls w)
    (registry w) (glassMode w) (rootStyle w) (rootAttrs w) (bodyStyle w)
    (effects w).

Definition withListener (r : option nat) (w : World) : World :=
  mkWorld (maps w) (_themeMap w) (_customThemesLoaded w)
    r (customThemes w) (wallpapers w) (objectUrls w)
    (registry w) (glassMode w) (rootStyle w) (rootAttrs w) (bodyStyle w)
    (effects w).

Definition withCustomThemes (ts : list ThemeTemplate.t) (w : World) : World :=
  mkWorld (maps w) (_themeMap w) (_customThemesLoaded w)
    (listenerThemeMap w) ts (wallpapers w) (objectUrls w)
    (registry w) (glassMode w) (rootStyle w) (rootAttrs w) (bodyStyle w)
    (effects w).

Definition withWallpapers (ws : list CustomWallpaper.t)
    (urls : gmap string string) (w : World) : World :=
  mkWorld (maps w) (_themeMap w) (_customThemesLoaded w)
    (listenerThemeMap w) (customThemes w) ws urls
    (registry w) (glassMode w) (rootStyle w) (rootAttrs w) (bodyStyle w)
    (effects w).

Definition withRegistry (f : R → R) (w : World) : World :=
  mkWorld (maps w) (_themeMap w) (_customThemesLoaded w)
    (listenerThemeMap w) (customThemes w) (wallpapers w) (objectUrls w)
    (f (registry w)) (glassMode w) (rootStyle w) (rootAttrs w) (bodyStyle w)
    (effects w).

(** [console.error(msg)] *)
Definition consoleError (msg : string) (w : World) : World :=
  mkWorld (maps w) (_themeMap w) (_customThemesLoaded w)
    (listenerThemeMap w) (customThemes w) (wallpapers w) (objectUrls w)
    (registry w) (glassMode w) (rootStyle w) (rootAttrs w) (bodyStyle w)
    (effects w ++ [ConsoleError msg]).

(** [usePreferencesStore.getState().setGlassMode(b)] *)
Definition setGlassMode (b : bool) (w : World) : World :=
  mkWorld (maps w) (_themeMap w) (_customThemesLoaded w)
    (listenerThemeMap w) (customThemes w) (wallpapers w) (objectUrls w)
    (registry w) b (rootStyle w) (rootAttrs w) (bodyStyle w)
    (effects w ++ [SetGlassMode b]).

(** [root.style.setProperty(name, value)]: an empty value removes the
    property. *)
Definition setProperty (name value : string) (w : World) : World :=
  mkWorld (maps w) (_themeMap w) (_customThemesLoaded w)
    (listenerThemeMap w) (customThemes w) (wallpapers w) (objectUrls w)
    (registry w) (glassMode w)
    (if truthy value then <[name:=value]> (rootStyle w)
     else delete name (rootStyle w))
    (rootAttrs w) (bodyStyle w)
    (effects w ++ [SetProperty name value]).

(** [root.style.getPropertyValue(name)]: empty when not set. *)
Definition getPropertyValue (name : string) (w : World) : string :=
  default EmptyString (rootStyle w !! name).

(** [root.setAttribute(name, value)] *)
Definition setAttribute (name value : string) (w : World) : World :=
  mkWorld (maps w) (_themeMap w) (_customThemesLoaded w)
    (listenerThemeMap w) (customThemes w) (wallpapers w) (objectUrls w)
    (registry w) (glassMode w) (rootStyle w)
    (<[name:=value]> (rootAttrs w)) (bodyStyle w)
    (effects w ++ [SetAttribute name value]).

(** the five assignments to [document.body.style] *)
Definition setBodyStyle (b : BodyStyle.t) (w : World) : World :=
  mkWorld (maps w) (_themeMap w) (_customThemesLoaded w)
    (listenerThemeMap w) (customThemes w) (wallpapers w) (objectUrls w)
    (registry w) (glassMode w) (rootStyle w) (rootAttrs w) b
    (effects w ++ [SetBodyStyle b]).

(** The map object at address [loc]. *)
Definition mapAt (loc : nat) (w : World) : gmap string Theme.t :=
  default ∅ (maps w !! loc).

(** [map.set(k, v)] on the object at [loc]. *)
Definition mapSet (loc : nat) (k : string) (v : Theme.t) (w : World) : World :=
  withMaps (λ h, <[loc := <[k:=v]> (mapAt loc w)]> h) w.

(** [map.delete(k)] on the object at [loc]. *)
Definition mapDelete (loc : nat) (k : string) (w : World) : World :=
  withMaps (λ h, <[loc := delete k (mapAt loc w)]> h) w.

(** [new Map()] holding [m]: the new object is placed at the end. *)
Definition mapAlloc (m : gmap string Theme.t) (w : World) : nat * World :=
  (length (maps w), withMaps (λ h, h ++ [m]) w).
End World.

Arguments World R : clear implicits.

(** ** The theme engine *)

Section ThemeEngine.
Context `{ThemeColors} `{ThemeDefinitions} {R : Type} `{WallpaperRegistry R}.

Definition PREMIUM_mainColorAccent : string :=
  generateAccentColor PREMIUM_THEME_VARIABLES.mainColor.
Definition PREMIUM_secondaryColorAccent : string :=
  generateAccentColor PREMIUM_THEME_VARIABLES.secondaryColor.

Definition getPremiumThemeVariables : EffectiveTheme.t :=
  EffectiveTheme.mk
    PREMIUM_THEME_VARIABLES.backgroundColor
    PREMIUM_THEME_VARIABLES.cardColor
    PREMIUM_THEME_VARIABLES.borderColor
    PREMIUM_THEME_VARIABLES.mainColor
    PREMIUM_mainColorAccent
    PREMIUM_THEME_VARIABLES.secondaryColor
    PREMIUM_secondaryColorAccent.

(** [premiumThemeIds]: the ids of the first group whose name starts
    with "Premium", or nothing when there is no such group. *)
Definition premiumThemeIds : list string :=
  match List.find (λ group, String.prefix "Premium" (BaseThemeGroup.name group))
          baseThemeSets with
  | Some group => map BaseTheme.id (BaseThemeGroup.themes group)
  | None => []
  end.

Definition isPremiumThemeId (themeId : string) : bool :=
  let resolved := resolveThemeId themeId in
  includes premiumThemeIds resolved || String.prefix "custom-" resolved.

Definition getModifiedCardColor (themeId cardColor : string) : string :=
  if isPremiumThemeId themeId then PREMIUM_THEME_VARIABLES.cardColor
  else cardColor.

Definition getModifiedBorderColor (themeId borderColor : string) : string :=
  if isPremiumThemeId themeId then PREMIUM_THEME_VARIABLES.borderColor
  else borderColor.

(** The loop over the groups in [getThemeDefaultWallpaperId]: in each
    group the first theme with the id is looked at, and its wallpaper
    id is returned when it is truthy. *)
Fixpoint groupWallpaperId (groups : list BaseThemeGroup.t) (resolvedId : string)
    : option string :=
  match groups with
  | [] => None
  | group :: rest =>
      match List.find (λ t, String.eqb (BaseTheme.id t) resolvedId)
              (BaseThemeGroup.themes group) with
      | Some theme =>
          if truthyOpt (BaseTheme.wallpaperId theme)
          then BaseTheme.wallpaperId theme
          else groupWallpaperId rest resolvedId
      | None => groupWallpaperId rest resolvedId
      end
  end.

Definition getThemeDefaultWallpaperId (themeId : string) : option string :=
  let resolvedId := resolveThemeId themeId in
  if String.prefix "custom-" resolvedId then Some resolvedId
  else groupWallpaperId baseThemeSets resolvedId.

Definition buildTheme (base : BaseTheme.t) (isLight : bool) : Theme.t :=
  Theme.mk
    (BaseTheme.id base)
    (BaseTheme.backgroundColor base)
    (generateCardColor (BaseTheme.backgroundColor base) isLight)
    (generateBorderColor (BaseTheme.backgroundColor base) isLight)
    (BaseTheme.mainColor base)
    (generateAccentColor (BaseTheme.mainColor base))
    (BaseTheme.secondaryColor base)
    (generateAccentColor (BaseTheme.secondaryColor base)).

Definition buildThemeGroup (baseGroup : BaseThemeGroup.t) : ThemeGroup.t :=
  ThemeGroup.mk
    (BaseThemeGroup.name baseGroup)
    (map (λ theme, buildTheme theme (BaseThemeGroup.isLight baseGroup))
       (BaseThemeGroup.themes baseGroup)).

Definition themeSets : list ThemeGroup.t := map buildThemeGroup baseThemeSets.

(** The content of a freshly built theme map: every theme of every
    group is set under its id, a later one replacing an earlier one. *)
Definition builtinThemeMap : gmap string Theme.t :=
  foldl (λ m group,
           foldl (λ m theme, <[Theme.id theme := theme]> m) m
             (ThemeGroup.themes group))
    ∅ themeSets.

Definition getThemeMap (w : World R) : nat * World R :=
  match _themeMap w with
  | Some loc => (loc, w)
  | None =>
      let '(loc, w) := mapAlloc builtinThemeMap w in
      (loc, withThemeMap (Some loc) w)
  end.

Definition buildThemeFromTemplate (template : ThemeTemplate.t) : Theme.t :=
  Theme.mk
    (ThemeTemplate.id template)
    (ThemeTemplate.backgroundColor template)
    (ThemeTemplate.cardColor template)
    (ThemeTemplate.borderColor template)
    (ThemeTemplate.mainColor template)
    (generateAccentColor (ThemeTemplate.mainColor template))
    (ThemeTemplate.secondaryColor template)
    (generateAccentColor (ThemeTemplate.secondaryColor template)).

Definition buildCustomWallpaperTheme (id : string) : Theme.t :=
  buildThemeFromTemplate
    (ThemeTemplate.mk id
       "oklch(0% 0 0 / 0.95)" "oklch(0% 0 0 / 0.95)" "oklch(0% 0 0 / 0.95)"
       "oklch(100% 0 0)" "oklch(85% 0 0)").

(** A key of the theme map that [syncCustomWallpapers] drops. *)
Definition isStale (currentCustomIds : list string) (key : string) : bool :=
  String.prefix "custom-" key && negb (includes currentCustomIds key).

(** One round of the registration loop of [syncCustomWallpapers]. *)
Definition registerOne (loc : nat) (urls : gmap string string)
    (w : World R) (wp : CustomWallpaper.t) : World R :=
  let url := orElse (urls !! CustomWallpaper.id wp)
               (CustomWallpaper.thumbnailDataUrl wp) in
  let w := withRegistry
             (registerCustomWallpaper
                (Wallpaper.mk (CustomWallpaper.id wp) (CustomWallpaper.name wp)
                   url EmptyString)) w in
  mapSet loc (CustomWallpaper.id wp)
    (buildCustomWallpaperTheme (CustomWallpaper.id wp)) w.

(** One round of the removal loop of [syncCustomWallpapers]. *)
Definition removeOne (loc : nat) (currentCustomIds : list string)
    (w : World R) (key : string) : World R :=
  if isStale currentCustomIds key
  then withRegistry (unregisterCustomWallpaper key) (mapDelete loc key w)
  else w.

(** The removal loop visits the keys of the map as the map enumerates
    them; the order makes no difference to the map, and to the registry
    only through the order of the [unregisterCustomWallpaper] calls. *)
Definition syncCustomWallpapers (w : World R) : World R :=
  let '(themeMap, w) := getThemeMap w in
  let wps := wallpapers w in
  let urls := objectUrls w in
  let currentCustomIds := map CustomWallpaper.id wps in
  let keys := (map_to_list (mapAt themeMap w)).*1 in
  let w := foldl (removeOne themeMap currentCustomIds) w keys in
  foldl (registerOne themeMap urls) w wps.

(** The body of both listener callbacks of the custom theme store:
    [themes.forEach(theme => themeMap.set(theme.id, ...))] on the map
    object at [loc]. *)
Definition setAllTemplates (loc : nat) (ts : list ThemeTemplate.t)
    (w : World R) : World R :=
  foldl (λ w theme,
           mapSet loc (ThemeTemplate.id theme) (buildThemeFromTemplate theme) w)
    w ts.

Definition ensureCustomThemesLoaded (w : World R) : World R :=
  if _customThemesLoaded w then w
  else
    let w := withLoaded true w in
    let '(themeMap, w) := getThemeMap w in
    let w := setAllTemplates themeMap (customThemes w) w in
    (* useCustomThemeStore.subscribe: the listener keeps [themeMap] *)
    let w := withListener (Some themeMap) w in
    (* useCustomWallpaperStore.subscribe happens with it *)
    syncCustomWallpapers w.

(** The listener of the custom theme store, called with the new state. *)
Definition onCustomThemesChange (themeMap : nat) (w : World R) : World R :=
  let w := setAllTemplates themeMap (customThemes w) w in
  withThemeMap None w.

(** The listener of the custom wallpaper store. *)
Definition onCustomWallpapersChange (w : World R) : World R :=
  let w := syncCustomWallpapers w in
  withThemeMap None w.

(** Modelled from the spec: the custom theme store
    ([../store/useCustomThemeStore]) is not part of the sources at hand.
    Custom themes are created and removed by the user through it; every
    such mutation replaces the collection and then calls the listeners
    that subscribed, in the same turn. *)
Definition setCustomThemes (ts : list ThemeTemplate.t) (w : World R) : World R :=
  let w := withCustomThemes ts w in
  match listenerThemeMap w with
  | Some themeMap => onCustomThemesChange themeMap w
  | None => w
  end.

(** Modelled from the spec: the custom wallpaper store
    ([../store/useCustomWallpaperStore]) is not part of the sources at
    hand. A mutation replaces the wallpapers and their object URLs and
    then calls the listeners that subscribed, in the same turn. *)
Definition setCustomWallpapers (ws : list CustomWallpaper.t)
    (urls : gmap string string) (w : World R) : World R :=
  let w := withWallpapers ws urls w in
  match listenerThemeMap w with
  | Some _ => onCustomWallpapersChange w
  | None => w
  end.

(** The colours [applyTheme] and [applyThemeObject] write for [theme]. *)
Definition effectiveThemeOf (isPremium : bool) (theme : Theme.t) : EffectiveTheme.t :=
  if isPremium then getPremiumThemeVariables
  else
    EffectiveTheme.mk
      (Theme.backgroundColor theme)
      (getModifiedCardColor (Theme.id theme) (Theme.cardColor theme))
      (getModifiedBorderColor (Theme.id theme) (Theme.borderColor theme))
      (Theme.mainColor theme)
      (Theme.mainColorAccent theme)
      (Theme.secondaryColor theme)
      (Theme.secondaryColorAccent theme).

(** The [setProperty] calls on the document root. *)
Definition writeVariables (effectiveTheme : EffectiveTheme.t) (w : World R) : World R :=
  let w := setProperty "--background-color"
             (EffectiveTheme.backgroundColor effectiveTheme) w in
  let w := setProperty "--card-color" (EffectiveTheme.cardColor effectiveTheme) w in
  let w := setProperty "--border-color" (EffectiveTheme.borderColor effectiveTheme) w in
  let w := setProperty "--main-color" (EffectiveTheme.mainColor effectiveTheme) w in
  let w := setProperty "--main-color-accent"
             (EffectiveTheme.mainColorAccent effectiveTheme) w in
  if truthy (EffectiveTheme.secondaryColor effectiveTheme) then
    let w := setProperty "--secondary-color"
               (EffectiveTheme.secondaryColor effectiveTheme) w in
    setProperty "--secondary-color-accent"
      (EffectiveTheme.secondaryColorAccent effectiveTheme) w
  else w.

(** The value given to [document.body.style.backgroundImage]. *)
Definition wallpaperBackgroundImage (wallpaper : Wallpaper.t) : string :=
  if truthy (Wallpaper.urlWebp wallpaper)
  then "image-set(url('" +:+ Wallpaper.url wallpaper
       +:+ "') type('image/avif'), url('" +:+ Wallpaper.urlWebp wallpaper
       +:+ "') type('image/webp'))"
  else "url('" +:+ Wallpaper.url wallpaper +:+ "')".

Definition wallpaperBodyStyle (wallpaper : Wallpaper.t) : BodyStyle.t :=
  BodyStyle.mk (wallpaperBackgroundImage wallpaper)
    "cover" "center" "no-repeat" "fixed".

(** The wallpaper part of [applyTheme]. *)
Definition applyWallpaper (resolvedThemeId : string) (w : World R) : World R :=
  let wallpaperId := getThemeDefaultWallpaperId resolvedThemeId in
  if truthyOpt wallpaperId then
    match getWallpaperById (registry w) (default EmptyString wallpaperId) with
    | Some wallpaper => setBodyStyle (wallpaperBodyStyle wallpaper) w
    | None => w
    end
  else setBodyStyle BodyStyle.cleared w.

Definition applyTheme (themeId : string) (w : World R) : World R :=
  let w := ensureCustomThemesLoaded w in
  let resolvedThemeId := resolveThemeId themeId in
  let '(themeMap, w) := getThemeMap w in
  match mapAt themeMap w !! resolvedThemeId with
  | None =>
      consoleError ("Theme " +:+ dquote +:+ themeId +:+ dquote +:+ " not found") w
  | Some theme =>
      let w := setGlassMode (isPremiumThemeId resolvedThemeId) w in
      let isPremium := isPremiumThemeId resolvedThemeId in
      let effectiveTheme := effectiveThemeOf isPremium theme in
      let w := writeVariables effectiveTheme w in
      let w := setAttribute "data-theme" resolvedThemeId w in
      applyWallpaper resolvedThemeId w
  end.

Definition applyThemeObject (theme : Theme.t) (w : World R) : World R :=
  let isPremium := isPremiumThemeId (Theme.id theme) in
  writeVariables (effectiveThemeOf isPremium theme) w.

Definition getTheme (themeId : string) (w : World R) : option Theme.t * World R :=
  let w := ensureCustomThemesLoaded w in
  let '(themeMap, w) := getThemeMap w in
  (mapAt themeMap w !! resolveThemeId themeId, w).

(** The theme map as the next lookup sees it: what [getTheme] and
    [applyTheme] read after [ensureCustomThemesLoaded] and
    [getThemeMap]. *)
Definition lookupMap (w : World R) : gmap string Theme.t :=
  let '(themeMap, w) := getThemeMap (ensureCustomThemesLoaded w) in
  mapAt themeMap w.

(** *** Runs of the module *)

(** What the application does with the module and its stores. *)
Inductive Action :=
| DoApplyTheme (themeId : string)
| DoApplyThemeObject (theme : Theme.t)
| DoGetTheme (themeId : string)
| DoSetCustomThemes (ts : list ThemeTemplate.t)
| DoSetCustomWallpapers (ws : list CustomWallpaper.t) (urls : gmap string string).

Definition perform (a : Action) (w : World R) : World R :=
  match a with
  | DoApplyTheme themeId => applyTheme themeId w
  | DoApplyThemeObject theme => applyThemeObject theme w
  | DoGetTheme themeId => (getTheme themeId w).2
  | DoSetCustomThemes ts => setCustomThemes ts w
  | DoSetCustomWallpapers ws urls => setCustomWallpapers ws urls w
  end.

(** The module right after it was loaded: no map built, nothing
    subscribed; the stores and the document hold anything. *)
Definition justLoaded (w : World R) : Prop :=
  maps w = [] ∧ _themeMap w = None ∧ _customThemesLoaded w = false
  ∧ listenerThemeMap w = None.

Inductive reachable : World R → Prop :=
| reachable_start w : justLoaded w → reachable w
| reachable_step a w : reachable w → reachable (perform a w).
(** *** Vocabulary of the properties *)

(** The part of the world the user sees: the glass preference, the
    document, and the effects on them. *)
Definition visible (w : World R) :=
  (glassMode w, rootStyle w, rootAttrs w, bodyStyle w, effects w).

(** The world in which [applyTheme] and [getTheme] do their lookup. *)
Definition lookupWorld (w : World R) : World R :=
  (getThemeMap (ensureCustomThemesLoaded w)).2.

(** What [applyTheme] does once the theme is found. *)
Definition applyFound (resolvedThemeId : string) (theme : Theme.t) (w : World R)
    : World R :=
  applyWallpaper resolvedThemeId
    (setAttribute "data-theme" resolvedThemeId
       (writeVariables
          (effectiveThemeOf (isPremiumThemeId resolvedThemeId) theme)
          (setGlassMode (isPremiumThemeId resolvedThemeId) w))).
(** The effects of [writeVariables], in order. *)
Definition variableWrites (e : EffectiveTheme.t) : list Effect :=
  [ SetProperty "--background-color" (EffectiveTheme.backgroundColor e);
    SetProperty "--card-color" (EffectiveTheme.cardColor e);
    SetProperty "--border-color" (EffectiveTheme.borderColor e);
    SetProperty "--main-color" (EffectiveTheme.mainColor e);
    SetProperty "--main-color-accent" (EffectiveTheme.mainColorAccent e) ]
  ++ (if truthy (EffectiveTheme.secondaryColor e)
      then [ SetProperty "--secondary-color" (EffectiveTheme.secondaryColor e);
             SetProperty "--secondary-color-accent"
               (EffectiveTheme.secondaryColorAccent e) ]
      else []).

(** The effects of [applyWallpaper], given the registry it reads. *)
Definition wallpaperWrites (resolvedThemeId : string) (reg : R) : list Effect :=
  let wallpaperId := getThemeDefaultWallpaperId resolvedThemeId in
  if truthyOpt wallpaperId then
    match getWallpaperById reg (default EmptyString wallpaperId) with
    | Some wallpaper => [SetBodyStyle (wallpaperBodyStyle wallpaper)]
    | None => []
    end
  else [SetBodyStyle BodyStyle.cleared].

(** The part of the world the user does not see: the map objects, the
    module variables, the stores and the registry. *)
Definition internals (w : World R) :=
  (maps w, _themeMap w, _customThemesLoaded w, listenerThemeMap w,
   customThemes w, wallpapers w, objectUrls w, registry w).

(** Every theme of the map sits under its own id. *)
Definition wellKeyedMap (m : gmap string Theme.t) : Prop :=
  ∀ k t, m !! k = Some t → Theme.id t = k.

Definition wellKeyed (w : World R) : Prop := Forall wellKeyedMap (maps w).
(** The module variables and the stores. *)
Definition control (w : World R) :=
  (_themeMap w, _customThemesLoaded w, listenerThemeMap w,
   customThemes w, wallpapers w, objectUrls w).

(** From [w] to [w'] only the map object at [loc] and the registry
    changed, the map kept its themes under their ids, and every key it
    gained satisfies [S]. *)
Definition evolves (S : string → Prop) (loc : nat) (w w' : World R) : Prop :=
  control w' = control w
  ∧ (wellKeyed w → wellKeyed w')
  ∧ (∀ k, is_Some (mapAt loc w' !! k) → is_Some (mapAt loc w !! k) ∨ S k).

(** What holds of the module variables in every run: before the first
    lookup there is no map and no listener, after it the listeners are
    there. *)
Definition consistent (w : World R) : Prop :=
  wellKeyed w
  ∧ (_customThemesLoaded w = false → _themeMap w = None ∧ listenerThemeMap w = None)
  ∧ (_customThemesLoaded w = true → is_Some (listenerThemeMap w)).

(** The ids of the built-in themes. *)
Definition builtinIds : list string :=
  flat_map (λ group, map BaseTheme.id (BaseThemeGroup.themes group)) baseThemeSets.

(** A store mutation, as opposed to a lookup. *)
Definition isMutation (a : Action) : bool :=
  match a with
  | DoSetCustomThemes _ | DoSetCustomWallpapers _ _ => true
  | _ => false
  end.
(** The seven presentation variables as they read on the document. *)
Definition variablesRead (w : World R) : EffectiveTheme.t :=
  EffectiveTheme.mk
    (getPropertyValue "--background-color" w)
    (getPropertyValue "--card-color" w)
    (getPropertyValue "--border-color" w)
    (getPropertyValue "--main-color" w)
    (getPropertyValue "--main-color-accent" w)
    (getPropertyValue "--secondary-color" w)
    (getPropertyValue "--secondary-color-accent" w).

(** The colours a theme carries itself. *)
Definition ownColors (theme : Theme.t) : EffectiveTheme.t :=
  EffectiveTheme.mk
    (Theme.backgroundColor theme)
    (Theme.cardColor theme)
    (Theme.borderColor theme)
    (Theme.mainColor theme)
    (Theme.mainColorAccent theme)
    (Theme.secondaryColor theme)
    (Theme.secondaryColorAccent theme).

(** [e] with the secondary colour and its accent taken from [old]. *)
Definition keepSecondary (old e : EffectiveTheme.t) : EffectiveTheme.t :=
  EffectiveTheme.mk
    (EffectiveTheme.backgroundColor e)
    (EffectiveTheme.cardColor e)
    (EffectiveTheme.borderColor e)
    (EffectiveTheme.mainColor e)
    (EffectiveTheme.mainColorAccent e)
    (EffectiveTheme.secondaryColor old)
    (EffectiveTheme.secondaryColorAccent old).
End ThemeEngine.

(** ** The streak calendar grid *)

(** An element of a week array: [null], a day, or the hole ([undefined])
    that an assignment past the end of an array leaves behind. *)
Inductive Slot :=
| SNull
| SHole
| SDay (day : string).

(** The test [d => d !== null] as [Array.prototype.some] applies it:
    holes are passed over, every day is not [null]. *)
Definition notNull (s : Slot) : bool :=
  match s with
  | SDay _ => true
  | SNull | SHole => false
  end.

(** Truthiness of a slot, as in [day ? ... : ...]. *)
Definition slotDay (s : Slot) : option string :=
  match s with
  | SDay day => if truthy day then Some day else None
  | _ => None
  end.

(** [Array(7).fill(null)] *)
Definition EMPTY_WEEK : list Slot := repeat SNull 7.

(** [a[i] = v] on a JS array: in range the element is replaced, past
    the end the array grows and the elements in between are holes. *)
Definition arraySet (a : list Slot) (i : nat) (v : Slot) : list Slot :=
  if i <? length a then <[i:=v]> a
  else a ++ repeat SHole (i - length a) ++ [v].

(** [dateStr > today], with [today = formatDate(new Date())]: strings
    are compared by code units. *)
Definition isFutureDate (today dateStr : string) : bool :=
  String.ltb today dateStr.

(** Monday-based day labels. *)
Definition DAY_LABELS : list string :=
  ["Mon"; "Tue"; "Wed"; "Thu"; "Fri"; "Sat"; "Sun"].

Inductive CellSize := sm | md | lg.

Definition sizeClasses (size : CellSize) : string :=
  match size with
  | sm => "w-4 h-4"
  | md => "w-5 h-5"
  | lg => "w-6 h-6"
  end.

Definition futureStyle : string :=
  "border border-(--border-color) bg-transparent opacity-40".
Definition visitedStyle : string := "bg-(--main-color)".
Definition emptyStyle : string := "bg-(--border-color) opacity-25".

(** The state part of a cell's class, the same expression in [DayCell]
    and in the cells of [WeekGrid]. *)
Definition stateStyle (isVisited isFuture : bool) : string :=
  if isFuture then futureStyle
  else if isVisited then visitedStyle
  else emptyStyle.

Definition cellTitle (date : string) (isVisited isFuture : bool) : string :=
  date +:+ (if isFuture then " (future)"
            else if isVisited then " ✓" else EmptyString).

(** What a day cell shows. *)
Module Rendered.
Record t := mk {
  className : string;
  style : string;
  title : string
}.
End Rendered.

(** [clsx(a, b, c)] of three non-empty class strings. *)
Definition clsx3 (a b c : string) : string := a +:+ " " +:+ b +:+ " " +:+ c.

Definition DayCell (date : string) (isVisited isFuture : bool) (size : CellSize)
    : Rendered.t :=
  Rendered.mk
    (clsx3 "cursor-default rounded transition-colors" (sizeClasses size)
       (stateStyle isVisited isFuture))
    (stateStyle isVisited isFuture)
    (cellTitle date isVisited isFuture).


(** A cell of the grid with the flags it was rendered from. *)
Module CalendarCell.
Record t := mk {
  date : string;
  visited : bool;
  isFuture : bool;
  rendered : Rendered.t
}.
End CalendarCell.


(** The local calendar date of a JavaScript [Date]: what
    [getFullYear()], [getMonth()] and [getDate()] return, with
    [getMonth] counting from 0. *)
Module JSDate.
Record t := mk {
  getFullYear : nat;
  getMonth : nat;
  getDate : nat
}.

Definition isLeap (y : nat) : bool :=
  ((y mod 4 =? 0) && negb (y mod 100 =? 0)) || (y mod 400 =? 0).

(** The number of days of month [m], counted from 0, of year [y]. *)
Definition lastDayOfMonth (y m : nat) : nat :=
  match m with
  | 1 => if isLeap y then 29 else 28
  | 3 | 5 | 8 | 10 => 30
  | _ => 31
  end.
End JSDate.

(** ** The calendar and the time values of [Date] *)

(** Days since 1970-01-01 of the civil date [y]-[m]-[d], [m] from 1. *)
Definition daysFromCivil (y m d : Z) : Z :=
  (let y' := if m <=? 2 then y - 1 else y in
   let era := y' / 400 in
   let yoe := y' - era * 400 in
   let mp := if m >? 2 then m - 3 else m + 9 in
   let doy := (153 * mp + 2) / 5 + d - 1 in
   let doe := yoe * 365 + yoe / 4 - yoe / 100 + doy in
   era * 146097 + doe - 719468)%Z.

(** The civil date of a day number: the year, the month from 1 and the
    day of the month. *)
Definition civilFromDays (z : Z) : Z * Z * Z :=
  (let z := z + 719468 in
   let era := z / 146097 in
   let doe := z - era * 146097 in
   let yoe := (doe - doe / 1460 + doe / 36524 - doe / 146096) / 365 in
   let doy := doe - (365 * yoe + yoe / 4 - yoe / 100) in
   let mp := (5 * doy + 2) / 153 in
   let d := doy - (153 * mp + 2) / 5 + 1 in
   let m := if mp <? 10 then mp + 3 else mp - 9 in
   let y := yoe + era * 400 in
   (if m <=? 2 then y + 1 else y, m, d))%Z.

(** A time value is a number of milliseconds since 1970-01-01T00:00Z.
    The operations below are the abstract operations of the same
    names that ECMAScript defines [Date] with, on the proleptic
    Gregorian calendar. *)
Definition msPerDay : Z := 86400000.

Definition Day (t : Z) : Z := (t / msPerDay)%Z.

Definition TimeWithinDay (t : Z) : Z := (t mod msPerDay)%Z.

Definition YearFromTime (t : Z) : Z := (civilFromDays (Day t)).1.1.

(** Months count from 0. *)
Definition MonthFromTime (t : Z) : Z := ((civilFromDays (Day t)).1.2 - 1)%Z.

Definition DateFromTime (t : Z) : Z := (civilFromDays (Day t)).2.

(** The day number of the first of month [month] of [year], months
    past 11 running into the next years, plus [date - 1]: so a [date]
    of 0 is the last day of the month before, and a [date] past the
    end of the month runs into the next month. *)
Definition MakeDay (year month date : Z) : Z :=
  (daysFromCivil (year + month / 12) (month mod 12 + 1) 1 + date - 1)%Z.

Definition MakeDate (day time : Z) : Z := (day * msPerDay + time)%Z.

(** A time value out of range makes an Invalid Date, [None] here. *)
Definition TimeClip (time : Z) : option Z :=
  if (Z.abs time <=? 8640000000000000)%Z then Some time else None.

(** The time zone of the machine: [LocalTime] takes a time value to
    local time, [UTC] takes a local time back. What they are is left
    to the implementation; where the clocks are put forward the local
    times that are skipped have no time value that [LocalTime] takes
    to them, and [UTC] reads them with the offset from before. *)
Module TimeZone.
Record t := mk {
  LocalTime : Z → Z;
  UTC : Z → Z
}.
End TimeZone.

(** The calendar date of a local time. Years before 0 are outside
    what [JSDate.t] holds. *)
Definition calendarDate (t : Z) : JSDate.t :=
  JSDate.mk (Z.to_nat (YearFromTime t)) (Z.to_nat (MonthFromTime t))
    (Z.to_nat (DateFromTime t)).

(** Leap years, on integers. *)
Definition isLeapYear (y : Z) : bool :=
  ((y mod 4 =? 0) && negb (y mod 100 =? 0) || (y mod 400 =? 0))%Z.

Section DateObjects.
Variable zone : TimeZone.t.

(** [new Date(year, month, date)]: local midnight of that day, a year
    from 0 to 99 standing for 1900 + year. *)
Definition newDate (year month date : Z) : option Z :=
  let yr := if (0 <=? year)%Z && (year <=? 99)%Z then (1900 + year)%Z else year in
  TimeClip (TimeZone.UTC zone (MakeDate (MakeDay yr month date) 0)).

(** [date.getDate()] of a valid date. *)
Definition getDate (tv : Z) : Z := DateFromTime (TimeZone.LocalTime zone tv).

(** [date.setDate(dt)] on a valid date: the day of the month is
    replaced and the local time of day is kept. *)
Definition setDate (tv : Z) (dt : Z) : option Z :=
  let t := TimeZone.LocalTime zone tv in
  TimeClip
    (TimeZone.UTC zone
       (MakeDate (MakeDay (YearFromTime t) (MonthFromTime t) dt)
          (TimeWithinDay t))).

(** The local calendar date of a valid date: its [getFullYear()],
    [getMonth()] and [getDate()]. *)
Definition localDate (tv : Z) : JSDate.t :=
  calendarDate (TimeZone.LocalTime zone tv).
End DateObjects.

(** [a.map(f)] on a JS array: the holes are passed over and stay
    holes, for which React renders nothing. *)
Definition mapArray {B} (f : Slot → B) (a : list Slot) : list B :=
  omap (λ s, match s with SHole => None | _ => Some (f s) end) a.

Section StreakGrid.
Variable zone : TimeZone.t.
(** From [../lib/streakCalculations], which the grid imports:
    [formatDate] gives the ISO string of a date, read from its local
    calendar date, and [formatInvalidDate] is what it gives for an
    Invalid Date; [getDayOfWeek] gives the day of the week of an ISO
    string with 0 for Monday and 6 for Sunday. *)
Variable formatDate : JSDate.t → string.
Variable formatInvalidDate : string.
Variable getDayOfWeek : string → nat.

Definition formatDateOf (date : option Z) : string :=
  match date with
  | Some tv => formatDate (localDate zone tv)
  | None => formatInvalidDate
  end.

(** Modelled from the spec: [hasVisit] of [../lib/streakCalculations]
    is not part of the sources at hand; a cell is visited when its
    date is present in [visits]. *)
Definition hasVisit (visits : list string) (date : string) : bool :=
  includes visits date.

(** [lastDay] is [new Date(year, month + 1, 0).getDate()]; when that
    date is invalid [day <= lastDay] is false from the start. *)
Definition getFullMonthDays (now : JSDate.t) : list string :=
  let year := Z.of_nat (JSDate.getFullYear now) in
  let month := Z.of_nat (JSDate.getMonth now) in
  match newDate zone year (month + 1) 0 with
  | Some last =>
      let lastDay := getDate zone last in
      map (λ day, formatDateOf (newDate zone year month day)) (seqZ 1 lastDay)
  | None => []
  end.

(** The loop of [getFullYearDays]:
    [while (currentDate <= endDate) { yearDays.push(formatDate(currentDate));
    currentDate.setDate(currentDate.getDate() + 1); }].
    A comparison with an Invalid Date is false. [None] when the loop
    has not ended after [fuel] rounds. *)
Fixpoint yearLoop (fuel : nat) (currentDate endDate : Z) (yearDays : list string)
    : option (list string) :=
  match fuel with
  | 0 => None
  | S fuel =>
      if (currentDate <=? endDate)%Z then
        let yearDays := yearDays ++ [formatDate (localDate zone currentDate)] in
        match setDate zone currentDate (getDate zone currentDate + 1) with
        | Some currentDate => yearLoop fuel currentDate endDate yearDays
        | None => Some yearDays
        end
      else Some yearDays
  end.

Definition getFullYearDays (fuel : nat) (now : JSDate.t) : option (list string) :=
  let year := Z.of_nat (JSDate.getFullYear now) in
  let startDate := newDate zone year 0 1 in
  let endDate := newDate zone year 11 31 in
  match startDate, endDate with
  | Some startDate, Some endDate => yearLoop fuel startDate endDate []
  | _, _ => Some []
  end.

(** One round of the bucketing loop of [MonthGrid] and [YearGrid]:
    [weeks] and [currentWeek] before and after [day]. *)
Definition bucketStep (st : list (list Slot) * list Slot) (day : string)
    : list (list Slot) * list Slot :=
  let '(weeks, currentWeek) := st in
  let dayOfWeek := getDayOfWeek day in
  let currentWeek := arraySet currentWeek dayOfWeek (SDay day) in
  if dayOfWeek =? 6 then (weeks ++ [currentWeek], EMPTY_WEEK)
  else (weeks, currentWeek).

Definition bucketLoop (days : list string) : list (list Slot) * list Slot :=
  foldl bucketStep ([], EMPTY_WEEK) days.

(** The weeks of [MonthGrid] and [YearGrid]: the loop, then the last
    partial week when it holds anything but [null]. *)
Definition bucketWeeks (days : list string) : list (list Slot) :=
  let '(weeks, currentWeek) := bucketLoop days in
  if existsb notNull currentWeek
  then weeks ++ [currentWeek]
  else weeks.

Definition renderSlot (cell : string → bool → bool → Rendered.t)
    (today : string) (visits : list string) (slot : Slot)
    : option CalendarCell.t :=
  match slotDay slot with
  | Some day =>
      let isVisited := hasVisit visits day in
      let isFuture := isFutureDate today day in
      Some (CalendarCell.mk day isVisited isFuture (cell day isVisited isFuture))
  | None => None
  end.

(** The cells of [MonthGrid], column by column; [None] is an empty
    box. *)
Definition renderWeeks (size : CellSize) (today : string) (visits : list string)
    (weeks : list (list Slot)) : list (list (option CalendarCell.t)) :=
  map (mapArray (renderSlot (λ d v f, DayCell d v f size) today visits)) weeks.

Definition MonthGrid (now : JSDate.t) (visits : list string)
    : list (list (option CalendarCell.t)) :=
  renderWeeks md (formatDate now) visits (bucketWeeks (getFullMonthDays now)).

(** The rows of [YearGrid] for the weeks [allWeeks]: for each of the
    seven day labels, the element of that index of every week; an
    index a week does not have reads as [undefined]. *)
Definition yearRows (today : string) (visits : list string)
    (allWeeks : list (list Slot)) : list (list (option CalendarCell.t)) :=
  map (λ dayIndex,
         map (λ week,
                renderSlot (λ d v f, DayCell d v f sm) today visits
                  (default SHole (week !! dayIndex)))
           allWeeks)
    (seq 0 (length DAY_LABELS)).

(** [YearGrid] lays its cells out row by row. There is no grid while
    [getFullYearDays] has not returned. *)
Definition YearGrid (fuel : nat) (now : JSDate.t) (visits : list string)
    : option (list (list (option CalendarCell.t))) :=
  match getFullYearDays fuel now with
  | Some allYearDays =>
      Some (yearRows (formatDate now) visits (bucketWeeks allYearDays))
  | None => None
  end.



(** The cells a grid shows, leaving out the empty boxes. *)
Definition cellsOf (grid : list (list (option CalendarCell.t)))
    : list CalendarCell.t :=
  omap (λ c, c) (mjoin grid).

(** The column a day of position [i] in [days] belongs to: the number
    of Sundays before it. *)
Definition columnOf (days : list string) (i : nat) : nat :=
  length (filter (λ d, getDayOfWeek d = 6) (take i days)).

(** What is at row [r] of column [c]. *)
Definition slotAt (weeks : list (list Slot)) (c r : nat) : option Slot :=
  weeks !! c ≫= λ w, w !! r.

(** [getDayOfWeek] behaves as a Monday-based day of the week on
    [days], a run of consecutive calendar days: it stays below 7 and
    steps by one from each day to the next, Sunday being followed by
    Monday. *)
Definition consecutiveDays (days : list string) : Prop :=
  (∀ d, d ∈ days → getDayOfWeek d < 7)
  ∧ (∀ i d d', days !! i = Some d → days !! S i = Some d' →
       getDayOfWeek d' = (getDayOfWeek d + 1) mod 7).

(** [consecutiveDays], as a check that runs. *)
Fixpoint consecutiveDaysb (days : list string) : bool :=
  match days with
  | [] => true
  | d :: rest =>
      (getDayOfWeek d <? 7)
      && match rest with
         | [] => true
         | d' :: _ => getDayOfWeek d' =? (getDayOfWeek d + 1) mod 7
         end
      && consecutiveDaysb rest
  end.

(** What the bucketing loop keeps true after the days [p]: the weeks
    have seven rows, there are as many finished weeks as Sundays in
    [p], every day of [p] sits in its column at the row of its day of
    the week, nothing else sits anywhere, and the days of the week in
    progress are no later in the week than the last day, which is not
    a Sunday. *)
Definition bucketInvariant (p : list string)
    (st : list (list Slot) * list Slot) : Prop :=
  let '(weeks, currentWeek) := st in
  Forall (λ w, length w = 7) weeks
  ∧ length currentWeek = 7
  ∧ length weeks = columnOf p (length p)
  ∧ (∀ i d, p !! i = Some d →
       slotAt (weeks ++ [currentWeek]) (columnOf p i) (getDayOfWeek d)
       = Some (SDay d))
  ∧ (∀ c r d, slotAt (weeks ++ [currentWeek]) c r = Some (SDay d) →
       ∃ i, p !! i = Some d ∧ c = columnOf p i ∧ r = getDayOfWeek d)
  ∧ (∀ r d, currentWeek !! r = Some (SDay d) →
       ∃ l, last p = Some l ∧ r ≤ getDayOfWeek l ∧ getDayOfWeek l < 6).
End StreakGrid.

(** ** The days of a period by the calendar *)

(** The days of month [m], counted from 0, of year [y], from the first
    to the last, as [formatDate] writes them. *)
Definition calendarMonthDays (formatDate : JSDate.t → string) (y m : nat)
    : list string :=
  map (λ day, formatDate (JSDate.mk y m day)) (seq 1 (JSDate.lastDayOfMonth y m)).

(** The days of year [y], from January 1 to December 31. *)
Definition calendarYearDays (formatDate : JSDate.t → string) (y : nat)
    : list string :=
  flat_map (calendarMonthDays formatDate y) (seq 0 12).

(** Local midnight of the day of number [day] gives a valid date that
    falls on that day. Where the clocks are put forward at midnight
    this holds, the date being later on the same day. *)
Definition dayKept (zone : TimeZone.t) (day : Z) : Prop :=
  (Z.abs (TimeZone.UTC zone (MakeDate day 0)) ≤ 8640000000000000)%Z
  ∧ Day (TimeZone.LocalTime zone (TimeZone.UTC zone (MakeDate day 0))) = day.

(** Local midnight of the day of number [day] exists: it gives a valid
    date whose local time is that midnight. It does not where the
    clocks are put forward at midnight. *)
Definition midnightExists (zone : TimeZone.t) (day : Z) : Prop :=
  (Z.abs (TimeZone.UTC zone (MakeDate day 0)) ≤ 8640000000000000)%Z
  ∧ TimeZone.LocalTime zone (TimeZone.UTC zone (MakeDate day 0)) = MakeDate day 0.

(** In month [m] of year [y] every day is kept. *)
Definition regularMonth (zone : TimeZone.t) (y m : nat) : Prop :=
  ∀ day : nat,
    1 ≤ day ≤ JSDate.lastDayOfMonth y m →
    dayKept zone
      (daysFromCivil (Z.of_nat y) (Z.of_nat (S m)) (Z.of_nat day)).

(** In year [y] every local midnight exists, and from January 1 to the
    January 1 after, a later local midnight is a later time. *)
Definition regularYear (zone : TimeZone.t) (y : nat) : Prop :=
  let first := daysFromCivil (Z.of_nat y) 1 1 in
  let next := daysFromCivil (Z.of_nat y + 1) 1 1 in
  (∀ day, (first ≤ day < next)%Z → midnightExists zone day)
  ∧ (∀ a b, (first ≤ a)%Z → (a < b)%Z → (b ≤ next)%Z →
       (TimeZone.UTC zone (MakeDate a 0) < TimeZone.UTC zone (MakeDate b 0))%Z).

(** ** ISO dates *)

Definition digitChar (n : nat) : ascii := ascii_of_nat (48 + n mod 10).

Definition pad2 (n : nat) : string :=
  String (digitChar (n / 10)) (String (digitChar n) EmptyString).

Definition pad4 (n : nat) : string :=
  String (digitChar (n / 1000)) (String (digitChar (n / 100))
    (String (digitChar (n / 10)) (String (digitChar n) EmptyString))).

(** Modelled from the spec: [formatDate] of [../lib/streakCalculations]
    is not part of the sources at hand; dates are canonical ISO
    [YYYY-MM-DD] strings. The month of a [Date] counts from 0. *)
Definition isoFormat (d : JSDate.t) : string :=
  pad4 (JSDate.getFullYear d) +:+ "-" +:+ pad2 (S (JSDate.getMonth d))
  +:+ "-" +:+ pad2 (JSDate.getDate d).

(** A date that has a canonical ISO string. *)
Definition canonical (d : JSDate.t) : Prop :=
  JSDate.getFullYear d < 100 * 100 ∧ JSDate.getMonth d ≤ 11 ∧ JSDate.getDate d ≤ 31.

(** Calendar order: [a] is strictly before [b]. *)
Definition before (a b : JSDate.t) : Prop :=
  JSDate.getFullYear a < JSDate.getFullYear b
  ∨ (JSDate.getFullYear a = JSDate.getFullYear b
     ∧ (JSDate.getMonth a < JSDate.getMonth b
        ∨ (JSDate.getMonth a = JSDate.getMonth b
           ∧ JSDate.getDate a < JSDate.getDate b))).

(** The number a run of decimal digits stands for. *)
Definition digitsValue (s : string) : Z :=
  fold_left (λ acc c, (10 * acc + (Z.of_nat (nat_of_ascii c) - 48))%Z)
    (list_ascii_of_string s) 0%Z.

(** The day number of an ISO [YYYY-MM-DD] string. *)
Definition isoDayNumber (s : string) : Z :=
  daysFromCivil (digitsValue (substring 0 4 s)) (digitsValue (substring 5 2 s))
    (digitsValue (substring 8 2 s)).

(** Modelled from the spec: [getDayOfWeek] of
    [../lib/streakCalculations] is not part of the sources at hand; it
    gives the day of the week of an ISO string, 0 for Monday and 6 for
    Sunday. 1970-01-01 was a Thursday. *)
Definition isoDayOfWeek (s : string) : nat :=
  Z.to_nat ((isoDayNumber s + 3) mod 7).

(** ** The streak engine *)

(** Keeps a strictly ascending list strictly ascending. *)
Fixpoint insertUnique (x : Z) (l : list Z) : list Z :=
  match l with
  | [] => [x]
  | h :: t =>
      if (x <? h)%Z then x :: l
      else if (x =? h)%Z then l
      else h :: insertUnique x t
  end.

(** The distinct elements in ascending order. *)
Definition sortedUnique (l : list Z) : list Z := foldr insertUnique [] l.

(** The scan over the sorted days after the first: [prev] is the day
    before, [run] the length of the run that ends there, [best] the
    longest run so far. *)
Fixpoint scanRuns (prev : Z) (run best : nat) (l : list Z) : nat :=
  match l with
  | [] => best
  | d :: r =>
      let run := if (d =? prev + 1)%Z then S run else 1 in
      scanRuns d run (Nat.max best run) r
  end.

(** Counts down from [expected] through days given latest first: later
    days are passed over, the count stops at the first gap. *)
Fixpoint runEndingAt (expected : Z) (latestFirst : list Z) : nat :=
  match latestFirst with
  | [] => 0
  | d :: r =>
      if (d >? expected)%Z then runEndingAt expected r
      else if (d =? expected)%Z then S (runEndingAt (expected - 1) r)
      else 0
  end.

Definition memZ (x : Z) (l : list Z) : bool := existsb (Z.eqb x) l.

(** ** The streak cards ([StreakStats.tsx]) *)

(** What a [StatCard] shows: the title, the value with its unit and the
    description; the icon is left out. *)
Module StatCardView.
Record t := mk {
  title : string;
  value : nat;
  units : string;
  description : string
}.
End StatCardView.

Definition StatCard (title : string) (value : nat) (description : string)
    : StatCardView.t :=
  StatCardView.mk title value (if value =? 1 then "day" else "days") description.

Section StreakCards.
(** The three functions of [../lib/streakCalculations], which is not
    part of the sources at hand; each is called with the visits. *)
Variable calculateCurrentStreak : list string → nat.
Variable calculateLongestStreak : list string → nat.
Variable calculateTotalVisits : list string → nat.

(** The three cards of [StreakStats], in the order of the array. *)
Definition StreakStats (visits : list string) : list StatCardView.t :=
  let currentStreak := calculateCurrentStreak visits in
  let longestStreak := calculateLongestStreak visits in
  let totalVisits := calculateTotalVisits visits in
  let stats :=
    [ ("Current Streak", currentStreak,
       if 0 <? currentStreak then "Keep it going!" else "Start your streak today!");
      ("Longest Streak", longestStreak,
       if (longestStreak <=? currentStreak) && (0 <? currentStreak)
       then "You're at your best!" else "Your personal record");
      ("Total Visits", totalVisits, "Days you've practiced") ] in
  map (λ stat, StatCard stat.1.1 stat.1.2 stat.2) stats.
End StreakCards.

Section StreakEngine.
(** The calendar day number of an ISO date string. *)
Variable dayNumber : string → Z.

Definition visitDays (visits : list string) : list Z :=
  sortedUnique (map dayNumber visits).

(** Modelled from the spec: [calculateLongestStreak] of
    [../lib/streakCalculations] is not part of the sources at hand. It
    scans the sorted unique dates and finds the longest run of
    consecutive calendar days. *)
Definition calculateLongestStreak (visits : list string) : nat :=
  match visitDays visits with
  | [] => 0
  | d :: r => scanRuns d 1 1 r
  end.

(** Modelled from the spec: [calculateCurrentStreak] of
    [../lib/streakCalculations] is not part of the sources at hand. It
    counts the consecutive days ending today, or yesterday if today
    has no visit yet, with no gap, and returns 0 if there is no visit
    today or yesterday. *)
Definition calculateCurrentStreak (today : string) (visits : list string) : nat :=
  let days := visitDays visits in
  let t := dayNumber today in
  if memZ t days then runEndingAt t (rev days)
  else if memZ (t - 1)%Z days then runEndingAt (t - 1)%Z (rev days)
  else 0.

(** Modelled from the spec: [calculateTotalVisits] of
    [../lib/streakCalculations] is not part of the sources at hand; it
    is the count of unique visit dates. *)
Definition calculateTotalVisits (visits : list string) : nat :=
  length (visitDays visits).

End StreakEngine.

(** ** Sample data for the examples *)

Module Sample.
(** A stand-in for the colour math: it tags its input. *)
#[export] Instance colors : ThemeColors := {|
  generateCardColor bg isLight :=
    (if isLight then "card-light(" else "card-dark(") +:+ bg +:+ ")";
  generateBorderColor bg isLight :=
    (if isLight then "border-light(" else "border-dark(") +:+ bg +:+ ")";
  generateAccentColor c := "accent(" +:+ c +:+ ")"
|}.

(** A registry that is a map from wallpaper id to wallpaper. *)
#[export] Instance wallpaperMap : WallpaperRegistry (gmap string Wallpaper.t) := {|
  getWallpaperById reg id := reg !! id;
  registerCustomWallpaper wp reg := <[Wallpaper.id wp := wp]> reg;
  unregisterCustomWallpaper id reg := delete id reg
|}.

Definition neonCity : BaseTheme.t :=
  BaseTheme.mk "neon-city" "oklch(10% 0.05 300)" "oklch(80% 0.2 320)"
    "oklch(75% 0.15 200)" (Some "neon-city-wallpaper").

Definition paper : BaseTheme.t :=
  BaseTheme.mk "paper" "oklch(97% 0 0)" "oklch(30% 0 0)" "oklch(45% 0 0)" None.

Definition mono : BaseTheme.t :=
  BaseTheme.mk "mono" "oklch(15% 0 0)" "oklch(90% 0 0)" EmptyString None.

#[export] Instance definitions : ThemeDefinitions := {|
  baseThemeSets :=
    [ BaseThemeGroup.mk "Light" true [paper];
      BaseThemeGroup.mk "Dark" false [mono];
      BaseThemeGroup.mk "Premium Wallpapers" false [neonCity] ]
|}.

Definition sunset : ThemeTemplate.t :=
  ThemeTemplate.mk "sunset" "oklch(20% 0.1 30)" "oklch(25% 0.1 30)"
    "oklch(35% 0.1 30)" "oklch(85% 0.15 60)" "oklch(70% 0.1 40)".


Definition beach : CustomWallpaper.t :=
  CustomWallpaper.mk "custom-beach" "Beach" "data:image/webp;base64,AAAA".

(** The module just loaded, an empty registry, nothing on the document. *)
Definition world0 (ts : list ThemeTemplate.t) (ws : list CustomWallpaper.t)
    : World (gmap string Wallpaper.t) :=
  mkWorld [] None false None ts ws ∅ ∅ false ∅ ∅ BodyStyle.cleared [].

(** February 2024, on the 14th. *)
Definition now : JSDate.t := JSDate.mk 2024 1 14.

(** A zone two hours ahead of UTC all year. *)
Definition utcPlus2 : TimeZone.t :=
  TimeZone.mk (λ t, t + 7200000)%Z (λ t, t - 7200000)%Z.

(** Africa/Cairo in 2024: two hours ahead of UTC, and three from
    Friday 26 April, when the clocks went from 00:00 to 01:00, to the
    end of Thursday 31 October, when they went from 24:00 back to
    23:00. The local times from 00:00 to 01:00 of 26 April do not
    exist and are read two hours ahead; a local time that comes twice
    is the earlier one. *)
Definition cairo2024 : TimeZone.t :=
  let hour := 3600000%Z in
  let forwardUTC := MakeDate (daysFromCivil 2024 4 25) (22 * hour) in
  let backUTC := MakeDate (daysFromCivil 2024 10 31) (21 * hour) in
  let forwardLocal := MakeDate (daysFromCivil 2024 4 26) 0 in
  let backLocal := MakeDate (daysFromCivil 2024 11 1) 0 in
  TimeZone.mk
    (λ t, if (forwardUTC <=? t) && (t <? backUTC) then t + 3 * hour
          else t + 2 * hour)%Z
    (λ t, if t <? forwardLocal + hour then t - 2 * hour
          else if t <? backLocal then t - 3 * hour
          else t - 2 * hour)%Z.
End Sample.

(** ** More of the theme module *)

(** The object [getWallpaperStyles] returns when there is a URL. *)
Module WallpaperStyles.
Record t := mk {
  backgroundImage : string;
  backgroundSize : string;
  backgroundPosition : string;
  backgroundRepeat : string;
  filter : string
}.
End WallpaperStyles.

(** [getWallpaperStyles(wallpaperUrl, isHighlighted, wallpaperUrlWebp)];
    [None] is the empty object. *)
Definition getWallpaperStyles (wallpaperUrl : option string) (isHighlighted : bool)
    (wallpaperUrlWebp : option string) : option WallpaperStyles.t :=
  if negb (truthyOpt wallpaperUrl) then None
  else
    let url := default EmptyString wallpaperUrl in
    let backgroundImage :=
      if truthyOpt wallpaperUrlWebp
      then "image-set(url('" +:+ url +:+ "') type('image/avif'), url('"
           +:+ default EmptyString wallpaperUrlWebp +:+ "') type('image/webp'))"
      else "url('" +:+ url +:+ "')" in
    Some (WallpaperStyles.mk backgroundImage "cover" "center" "no-repeat"
            (if isHighlighted then "brightness(1)" else "brightness(0.85)")).

(** The template that [themes.forEach(theme => themeMap.set(theme.id, ...))]
    leaves under [k]: the last one of that id. *)
Fixpoint lastTemplate (ts : list ThemeTemplate.t) (k : string)
    : option ThemeTemplate.t :=
  match ts with
  | [] => None
  | t :: rest =>
      match lastTemplate rest k with
      | Some t' => Some t'
      | None => if String.eqb (ThemeTemplate.id t) k then Some t else None
      end
  end.

Section ThemeEngineMore.
Context `{ThemeColors} `{ThemeDefinitions} {R : Type} `{WallpaperRegistry R}.

(** What the first lookup of a freshly loaded module finds under [k]:
    a custom wallpaper of that id wins, then any other key starting
    with "custom-" is dropped, then the last custom theme of that id,
    then the built-in theme. *)
Definition firstLookup (w : World R) (k : string) : option Theme.t :=
  if includes (map CustomWallpaper.id (wallpapers w)) k
  then Some (buildCustomWallpaperTheme k)
  else if String.prefix "custom-" k then None
  else match lastTemplate (customThemes w) k with
       | Some t => Some (buildThemeFromTemplate t)
       | None => builtinThemeMap !! k
       end.

(** The map in [_themeMap], when there is one, has every built-in
    theme whose id does not start with "custom-". *)
Definition coversBuiltin (w : World R) : Prop :=
  ∀ loc k,
    _themeMap w = Some loc →
    is_Some (builtinThemeMap !! k) →
    String.prefix "custom-" k = false →
    is_Some (mapAt loc w !! k).

(** The state of the document and of the preference, without the log
    of effects. *)
Definition document (w : World R) :=
  (glassMode w, rootStyle w, rootAttrs w, bodyStyle w).
End ThemeEngineMore.

(** ** More of the streak calendar *)

(** The days of a grid of week columns read column by column, top to
    bottom, as the cells of [MonthGrid] come. *)
Definition slotsDays (weeks : list (list Slot)) : list string :=
  omap slotDay (mjoin weeks).

(** ** The FAQ list, the timed challenge and the selection labels *)

(** [l.slice(0, end)] for an integer [end]: a negative [end] counts
    from the end of the array. *)
Definition sliceFromStart {A} (l : list A) (end_ : Z) : list A :=
  if (end_ <? 0)%Z then take (Z.to_nat (Z.of_nat (length l) + end_)) l
  else take (Z.to_nat end_) l.

(** [String(n)] for a natural number. *)
Definition natToString (n : nat) : string :=
  NilZero.string_of_uint (Nat.to_uint n).

(** [a.join(sep)]: [undefined] elements give the empty string. *)
Fixpoint joinWith (sep : string) (a : list (option string)) : string :=
  match a with
  | [] => EmptyString
  | [x] => default EmptyString x
  | x :: rest => default EmptyString x +:+ sep +:+ joinWith sep rest
  end.

(** The state and the handlers of the [FAQ] component. *)
Module FAQ.
Definition displayedItems {A} (items : list A) (initialDisplayCount : Z)
    (showAll : bool) : list A :=
  if showAll then items else sliceFromStart items initialDisplayCount.

Definition hasMoreItems {A} (items : list A) (initialDisplayCount : Z) : bool :=
  (initialDisplayCount <? Z.of_nat (length items))%Z.

(** [toggleItem(index)], as the update of [expandedItems]. *)
Definition toggleItem (index : nat) (prev : gset nat) : gset nat :=
  if decide (index ∈ prev) then prev ∖ {[index]} else prev ∪ {[index]}.

(** [expandAll()]: the set of the indices of the displayed items. *)
Definition expandAll {A} (displayedItems : list A) : gset nat :=
  list_to_set (imap (λ i _, i) displayedItems).

Definition collapseAll : gset nat := ∅.
End FAQ.

Module KanaCharacter.
Record t := mk {
  kana : string;
  romaji : string
}.
End KanaCharacter.

(** The configuration that [TimedChallengeKana] hands to the timed
    challenge. *)
Section TimedChallengeKana.
(** [a.sort(() => Math.random() - 0.5)]: some rearrangement of [a]. *)
Variable shuffle : list KanaCharacter.t → list KanaCharacter.t.
(** [String.prototype.toLowerCase] and [String.prototype.trim]. *)
Variable toLowerCase : string → string.
Variable trim : string → string.

Definition renderQuestion (question : KanaCharacter.t) (isReverse : bool) : string :=
  if isReverse then KanaCharacter.romaji question else KanaCharacter.kana question.

Definition checkAnswer (question : KanaCharacter.t) (answer : string)
    (isReverse : bool) : bool :=
  if isReverse then String.eqb (trim answer) (KanaCharacter.kana question)
  else String.eqb (toLowerCase answer)
         (toLowerCase (KanaCharacter.romaji question)).

Definition getCorrectAnswer (question : KanaCharacter.t) (isReverse : bool) : string :=
  if isReverse then KanaCharacter.kana question else KanaCharacter.romaji question.

Definition getCorrectOption (question : KanaCharacter.t) (isReverse : bool) : string :=
  if isReverse then KanaCharacter.kana question else KanaCharacter.romaji question.

Definition generateOptions (question : KanaCharacter.t)
    (items : list KanaCharacter.t) (count : Z) (isReverse : bool) : list string :=
  if isReverse then
    let correctAnswer := KanaCharacter.kana question in
    let incorrectOptions :=
      map KanaCharacter.kana
        (sliceFromStart
           (shuffle
              (List.filter
                 (λ item, negb (String.eqb (KanaCharacter.kana item) correctAnswer))
                 items))
           (count - 1)) in
    correctAnswer :: incorrectOptions
  else
    let correctAnswer := KanaCharacter.romaji question in
    let incorrectOptions :=
      map KanaCharacter.romaji
        (sliceFromStart
           (shuffle
              (List.filter
                 (λ item, negb (String.eqb (KanaCharacter.romaji item) correctAnswer))
                 items))
           (count - 1)) in
    correctAnswer :: incorrectOptions.

(** The field an option of the given mode is taken from. *)
Definition optionOf (isReverse : bool) (item : KanaCharacter.t) : string :=
  if isReverse then KanaCharacter.kana item else KanaCharacter.romaji item.
End TimedChallengeKana.

(** A group of the kana table. *)
Module KanaGroup.
Record t := mk {
  groupName : string;
  kana : list string
}.
End KanaGroup.

Definition isChallenge (group : KanaGroup.t) : bool :=
  String.prefix "challenge." (KanaGroup.groupName group).

(** [group.kana[0]] inside a template literal. *)
Definition firstKanaText (group : KanaGroup.t) : string :=
  default "undefined" (head (KanaGroup.kana group)).

Section KanaLabels.
(** The kana table of [@/features/Kana/data/kana]. *)
Variable kana : list KanaGroup.t.

(** The indices of the groups that are no challenge groups, as
    [SelectionStatusBar], [TimedChallengeKana] and the "Select All
    Kana" button of [DojoMenu] compute them. *)
Definition nonChallengeIndices : list nat :=
  map fst
    (List.filter (λ ik : nat * KanaGroup.t, negb (isChallenge ik.2))
       (imap (λ i k, (i, k)) kana)).

Definition allNonChallengeSelected (kanaGroupIndices : list nat) : bool :=
  forallb (λ i, bool_decide (i ∈ kanaGroupIndices)) nonChallengeIndices.

Definition groupLabel (group : KanaGroup.t) : string :=
  if isChallenge group then firstKanaText group +:+ "-group (challenge)"
  else firstKanaText group +:+ "-group".

(** [selectedKanaGroups] of [TimedChallengeKana]. *)
Definition selectedKanaGroups (kanaGroupIndices : list nat) : list string :=
  let allSelected := allNonChallengeSelected kanaGroupIndices in
  let labels := if allSelected then ["all kana"] else [] in
  foldl
    (λ labels i,
       match kana !! i with
       | None =>
           if negb allSelected
           then labels ++ ["Group " +:+ natToString (i + 1)]
           else labels
       | Some group =>
           if negb (isChallenge group) && allSelected then labels
           else labels ++ [groupLabel group]
       end)
    labels kanaGroupIndices.

(** [kanaGroupNamesFull] and [kanaGroupNamesCompact] of
    [SelectionStatusBar]; an element of the compact names is
    [undefined] when the group has no kana. *)
Definition kanaGroupNames (kanaGroupIndices : list nat)
    : list string * list (option string) :=
  let allSelected := allNonChallengeSelected kanaGroupIndices in
  let start :=
    if allSelected then (["all kana"], [Some "all kana"]) else ([], []) in
  foldl
    (λ (names : list string * list (option string)) i,
       let '(full, compact) := names in
       match kana !! i with
       | None =>
           let fallback := "Group " +:+ natToString (i + 1) in
           if negb allSelected
           then (full ++ [fallback], compact ++ [Some fallback])
           else (full, compact)
       | Some group =>
           if negb (isChallenge group) && allSelected then (full, compact)
           else (full ++ [groupLabel group],
                 compact ++ [head (KanaGroup.kana group)])
       end)
    start kanaGroupIndices.

(** [formattedSelectionFull] and [formattedSelectionCompact] of
    [SelectionStatusBar] on the kana page. *)
Definition formattedSelection (names : list (option string)) : string :=
  if 0 <? length names then joinWith ", " names else "None".

(** The label that one selected index gives when not every group that
    is no challenge is selected. *)
Definition labelOfIndex (i : nat) : string :=
  match kana !! i with
  | None => "Group " +:+ natToString (i + 1)
  | Some group => groupLabel group
  end.

(** The label that one selected index gives when every group that is
    no challenge is selected: only challenge groups are named. *)
Definition challengeLabelOfIndex (i : nat) : option string :=
  match kana !! i with
  | None => None
  | Some group => if isChallenge group then Some (groupLabel group) else None
  end.
End KanaLabels.

(** * Properties of the theme engine *)

Section ThemeProperties.
Context `{ThemeColors} `{ThemeDefinitions} {R : Type} `{WallpaperRegistry R}.
Implicit Types w : World R.

(** *** What the map bookkeeping leaves alone *)

Lemma visible_mapSet loc k v w : visible (mapSet loc k v w) = visible w.
Proof. reflexivity. Qed.

Lemma visible_getThemeMap w : visible (getThemeMap w).2 = visible w.
Proof. unfold getThemeMap. by destruct (_themeMap w). Qed.

Lemma visible_foldl {A} (f : World R → A → World R) (l : list A) :
  (∀ w x, visible (f w x) = visible w) →
  ∀ w, visible (foldl f w l) = visible w.
Proof.
  intros Hf. induction l as [|x l IH]; intros w; simpl; [done|].
  by rewrite IH, Hf.
Qed.

Lemma visible_setAllTemplates loc ts w :
  visible (setAllTemplates loc ts w) = visible w.
Proof. apply visible_foldl. intros. apply visible_mapSet. Qed.

Lemma visible_syncCustomWallpapers w :
  visible (syncCustomWallpapers w) = visible w.
Proof.
  unfold syncCustomWallpapers.
  pose proof (visible_getThemeMap w) as Hg.
  destruct (getThemeMap w) as [loc w1]; simpl in Hg.
  rewrite visible_foldl, visible_foldl; [done| |].
  - intros w2 key. unfold removeOne. by destruct (isStale _ key).
  - intros w2 wp. reflexivity.
Qed.

Lemma visible_ensureCustomThemesLoaded w :
  visible (ensureCustomThemesLoaded w) = visible w.
Proof.
  unfold ensureCustomThemesLoaded.
  destruct (_customThemesLoaded w); [done|].
  pose proof (visible_getThemeMap (withLoaded true w)) as Hg.
  destruct (getThemeMap (withLoaded true w)) as [loc w1]; simpl in Hg.
  rewrite visible_syncCustomWallpapers.
  change (visible (setAllTemplates loc (customThemes w1) w1) = visible w).
  by rewrite visible_setAllTemplates.
Qed.

Lemma visible_lookupWorld w : visible (lookupWorld w) = visible w.
Proof.
  unfold lookupWorld.
  by rewrite visible_getThemeMap, visible_ensureCustomThemesLoaded.
Qed.

Lemma visible_inv w w' :
  visible w' = visible w →
  glassMode w' = glassMode w ∧ rootStyle w' = rootStyle w
  ∧ rootAttrs w' = rootAttrs w ∧ bodyStyle w' = bodyStyle w
  ∧ effects w' = effects w.
Proof. unfold visible. intros [= -> -> -> -> ->]. done. Qed.

Lemma applyTheme_unfold themeId w :
  applyTheme themeId w =
    match lookupMap w !! resolveThemeId themeId with
    | None =>
        consoleError ("Theme " +:+ dquote +:+ themeId +:+ dquote +:+ " not found")
          (lookupWorld w)
    | Some theme => applyFound (resolveThemeId themeId) theme (lookupWorld w)
    end.
Proof.
  unfold applyTheme, lookupMap, lookupWorld, applyFound.
  by destruct (getThemeMap (ensureCustomThemesLoaded w)) as [loc w1].
Qed.

Lemma getTheme_lookupMap themeId w :
  (getTheme themeId w).1 = lookupMap w !! resolveThemeId themeId.
Proof.
  unfold getTheme, lookupMap.
  by destruct (getThemeMap (ensureCustomThemesLoaded w)) as [loc w1].
Qed.

(** C1. When the alias-resolved id is absent from the theme map,
    [applyTheme] only logs the error: the CSS variables, the
    attributes of the root (the data-theme attribute among them), the
    wallpaper properties of the body and the glass-mode preference
    are what they were, and the one effect is the console message. *)
Theorem applyTheme_unknown_is_noop themeId w :
  lookupMap w !! resolveThemeId themeId = None →
  let w' := applyTheme themeId w in
  rootStyle w' = rootStyle w
  ∧ rootAttrs w' = rootAttrs w
  ∧ bodyStyle w' = bodyStyle w
  ∧ glassMode w' = glassMode w
  ∧ effects w' =
      effects w
      ++ [ConsoleError ("Theme " +:+ dquote +:+ themeId +:+ dquote +:+ " not found")].
Proof.
  intros Hnone. cbv zeta. rewrite applyTheme_unfold, Hnone.
  destruct (visible_inv _ _ (visible_lookupWorld w)) as (Hg & Hs & Ha & Hb & He).
  cbn. by rewrite Hg, Hs, Ha, Hb, He.
Qed.

(** *** The effects and the document after a successful [applyTheme] *)

Lemma effects_writeVariables e w :
  effects (writeVariables e w) = effects w ++ variableWrites e.
Proof.
  unfold writeVariables, variableWrites.
  destruct (truthy (EffectiveTheme.secondaryColor e)); cbn;
    repeat rewrite <- app_assoc; reflexivity.
Qed.

Lemma internals_writeVariables e w : internals (writeVariables e w) = internals w.
Proof.
  unfold writeVariables.
  by destruct (truthy (EffectiveTheme.secondaryColor e)).
Qed.

Lemma glassMode_writeVariables e w : glassMode (writeVariables e w) = glassMode w.
Proof.
  unfold writeVariables.
  by destruct (truthy (EffectiveTheme.secondaryColor e)).
Qed.

Lemma bodyStyle_writeVariables e w : bodyStyle (writeVariables e w) = bodyStyle w.
Proof.
  unfold writeVariables.
  by destruct (truthy (EffectiveTheme.secondaryColor e)).
Qed.

Lemma glassMode_setAttribute n v w : glassMode (setAttribute n v w) = glassMode w.
Proof. reflexivity. Qed.

Lemma rootStyle_setAttribute n v w : rootStyle (setAttribute n v w) = rootStyle w.
Proof. reflexivity. Qed.

Lemma bodyStyle_setAttribute n v w : bodyStyle (setAttribute n v w) = bodyStyle w.
Proof. reflexivity. Qed.

Lemma effects_setAttribute n v w :
  effects (setAttribute n v w) = effects w ++ [SetAttribute n v].
Proof. reflexivity. Qed.

Lemma registry_setAttribute n v w : registry (setAttribute n v w) = registry w.
Proof. reflexivity. Qed.

Lemma registry_writeVariables e w : registry (writeVariables e w) = registry w.
Proof.
  unfold writeVariables.
  by destruct (truthy (EffectiveTheme.secondaryColor e)).
Qed.

Lemma effects_applyWallpaper r w :
  effects (applyWallpaper r w) = effects w ++ wallpaperWrites r (registry w).
Proof.
  unfold applyWallpaper, wallpaperWrites.
  destruct (truthyOpt _); [|done].
  destruct (getWallpaperById _ _); [done|]. by rewrite app_nil_r.
Qed.

Lemma internals_applyWallpaper r w : internals (applyWallpaper r w) = internals w.
Proof.
  unfold applyWallpaper.
  destruct (truthyOpt _); [|done]. by destruct (getWallpaperById _ _).
Qed.

Lemma glassMode_applyWallpaper r w : glassMode (applyWallpaper r w) = glassMode w.
Proof.
  unfold applyWallpaper.
  destruct (truthyOpt _); [|done]. by destruct (getWallpaperById _ _).
Qed.

Lemma rootStyle_applyWallpaper r w : rootStyle (applyWallpaper r w) = rootStyle w.
Proof.
  unfold applyWallpaper.
  destruct (truthyOpt _); [|done]. by destruct (getWallpaperById _ _).
Qed.

Lemma internals_applyFound r t w : internals (applyFound r t w) = internals w.
Proof.
  unfold applyFound.
  rewrite internals_applyWallpaper.
  change (internals (writeVariables (effectiveThemeOf (isPremiumThemeId r) t)
                       (setGlassMode (isPremiumThemeId r) w)) = internals w).
  by rewrite internals_writeVariables.
Qed.

Lemma variableWrites_not_glass e :
  Forall (λ x, isSetGlassMode x = false) (variableWrites e).
Proof.
  unfold variableWrites.
  destruct (truthy (EffectiveTheme.secondaryColor e)); repeat constructor.
Qed.

Lemma wallpaperWrites_not_glass r reg :
  Forall (λ x, isSetGlassMode x = false) (wallpaperWrites r reg).
Proof.
  unfold wallpaperWrites.
  destruct (truthyOpt _); [|repeat constructor].
  destruct (getWallpaperById _ _); repeat constructor.
Qed.

(** C10. When the theme is found, [applyTheme] sets the glass-mode
    preference to [isPremiumThemeId] of the alias-resolved id, and does
    so first: the effects of the call start with it, the writes of the
    presentation variables follow, and nothing later sets the
    preference again. *)
Theorem applyTheme_sets_glass_mode_first themeId w theme :
  lookupMap w !! resolveThemeId themeId = Some theme →
  let resolved := resolveThemeId themeId in
  let w' := applyTheme themeId w in
  glassMode w' = isPremiumThemeId resolved
  ∧ ∃ later,
      effects w' = effects w ++ SetGlassMode (isPremiumThemeId resolved) :: later
      ∧ Forall (λ e, isSetGlassMode e = false) later
      ∧ filter (λ e, isSetProperty e = true) later
        = variableWrites (effectiveThemeOf (isPremiumThemeId resolved) theme).
Proof.
  intros Hsome. cbv zeta. rewrite applyTheme_unfold, Hsome.
  destruct (visible_inv _ _ (visible_lookupWorld w)) as (_ & _ & _ & _ & He).
  unfold applyFound. split.
  - by rewrite glassMode_applyWallpaper, glassMode_setAttribute,
      glassMode_writeVariables.
  - set (b := isPremiumThemeId (resolveThemeId themeId)).
    set (eff := effectiveThemeOf b theme).
    exists (variableWrites eff
            ++ [SetAttribute "data-theme" (resolveThemeId themeId)]
            ++ wallpaperWrites (resolveThemeId themeId) (registry (lookupWorld w))).
    split; [|split].
    + rewrite effects_applyWallpaper, registry_setAttribute,
        registry_writeVariables, effects_setAttribute, effects_writeVariables.
      simpl. rewrite He. repeat rewrite <- app_assoc. reflexivity.
    + apply Forall_app. split; [apply variableWrites_not_glass|].
      apply Forall_cons. split; [done|]. apply wallpaperWrites_not_glass.
    + rewrite !filter_app, filter_cons_False, filter_nil by (simpl; congruence).
      assert (filter (λ e, isSetProperty e = true)
                (wallpaperWrites (resolveThemeId themeId) (registry (lookupWorld w)))
              = []) as ->.
      { unfold wallpaperWrites. destruct (truthyOpt _); [|done].
        by destruct (getWallpaperById _ _). }
      rewrite !app_nil_r. unfold variableWrites.
      destruct (truthy (EffectiveTheme.secondaryColor eff)); reflexivity.
Qed.

(** *** The map objects *)

Lemma wellKeyedMap_mapAt loc w : wellKeyed w → wellKeyedMap (mapAt loc w).
Proof.
  intros Hw. unfold mapAt.
  destruct (maps w !! loc) as [m|] eqn:Hm; simpl.
  - eapply Forall_lookup_1; eauto.
  - intros k t. by rewrite lookup_empty.
Qed.

Lemma wellKeyedMap_insert (m : gmap string Theme.t) t :
  wellKeyedMap m → wellKeyedMap (<[Theme.id t := t]> m).
Proof.
  intros Hm k t'. rewrite lookup_insert. case_decide; [|by apply Hm].
  intros [= <-]. done.
Qed.

Lemma wellKeyedMap_delete (m : gmap string Theme.t) k :
  wellKeyedMap m → wellKeyedMap (delete k m).
Proof.
  intros Hm k' t'. rewrite lookup_delete. case_decide; [done|by apply Hm].
Qed.

Lemma wellKeyedMap_foldl {A} (f : A → Theme.t) (l : list A) :
  ∀ m : gmap string Theme.t,
    wellKeyedMap m →
    wellKeyedMap (foldl (λ m x, <[Theme.id (f x) := f x]> m) m l).
Proof.
  induction l as [|x l IH]; intros m Hm; simpl; [done|].
  apply IH. by apply wellKeyedMap_insert.
Qed.

Lemma wellKeyedMap_builtin : wellKeyedMap builtinThemeMap.
Proof.
  unfold builtinThemeMap.
  assert (∀ (gs : list ThemeGroup.t) (m : gmap string Theme.t),
             wellKeyedMap m →
             wellKeyedMap
               (foldl (λ m group,
                         foldl (λ m theme, <[Theme.id theme := theme]> m) m
                           (ThemeGroup.themes group)) m gs)) as Hgen.
  { induction gs as [|g gs IH]; intros m Hm; simpl; [done|].
    apply IH. by apply (wellKeyedMap_foldl (λ t, t)). }
  apply Hgen. intros k t. by rewrite lookup_empty.
Qed.

Lemma evolves_refl S loc w : evolves S loc w w.
Proof. repeat split; auto. Qed.

Lemma evolves_trans S loc w1 w2 w3 :
  evolves S loc w1 w2 → evolves S loc w2 w3 → evolves S loc w1 w3.
Proof.
  intros (Hc1 & Hk1 & Hd1) (Hc2 & Hk2 & Hd2). repeat split.
  - congruence.
  - auto.
  - intros k Hk. destruct (Hd2 k Hk) as [Hk'|]; auto.
Qed.

Lemma mapAt_insert loc (m : gmap string Theme.t) w :
  mapAt loc (withMaps (λ h, <[loc := m]> h) w)
  = if decide (loc < length (maps w)) then m else mapAt loc w.
Proof.
  unfold mapAt. simpl. case_decide.
  - by rewrite list_lookup_insert_eq.
  - by rewrite list_insert_ge by lia.
Qed.

Lemma evolves_mapSet (S : string → Prop) loc k v w :
  Theme.id v = k → S k → evolves S loc w (mapSet loc k v w).
Proof.
  intros Hid HS. repeat split.
  - intros Hw. unfold wellKeyed, mapSet. simpl.
    apply Forall_insert; [done|]. subst k.
    by apply wellKeyedMap_insert, wellKeyedMap_mapAt.
  - intros k'. unfold mapSet. rewrite mapAt_insert.
    case_decide; [|by left].
    rewrite lookup_insert. case_decide; [subst; by right|by left].
Qed.

Lemma evolves_mapDelete (S : string → Prop) loc k w :
  evolves S loc w (mapDelete loc k w).
Proof.
  repeat split.
  - intros Hw. unfold wellKeyed, mapDelete. simpl.
    apply Forall_insert; [done|].
    by apply wellKeyedMap_delete, wellKeyedMap_mapAt.
  - intros k'. unfold mapDelete. rewrite mapAt_insert.
    case_decide; [|by left].
    rewrite lookup_delete. case_decide; [by intros [? [=]]|by left].
Qed.

Lemma evolves_withRegistry (S : string → Prop) loc f w :
  evolves S loc w (withRegistry f w).
Proof. repeat split; auto. Qed.

Lemma evolves_foldl {A} (S : string → Prop) loc (f : World R → A → World R)
    (l : list A) :
  (∀ w x, x ∈ l → evolves S loc w (f w x)) →
  ∀ w, evolves S loc w (foldl f w l).
Proof.
  induction l as [|x l IH]; intros Hf w; simpl; [apply evolves_refl|].
  eapply evolves_trans; [apply Hf; left|].
  apply IH. intros w' y Hy. apply Hf. by right.
Qed.

Lemma evolves_weaken (S S' : string → Prop) loc w w' :
  (∀ k, S k → S' k) → evolves S loc w w' → evolves S' loc w w'.
Proof.
  intros HS (Hc & Hk & Hd). repeat split; auto.
  intros k Hk'. destruct (Hd k Hk'); auto.
Qed.

Lemma evolves_setAllTemplates loc ts w :
  evolves (λ k, k ∈ map ThemeTemplate.id ts) loc w (setAllTemplates loc ts w).
Proof.
  apply evolves_foldl. intros w' t Ht.
  apply evolves_mapSet; [done|]. by apply list_elem_of_fmap_2.
Qed.

Lemma evolves_removeOne (S : string → Prop) loc ids w key :
  evolves S loc w (removeOne loc ids w key).
Proof.
  unfold removeOne. destruct (isStale ids key); [|apply evolves_refl].
  eapply evolves_trans; [apply evolves_mapDelete|apply evolves_withRegistry].
Qed.

Lemma evolves_registerOne loc urls (ws : list CustomWallpaper.t) w wp :
  wp ∈ ws →
  evolves (λ k, k ∈ map CustomWallpaper.id ws) loc w (registerOne loc urls w wp).
Proof.
  intros Hwp. unfold registerOne.
  eapply evolves_trans; [apply evolves_withRegistry|].
  apply evolves_mapSet; [done|]. by apply list_elem_of_fmap_2.
Qed.

(** [syncCustomWallpapers] when the map is there. *)
Lemma evolves_syncCustomWallpapers loc w :
  _themeMap w = Some loc →
  evolves (λ k, k ∈ map CustomWallpaper.id (wallpapers w)) loc w
    (syncCustomWallpapers w).
Proof.
  intros Hloc. unfold syncCustomWallpapers, getThemeMap. rewrite Hloc. cbv zeta.
  eapply evolves_trans;
    [|apply evolves_foldl; intros; by apply evolves_registerOne].
  apply evolves_foldl. intros. apply evolves_removeOne.
Qed.

Lemma control_inv w w' :
  control w' = control w →
  _themeMap w' = _themeMap w
  ∧ _customThemesLoaded w' = _customThemesLoaded w
  ∧ listenerThemeMap w' = listenerThemeMap w
  ∧ customThemes w' = customThemes w
  ∧ wallpapers w' = wallpapers w
  ∧ objectUrls w' = objectUrls w.
Proof. unfold control. intros [= -> -> -> -> -> ->]. done. Qed.

(** [getThemeMap] returns the address in [_themeMap], which it fills
    with a map of the built-in themes when it was empty. *)
Lemma getThemeMap_spec w :
  ∃ loc w',
    getThemeMap w = (loc, w')
    ∧ _themeMap w' = Some loc
    ∧ _customThemesLoaded w' = _customThemesLoaded w
    ∧ listenerThemeMap w' = listenerThemeMap w
    ∧ customThemes w' = customThemes w
    ∧ wallpapers w' = wallpapers w
    ∧ (wellKeyed w → wellKeyed w')
    ∧ match _themeMap w with
      | Some l => loc = l ∧ w' = w
      | None => mapAt loc w' = builtinThemeMap
      end.
Proof.
  unfold getThemeMap. destruct (_themeMap w) as [l|] eqn:Hl.
  - exists l, w. repeat split; auto.
  - eexists _, _. split; [reflexivity|]. repeat split; simpl.
    + intros Hw. unfold wellKeyed. simpl. apply Forall_app. split; [done|].
      apply Forall_singleton, wellKeyedMap_builtin.
    + unfold mapAt. simpl. by rewrite lookup_app_r, Nat.sub_diag by lia.
Qed.

Lemma getThemeMap_idem w :
  getThemeMap (getThemeMap w).2 = ((getThemeMap w).1, (getThemeMap w).2).
Proof.
  destruct (getThemeMap_spec w) as (loc & w' & -> & Hloc & _). simpl.
  unfold getThemeMap. by rewrite Hloc.
Qed.

Lemma syncCustomWallpapers_getThemeMap w :
  syncCustomWallpapers w = syncCustomWallpapers (getThemeMap w).2.
Proof.
  unfold syncCustomWallpapers at 2. rewrite getThemeMap_idem.
  unfold syncCustomWallpapers. by destruct (getThemeMap w).
Qed.

(** The first [ensureCustomThemesLoaded]: it leaves a map whose keys
    are built-in ids, ids of the custom themes, or ids of the custom
    wallpapers, and the listeners hold that map. *)
Lemma ensureCustomThemesLoaded_first w :
  _customThemesLoaded w = false →
  ∃ loc,
    let w' := ensureCustomThemesLoaded w in
    _themeMap w' = Some loc
    ∧ _customThemesLoaded w' = true
    ∧ listenerThemeMap w' = Some loc
    ∧ customThemes w' = customThemes w
    ∧ wallpapers w' = wallpapers w
    ∧ (wellKeyed w → wellKeyed w')
    ∧ (_themeMap w = None →
       ∀ k, is_Some (mapAt loc w' !! k) →
            is_Some (builtinThemeMap !! k)
            ∨ k ∈ map ThemeTemplate.id (customThemes w)
            ∨ k ∈ map CustomWallpaper.id (wallpapers w)).
Proof.
  intros Hl. unfold ensureCustomThemesLoaded. rewrite Hl.
  destruct (getThemeMap_spec (withLoaded true w))
    as (loc & w2 & -> & Hloc & Hld & Hls & Hct & Hwp & Hwk & Hmap).
  simpl in Hld, Hls, Hct, Hwp, Hmap.
  exists loc. cbv zeta.
  set (w3 := setAllTemplates loc (customThemes w2) w2).
  set (w4 := withListener (Some loc) w3).
  destruct (evolves_setAllTemplates loc (customThemes w2) w2) as (Hc3 & Hk3 & Hd3).
  fold w3 in Hc3, Hk3, Hd3.
  destruct (control_inv _ _ Hc3) as (Ht3 & Hl3 & Hs3 & Hct3 & Hwp3 & _).
  assert (_themeMap w4 = Some loc) as Hloc4 by (simpl; congruence).
  destruct (evolves_syncCustomWallpapers loc w4 Hloc4) as (Hc5 & Hk5 & Hd5).
  destruct (control_inv _ _ Hc5) as (Ht5 & Hl5 & Hs5 & Hct5 & Hwp5 & _).
  repeat split.
  - congruence.
  - rewrite Hl5. simpl. congruence.
  - rewrite Hs5. done.
  - rewrite Hct5. simpl. congruence.
  - rewrite Hwp5. simpl. congruence.
  - intros Hw. apply Hk5. unfold w4, wellKeyed. simpl. apply Hk3, Hwk, Hw.
  - intros Hnone k Hk. rewrite Hnone in Hmap.
    destruct (Hd5 k Hk) as [Hk4|Hk4].
    + change (mapAt loc w4) with (mapAt loc w3) in Hk4.
      destruct (Hd3 k Hk4) as [Hk2|Hk2].
      * left. by rewrite <- Hmap.
      * right; left. by rewrite <- Hct.
    + right; right. simpl in Hk4. rewrite Hwp3, Hwp in Hk4. done.
Qed.

Lemma consistent_internals w w' :
  internals w' = internals w → consistent w → consistent w'.
Proof.
  unfold internals, consistent, wellKeyed.
  intros [= -> -> -> -> _ _ _ _]. done.
Qed.

Lemma consistent_ensureCustomThemesLoaded w :
  consistent w →
  consistent (ensureCustomThemesLoaded w)
  ∧ _customThemesLoaded (ensureCustomThemesLoaded w) = true.
Proof.
  intros Hc. pose proof Hc as (Hwk & Hf & Ht).
  destruct (_customThemesLoaded w) eqn:Hl.
  - unfold ensureCustomThemesLoaded. rewrite Hl. done.
  - destruct (ensureCustomThemesLoaded_first w Hl)
      as (loc & Hloc & Hld & Hls & _ & _ & Hk & _).
    unfold consistent. rewrite Hld, Hls, Hloc.
    split_and!; eauto; congruence.
Qed.

Lemma consistent_getThemeMap w :
  consistent w → _customThemesLoaded w = true → consistent (getThemeMap w).2.
Proof.
  intros (Hwk & Hf & Ht) Hl.
  destruct (getThemeMap_spec w) as (loc & w' & -> & Hloc & Hld & Hls & _ & _ & Hk & _).
  unfold consistent. simpl. rewrite Hld, Hls, Hl.
  split_and!; eauto; congruence.
Qed.

Lemma consistent_lookupWorld w : consistent w → consistent (lookupWorld w).
Proof.
  intros Hc. destruct (consistent_ensureCustomThemesLoaded w Hc) as [Hc' Hl].
  by apply consistent_getThemeMap.
Qed.

Lemma internals_applyTheme themeId w :
  internals (applyTheme themeId w) = internals (lookupWorld w).
Proof.
  rewrite applyTheme_unfold.
  destruct (lookupMap w !! resolveThemeId themeId); [|done].
  apply internals_applyFound.
Qed.

Lemma getTheme_world themeId w : (getTheme themeId w).2 = lookupWorld w.
Proof.
  unfold getTheme, lookupWorld.
  by destruct (getThemeMap (ensureCustomThemesLoaded w)).
Qed.

Lemma consistent_perform a w : consistent w → consistent (perform a w).
Proof.
  intros Hc. destruct a as [themeId|theme|themeId|ts|ws urls]; simpl.
  - eapply consistent_internals; [apply internals_applyTheme|].
    by apply consistent_lookupWorld.
  - eapply consistent_internals; [|exact Hc].
    unfold applyThemeObject. apply internals_writeVariables.
  - rewrite getTheme_world. by apply consistent_lookupWorld.
  - destruct Hc as (Hwk & Hf & Ht).
    unfold setCustomThemes. simpl.
    destruct (listenerThemeMap w) as [loc|] eqn:Hls;
      [|unfold consistent, wellKeyed; simpl; rewrite ?Hls; by split_and!].
    unfold onCustomThemesChange.
    destruct (evolves_setAllTemplates loc ts (withCustomThemes ts w))
      as (Hc3 & Hk3 & _).
    destruct (control_inv _ _ Hc3) as (_ & Hl3 & Hs3 & _).
    simpl in Hl3, Hs3. unfold consistent. simpl. rewrite Hl3, Hs3, Hls.
    split_and!; [by apply Hk3| |by eauto].
    intros Hfalse. destruct (Hf Hfalse). congruence.
  - destruct Hc as (Hwk & Hf & Ht).
    unfold setCustomWallpapers. simpl.
    destruct (listenerThemeMap w) as [loc0|] eqn:Hls;
      [|unfold consistent, wellKeyed; simpl; rewrite ?Hls; by split_and!].
    unfold onCustomWallpapersChange.
    rewrite syncCustomWallpapers_getThemeMap.
    destruct (getThemeMap_spec (withWallpapers ws urls w))
      as (loc & w2 & Hg & Hloc & Hld & Hls2 & _ & _ & Hk2 & _).
    rewrite Hg. simpl in *.
    destruct (evolves_syncCustomWallpapers loc w2 Hloc) as (Hc3 & Hk3 & _).
    destruct (control_inv _ _ Hc3) as (_ & Hl3 & Hs3 & _).
    unfold consistent. simpl. rewrite Hl3, Hs3, Hld, Hls2, Hls.
    split_and!; [by apply Hk3, Hk2| |by eauto].
    intros Hfalse. destruct (Hf Hfalse). congruence.
Qed.

Lemma consistent_justLoaded w : justLoaded w → consistent w.
Proof.
  intros (Hm & Ht & Hl & Hs). split_and!; auto.
  - unfold wellKeyed. rewrite Hm. constructor.
  - congruence.
Qed.

Lemma reachable_consistent w : reachable w → consistent w.
Proof.
  induction 1 as [w Hw|a w _ IH].
  - by apply consistent_justLoaded.
  - by apply consistent_perform.
Qed.

Lemma lookupMap_mapAt w :
  ∃ loc, _themeMap (lookupWorld w) = Some loc
         ∧ lookupMap w = mapAt loc (lookupWorld w).
Proof.
  unfold lookupMap, lookupWorld.
  destruct (getThemeMap_spec (ensureCustomThemesLoaded w))
    as (loc & w' & -> & Hloc & _).
  exists loc. done.
Qed.

Lemma wellKeyedMap_lookupMap w : consistent w → wellKeyedMap (lookupMap w).
Proof.
  intros Hc. destruct (lookupMap_mapAt w) as (loc & _ & ->).
  apply wellKeyedMap_mapAt. by destruct (consistent_lookupWorld w Hc).
Qed.

(** *** The presentation variables *)

Lemma truthy_false s : truthy s = false → s = EmptyString.
Proof.
  unfold truthy. intros Hs. apply String.eqb_eq. by destruct (String.eqb s _).
Qed.

Lemma getPropertyValue_setProperty n n' v w :
  getPropertyValue n (setProperty n' v w)
  = if decide (n' = n) then v else getPropertyValue n w.
Proof.
  unfold getPropertyValue. simpl.
  destruct (truthy v) eqn:Hv.
  - rewrite lookup_insert. by case_decide.
  - rewrite lookup_delete. case_decide; [|done].
    by rewrite (truthy_false v Hv).
Qed.

Lemma variablesRead_rootStyle w w' :
  rootStyle w' = rootStyle w → variablesRead w' = variablesRead w.
Proof. unfold variablesRead, getPropertyValue. by intros ->. Qed.

(** After [writeVariables] the variables read as what was written, the
    secondary pair only when the secondary colour is truthy. *)
Lemma variablesRead_writeVariables e w :
  variablesRead (writeVariables e w)
  = if truthy (EffectiveTheme.secondaryColor e) then e
    else keepSecondary (variablesRead w) e.
Proof.
  unfold writeVariables, variablesRead, keepSecondary.
  destruct e as [bg card border main mainAcc sec secAcc]. simpl.
  destruct (truthy sec); rewrite !getPropertyValue_setProperty;
    repeat (case_decide; try congruence); reflexivity.
Qed.

Lemma variablesRead_applyFound r t w :
  variablesRead (applyFound r t w)
  = let e := effectiveThemeOf (isPremiumThemeId r) t in
    if truthy (EffectiveTheme.secondaryColor e) then e
    else keepSecondary (variablesRead w) e.
Proof.
  unfold applyFound.
  rewrite (variablesRead_rootStyle _ _ (rootStyle_applyWallpaper _ _)).
  rewrite (variablesRead_rootStyle _ _ (rootStyle_setAttribute _ _ _)).
  by rewrite variablesRead_writeVariables.
Qed.

Lemma resolveThemeId_cases themeId :
  resolveThemeId themeId
  = if String.eqb themeId "neon-city-glass" then "neon-city" else themeId.
Proof.
  unfold resolveThemeId, legacyThemeAliases, assocGet.
  rewrite (String.eqb_sym "neon-city-glass" themeId).
  by destruct (String.eqb themeId "neon-city-glass").
Qed.

Lemma resolveThemeId_idem themeId :
  resolveThemeId (resolveThemeId themeId) = resolveThemeId themeId.
Proof.
  rewrite (resolveThemeId_cases themeId).
  destruct (String.eqb themeId "neon-city-glass") eqn:He; [done|].
  by rewrite resolveThemeId_cases, He.
Qed.

Lemma isPremiumThemeId_resolved themeId :
  isPremiumThemeId (resolveThemeId themeId) = isPremiumThemeId themeId.
Proof. unfold isPremiumThemeId. by rewrite resolveThemeId_idem. Qed.

(** C3, as the code has it. For a theme found in the map of a run:
    when the resolved id is premium the seven variables read as the
    fixed premium values, whatever the theme's palette; when it is not,
    they read as the theme's own colours, except that an empty
    secondary colour leaves the secondary colour and its accent as they
    were. *)
Theorem applyTheme_writes_variables themeId w theme :
  reachable w →
  lookupMap w !! resolveThemeId themeId = Some theme →
  variablesRead (applyTheme themeId w)
  = if isPremiumThemeId (resolveThemeId themeId) then getPremiumThemeVariables
    else if truthy (Theme.secondaryColor theme) then ownColors theme
    else keepSecondary (variablesRead w) (ownColors theme).
Proof.
  intros Hreach Hsome.
  rewrite applyTheme_unfold, Hsome, variablesRead_applyFound. cbv zeta.
  rewrite (variablesRead_rootStyle (lookupWorld w) w)
    by (by destruct (visible_inv _ _ (visible_lookupWorld w)) as (_ & -> & _)).
  destruct (isPremiumThemeId (resolveThemeId themeId)) eqn:Hp; [done|].
  assert (Theme.id theme = resolveThemeId themeId) as Hid.
  { eapply wellKeyedMap_lookupMap; [|exact Hsome]. by apply reachable_consistent. }
  assert (effectiveThemeOf false theme = ownColors theme) as ->; [|done].
  unfold effectiveThemeOf, ownColors, getModifiedCardColor, getModifiedBorderColor.
  by rewrite Hid, Hp.
Qed.

(** *** The wallpaper *)

Lemma bodyStyle_applyFound r t w :
  bodyStyle (applyFound r t w)
  = let declared := getThemeDefaultWallpaperId r in
    if truthyOpt declared then
      match getWallpaperById (registry w) (default EmptyString declared) with
      | Some wallpaper => wallpaperBodyStyle wallpaper
      | None => bodyStyle w
      end
    else BodyStyle.cleared.
Proof.
  unfold applyFound, applyWallpaper. cbv zeta.
  rewrite registry_setAttribute, registry_writeVariables.
  destruct (truthyOpt _); [|done].
  change (registry (setGlassMode ?b w)) with (registry w).
  destruct (getWallpaperById _ _); [done|].
  by rewrite bodyStyle_setAttribute, bodyStyle_writeVariables.
Qed.

Lemma wallpaperBackgroundImage_truthy wallpaper :
  truthy (wallpaperBackgroundImage wallpaper) = true.
Proof.
  unfold wallpaperBackgroundImage.
  by destruct (truthy (Wallpaper.urlWebp wallpaper)).
Qed.

(** C4, as the code has it. For a theme found in the map: when the
    resolved theme declares no wallpaper the wallpaper properties of
    the body are cleared; when it declares one that the wallpaper
    registry knows, they are set from it, with a background image that
    is not empty; when it declares one the registry does not know,
    they stay as they were. *)
Theorem applyTheme_wallpaper themeId w theme :
  lookupMap w !! resolveThemeId themeId = Some theme →
  let declared := getThemeDefaultWallpaperId (resolveThemeId themeId) in
  bodyStyle (applyTheme themeId w)
  = (if truthyOpt declared then
       match getWallpaperById (registry (lookupWorld w))
               (default EmptyString declared) with
       | Some wallpaper => wallpaperBodyStyle wallpaper
       | None => bodyStyle w
       end
     else BodyStyle.cleared)
  ∧ ∀ wallpaper,
      truthy (BodyStyle.backgroundImage (wallpaperBodyStyle wallpaper)) = true.
Proof.
  intros Hsome. cbv zeta. split; [|apply wallpaperBackgroundImage_truthy].
  rewrite applyTheme_unfold, Hsome, bodyStyle_applyFound. cbv zeta.
  by destruct (visible_inv _ _ (visible_lookupWorld w)) as (_ & _ & _ & -> & _).
Qed.

(** *** Premium ids *)

Lemma includes_elem_of (l : list string) s : includes l s = true ↔ s ∈ l.
Proof.
  unfold includes. rewrite existsb_exists, list_elem_of_In. split.
  - intros (x & Hx & He). apply String.eqb_eq in He. by subst.
  - intros Hs. exists s. split; [done|]. apply String.eqb_refl.
Qed.

(** C6, as the code has it. [isPremiumThemeId] answers for the
    alias-resolved id: it is true exactly when that id, which is
    "neon-city" for the legacy alias "neon-city-glass" and the id
    itself otherwise, is in the static premium set or starts with
    "custom-". *)
Theorem isPremiumThemeId_iff themeId :
  isPremiumThemeId themeId = true
  ↔ let resolved :=
      if String.eqb themeId "neon-city-glass" then "neon-city" else themeId in
    resolved ∈ premiumThemeIds ∨ String.prefix "custom-" resolved = true.
Proof.
  unfold isPremiumThemeId. cbv zeta. rewrite resolveThemeId_cases.
  rewrite orb_true_iff, includes_elem_of. done.
Qed.

(** *** Colour derivation *)

(** C5. The derived colours of [buildTheme] are a function of the base
    colours and the light flag: two bases that agree on background,
    main and secondary colour, built with the same flag, get the same
    card colour, border colour and accents. *)
Theorem buildTheme_deterministic base1 base2 isLight1 isLight2 :
  BaseTheme.backgroundColor base1 = BaseTheme.backgroundColor base2 →
  BaseTheme.mainColor base1 = BaseTheme.mainColor base2 →
  BaseTheme.secondaryColor base1 = BaseTheme.secondaryColor base2 →
  isLight1 = isLight2 →
  Theme.cardColor (buildTheme base1 isLight1)
  = Theme.cardColor (buildTheme base2 isLight2)
  ∧ Theme.borderColor (buildTheme base1 isLight1)
    = Theme.borderColor (buildTheme base2 isLight2)
  ∧ Theme.mainColorAccent (buildTheme base1 isLight1)
    = Theme.mainColorAccent (buildTheme base2 isLight2)
  ∧ Theme.secondaryColorAccent (buildTheme base1 isLight1)
    = Theme.secondaryColorAccent (buildTheme base2 isLight2).
Proof.
  intros Hbg Hmain Hsec ->. unfold buildTheme. simpl.
  by rewrite Hbg, Hmain, Hsec.
Qed.

(** *** The cache *)



(** Once the listeners are there, an emptied [_themeMap] is rebuilt
    from the built-in themes alone. *)
Lemma lookupMap_rebuilt w :
  _customThemesLoaded w = true → _themeMap w = None →
  lookupMap w = builtinThemeMap.
Proof.
  intros Hl Hnone. unfold lookupMap, ensureCustomThemesLoaded. rewrite Hl.
  destruct (getThemeMap_spec w) as (loc & w' & -> & _ & _ & _ & _ & _ & _ & Hm).
  by rewrite Hnone in Hm.
Qed.


Lemma mutation_clears_themeMap a w :
  consistent w → isMutation a = true → _themeMap (perform a w) = None.
Proof.
  intros (_ & Hf & Ht) Ha.
  assert (listenerThemeMap w = None → _themeMap w = None) as Hnone.
  { intros Hls. destruct (_customThemesLoaded w).
    - destruct Ht as [? Hsome]; [done|]. congruence.
    - by destruct Hf. }
  destruct a as [| | |ts|ws urls]; try discriminate; simpl.
  - unfold setCustomThemes. simpl.
    destruct (listenerThemeMap w); [done|]. by apply Hnone.
  - unfold setCustomWallpapers. simpl.
    destruct (listenerThemeMap w); [done|]. by apply Hnone.
Qed.

End ThemeProperties.

(** ** The theme engine on the sample data *)

Section ThemeExamples.
Import Sample.

Lemma world0_justLoaded ts ws : justLoaded (world0 ts ws).
Proof. by repeat split. Qed.

(** An unknown id on a fresh module: nothing but the console message. *)
Lemma applyTheme_unknown_is_noop_witness :
  lookupMap (world0 [sunset] [beach]) !! resolveThemeId "no-such-theme" = None
  ∧ let w := world0 [sunset] [beach] in
    let w' := applyTheme "no-such-theme" w in
    rootStyle w' = rootStyle w
    ∧ rootAttrs w' = rootAttrs w
    ∧ bodyStyle w' = bodyStyle w
    ∧ glassMode w' = glassMode w
    ∧ effects w' =
        effects w
        ++ [ConsoleError
              ("Theme " +:+ dquote +:+ "no-such-theme" +:+ dquote +:+ " not found")].
Proof.
  split; [by vm_compute|].
  apply (applyTheme_unknown_is_noop "no-such-theme" (world0 [sunset] [beach])).
  by vm_compute.
Defined.

(** Before the removal "sunset" is found, after it it is not. *)
Example getTheme_sunset_removed :
  let w := perform (DoGetTheme "sunset") (world0 [sunset] [beach]) in
  (getTheme "sunset" w).1 = Some (buildThemeFromTemplate sunset)
  ∧ (getTheme "sunset" (perform (DoSetCustomThemes []) w)).1 = None.
Proof. by vm_compute. Qed.

(** After any mutation the rebuilt map holds the built-in themes only:
    the wallpaper theme that is still in its store is not found
    either. *)
Example getTheme_after_mutation_builtin_only :
  let w := perform (DoGetTheme "sunset") (world0 [sunset] [beach]) in
  let w' := perform (DoSetCustomThemes []) w in
  wallpapers w' = [beach]
  ∧ (getTheme "custom-beach" w).1 = Some (buildCustomWallpaperTheme "custom-beach")
  ∧ (getTheme "custom-beach" w').1 = None.
Proof. by vm_compute. Qed.

(** C3 fails as stated. A premium id that is not in the map gets no
    variable written; and a known theme that is not premium and has an
    empty secondary colour leaves the secondary colour and its accent
    of the theme before it. *)
Lemma applyTheme_writes_variables_counterexample :
  (isPremiumThemeId "custom-gone" = true
   ∧ (variablesRead (applyTheme "custom-gone" (world0 [] []))
      ≠ getPremiumThemeVariables))
  ∧ let w := applyTheme "paper" (world0 [] []) in
    let w' := applyTheme "mono" w in
    isPremiumThemeId "mono" = false
    ∧ lookupMap w !! resolveThemeId "mono" = Some (buildTheme mono false)
    ∧ EffectiveTheme.secondaryColor (variablesRead w') = "oklch(45% 0 0)"
    ∧ Theme.secondaryColor (buildTheme mono false) = EmptyString
    ∧ (EffectiveTheme.secondaryColorAccent (variablesRead w')
       ≠ Theme.secondaryColorAccent (buildTheme mono false)).
Proof.
  split_and!; try by vm_compute.
Qed.

(** The premium theme "neon-city" on a fresh module. *)
Lemma applyTheme_writes_variables_witness :
  let w := world0 [sunset] [beach] in
  reachable w
  ∧ lookupMap w !! resolveThemeId "neon-city" = Some (buildTheme neonCity false)
  ∧ variablesRead (applyTheme "neon-city" w)
    = if isPremiumThemeId (resolveThemeId "neon-city") then getPremiumThemeVariables
      else if truthy (Theme.secondaryColor (buildTheme neonCity false))
           then ownColors (buildTheme neonCity false)
           else keepSecondary (variablesRead w) (ownColors (buildTheme neonCity false)).
Proof.
  assert (reachable (world0 [sunset] [beach])) as Hr.
  { apply reachable_start, world0_justLoaded. }
  split; [exact Hr|]. split; [by vm_compute|].
  apply (applyTheme_writes_variables "neon-city" (world0 [sunset] [beach])
           (buildTheme neonCity false) Hr).
  by vm_compute.
Defined.

(** C4 fails as stated. "neon-city" is known and declares a wallpaper
    that the registry does not know: applied after the wallpaper theme
    "custom-beach", it leaves the body with the image of that theme,
    neither set from its own wallpaper nor cleared. *)
Lemma applyTheme_wallpaper_counterexample :
  let w := applyTheme "custom-beach" (world0 [] [beach]) in
  let w' := applyTheme "neon-city" w in
  lookupMap w !! resolveThemeId "neon-city" = Some (buildTheme neonCity false)
  ∧ getThemeDefaultWallpaperId (resolveThemeId "neon-city")
    = Some "neon-city-wallpaper"
  ∧ getWallpaperById (registry w') "neon-city-wallpaper" = None
  ∧ bodyStyle w' = bodyStyle w
  ∧ BodyStyle.backgroundImage (bodyStyle w')
    = "url('data:image/webp;base64,AAAA')".
Proof.
  split_and!; by vm_compute.
Qed.

(** The wallpaper theme "custom-beach" on a fresh module. *)
Lemma applyTheme_wallpaper_witness :
  let w := world0 [sunset] [beach] in
  let theme := buildCustomWallpaperTheme "custom-beach" in
  lookupMap w !! resolveThemeId "custom-beach" = Some theme
  ∧ let declared := getThemeDefaultWallpaperId (resolveThemeId "custom-beach") in
    bodyStyle (applyTheme "custom-beach" w)
    = (if truthyOpt declared then
         match getWallpaperById (registry (lookupWorld w))
                 (default EmptyString declared) with
         | Some wallpaper => wallpaperBodyStyle wallpaper
         | None => bodyStyle w
         end
       else BodyStyle.cleared)
    ∧ ∀ wallpaper,
        truthy (BodyStyle.backgroundImage (wallpaperBodyStyle wallpaper)) = true.
Proof.
  split; [by vm_compute|].
  apply (applyTheme_wallpaper "custom-beach" (world0 [sunset] [beach])
           (buildCustomWallpaperTheme "custom-beach")).
  by vm_compute.
Defined.

(** Two bases that differ in id and wallpaper only. *)
Lemma buildTheme_deterministic_witness :
  let base1 := paper in
  let base2 :=
    BaseTheme.mk "paper-copy" "oklch(97% 0 0)" "oklch(30% 0 0)" "oklch(45% 0 0)"
      (Some "some-wallpaper") in
  BaseTheme.backgroundColor base1 = BaseTheme.backgroundColor base2
  ∧ BaseTheme.mainColor base1 = BaseTheme.mainColor base2
  ∧ BaseTheme.secondaryColor base1 = BaseTheme.secondaryColor base2
  ∧ true = true
  ∧ Theme.cardColor (buildTheme base1 true) = Theme.cardColor (buildTheme base2 true)
  ∧ Theme.borderColor (buildTheme base1 true)
    = Theme.borderColor (buildTheme base2 true)
  ∧ Theme.mainColorAccent (buildTheme base1 true)
    = Theme.mainColorAccent (buildTheme base2 true)
  ∧ Theme.secondaryColorAccent (buildTheme base1 true)
    = Theme.secondaryColorAccent (buildTheme base2 true).
Proof.
  do 4 (split; [reflexivity|]).
  apply (buildTheme_deterministic paper
           (BaseTheme.mk "paper-copy" "oklch(97% 0 0)" "oklch(30% 0 0)"
              "oklch(45% 0 0)" (Some "some-wallpaper")) true true);
    reflexivity.
Defined.

(** C6 fails as stated. The legacy alias "neon-city-glass" is premium,
    because "neon-city" is, though it is itself neither in the static
    premium set nor prefixed with "custom-". *)
Lemma isPremiumThemeId_counterexample :
  isPremiumThemeId "neon-city-glass" = true
  ∧ ("neon-city-glass" ∉ premiumThemeIds)
  ∧ String.prefix "custom-" "neon-city-glass" = false.
Proof.
  split_and!; [by vm_compute| |by vm_compute].
  rewrite <- includes_elem_of. by vm_compute.
Qed.

(** The premium theme "neon-city" on a fresh module. *)
Lemma applyTheme_sets_glass_mode_first_witness :
  let w := world0 [sunset] [beach] in
  let theme := buildTheme neonCity false in
  lookupMap w !! resolveThemeId "neon-city" = Some theme
  ∧ let resolved := resolveThemeId "neon-city" in
    let w' := applyTheme "neon-city" w in
    glassMode w' = isPremiumThemeId resolved
    ∧ ∃ later,
        effects w' = effects w ++ SetGlassMode (isPremiumThemeId resolved) :: later
        ∧ Forall (λ e, isSetGlassMode e = false) later
        ∧ filter (λ e, isSetProperty e = true) later
          = variableWrites (effectiveThemeOf (isPremiumThemeId resolved) theme).
Proof.
  split; [by vm_compute|].
  apply (applyTheme_sets_glass_mode_first "neon-city" (world0 [sunset] [beach])
           (buildTheme neonCity false)).
  by vm_compute.
Defined.
End ThemeExamples.

(** * Properties of the streak calendar *)

(** ** ISO strings and calendar order *)

Lemma digitChar_compare a b :
  Ascii.compare (digitChar a) (digitChar b) = Nat.compare (a mod 10) (b mod 10).
Proof.
  unfold digitChar.
  pose proof (Nat.mod_upper_bound a 10 ltac:(lia)) as Ha.
  pose proof (Nat.mod_upper_bound b 10 ltac:(lia)) as Hb.
  generalize dependent (b mod 10). generalize dependent (a mod 10).
  intros x Hx y Hy.
  do 10 (destruct x as [|x]; [do 10 (destruct y as [|y]; [reflexivity|]); lia|]).
  lia.
Qed.

Lemma compare_String c1 s1 c2 s2 :
  String.compare (String c1 s1) (String c2 s2)
  = match Ascii.compare c1 c2 with
    | Eq => String.compare s1 s2
    | c => c
    end.
Proof. simpl. by destruct (Ascii.compare c1 c2). Qed.

Lemma append_String c s t : String c s +:+ t = String c (s +:+ t).
Proof. reflexivity. Qed.

Lemma append_EmptyString t : EmptyString +:+ t = t.
Proof. reflexivity. Qed.

Lemma append_assoc x y z : (x +:+ y) +:+ z = x +:+ (y +:+ z).
Proof.
  induction x as [|c x IH]; [done|].
  by rewrite !append_String, IH.
Qed.

(** Two-digit fields compare as the numbers they stand for. *)
Lemma compare_pad2 a b s t :
  a < 100 → b < 100 →
  String.compare (pad2 a +:+ s) (pad2 b +:+ t)
  = match Nat.compare a b with
    | Eq => String.compare s t
    | c => c
    end.
Proof.
  intros Ha Hb. unfold pad2.
  rewrite !append_String, !append_EmptyString.
  rewrite !compare_String, !digitChar_compare.
  rewrite (Nat.mod_small (a / 10)), (Nat.mod_small (b / 10))
    by (apply Nat.Div0.div_lt_upper_bound; lia).
  pose proof (Nat.div_mod_eq a 10). pose proof (Nat.div_mod_eq b 10).
  pose proof (Nat.mod_upper_bound a 10 ltac:(lia)).
  pose proof (Nat.mod_upper_bound b 10 ltac:(lia)).
  destruct (Nat.compare_spec (a / 10) (b / 10));
    destruct (Nat.compare_spec (a mod 10) (b mod 10));
    destruct (Nat.compare_spec a b); try reflexivity; lia.
Qed.

Lemma pad4_pad2 n : pad4 n = pad2 (n / 100) +:+ pad2 (n mod 100).
Proof.
  unfold pad4, pad2, digitChar. rewrite !append_String, !append_EmptyString.
  replace (n / 100 / 10) with (n / 1000)
    by (rewrite Nat.Div0.div_div; reflexivity).
  replace ((n mod 100) / 10 mod 10) with (n / 10 mod 10).
  - replace ((n mod 100) mod 10) with (n mod 10); [reflexivity|].
    pose proof (Nat.div_mod_eq n 100). pose proof (Nat.div_mod_eq n 10).
    pose proof (Nat.div_mod_eq (n mod 100) 10).
    pose proof (Nat.mod_upper_bound n 10 ltac:(lia)).
    pose proof (Nat.mod_upper_bound (n mod 100) 10 ltac:(lia)).
    lia.
  - pose proof (Nat.div_mod_eq n 100). pose proof (Nat.div_mod_eq n 10).
    pose proof (Nat.div_mod_eq (n mod 100) 10).
    pose proof (Nat.div_mod_eq (n / 10) 10).
    pose proof (Nat.div_mod_eq ((n mod 100) / 10) 10).
    pose proof (Nat.mod_upper_bound n 10 ltac:(lia)).
    pose proof (Nat.mod_upper_bound (n mod 100) 10 ltac:(lia)).
    pose proof (Nat.mod_upper_bound n 100 ltac:(lia)).
    pose proof (Nat.mod_upper_bound (n / 10) 10 ltac:(lia)).
    pose proof (Nat.mod_upper_bound ((n mod 100) / 10) 10 ltac:(lia)).
    lia.
Qed.

(** Four-digit fields compare as the numbers they stand for. *)
Lemma compare_pad4 a b s t :
  a < 100 * 100 → b < 100 * 100 →
  String.compare (pad4 a +:+ s) (pad4 b +:+ t)
  = match Nat.compare a b with
    | Eq => String.compare s t
    | c => c
    end.
Proof.
  intros Ha Hb. rewrite !pad4_pad2, !append_assoc.
  rewrite compare_pad2 by (apply Nat.Div0.div_lt_upper_bound; lia).
  rewrite compare_pad2 by (apply Nat.mod_upper_bound; lia).
  pose proof (Nat.div_mod_eq a 100). pose proof (Nat.div_mod_eq b 100).
  pose proof (Nat.mod_upper_bound a 100 ltac:(lia)).
  pose proof (Nat.mod_upper_bound b 100 ltac:(lia)).
  destruct (Nat.compare_spec (a / 100) (b / 100));
    destruct (Nat.compare_spec (a mod 100) (b mod 100));
    destruct (Nat.compare_spec a b); try reflexivity; lia.
Qed.

(** ISO strings of canonical dates compare, as strings, in calendar
    order. *)
Lemma isoFormat_ltb a b :
  canonical a → canonical b →
  String.ltb (isoFormat a) (isoFormat b) = true ↔ before a b.
Proof.
  intros (Hya & Hma & Hda) (Hyb & Hmb & Hdb).
  unfold String.ltb, isoFormat, before.
  rewrite compare_pad4 by done.
  rewrite !append_String, !append_EmptyString.
  rewrite compare_String. change (Ascii.compare "-" "-") with Eq. cbv iota.
  rewrite compare_pad2 by lia.
  rewrite compare_String. change (Ascii.compare "-" "-") with Eq. cbv iota.
  assert (∀ n, pad2 n = pad2 n +:+ EmptyString) as Hnil by reflexivity.
  rewrite (Hnil (JSDate.getDate a)), (Hnil (JSDate.getDate b)).
  rewrite compare_pad2 by lia.
  change (String.compare EmptyString EmptyString) with Eq.
  destruct (Nat.compare_spec (JSDate.getFullYear a) (JSDate.getFullYear b));
    destruct (Nat.compare_spec (S (JSDate.getMonth a)) (S (JSDate.getMonth b)));
    destruct (Nat.compare_spec (JSDate.getDate a) (JSDate.getDate b));
    split; intros Hx; try discriminate; try reflexivity; lia.
Qed.

(** ** Future cells *)

Section FutureCells.
Variable zone : TimeZone.t.
Variable formatDate : JSDate.t → string.
Variable formatInvalidDate : string.
Variable getDayOfWeek : string → nat.



End FutureCells.



(** * Properties of the streak engine *)

Lemma insertUnique_In x y l : In y (insertUnique x l) ↔ y = x ∨ In y l.
Proof.
  induction l as [|h t IH]; simpl; [intuition congruence|].
  destruct (Z.ltb_spec x h); [simpl; intuition congruence|].
  destruct (Z.eqb_spec x h); simpl; [intuition congruence|].
  rewrite IH. intuition congruence.
Qed.

Lemma insertUnique_sorted x l :
  StronglySorted Z.lt l → StronglySorted Z.lt (insertUnique x l).
Proof.
  induction 1 as [|h t Hs IH Hh]; simpl.
  - repeat constructor.
  - destruct (Z.ltb_spec x h).
    + constructor; [by constructor|]. constructor; [done|].
      eapply Forall_impl; [exact Hh|]. simpl. intros. lia.
    + destruct (Z.eqb_spec x h); [by constructor|].
      constructor; [done|]. apply Forall_forall. intros y Hy.
      apply list_elem_of_In, insertUnique_In in Hy as [->|Hy]; [lia|].
      rewrite Forall_forall in Hh. by apply Hh, list_elem_of_In.
Qed.

Lemma sortedUnique_In y l : In y (sortedUnique l) ↔ In y l.
Proof.
  induction l as [|x l IH]; simpl; [done|].
  rewrite insertUnique_In, IH. intuition congruence.
Qed.

Lemma sortedUnique_sorted l : StronglySorted Z.lt (sortedUnique l).
Proof.
  induction l as [|x l IH]; simpl; [constructor|].
  by apply insertUnique_sorted.
Qed.

Lemma scanRuns_ge_best l : ∀ prev run best, best ≤ scanRuns prev run best l.
Proof.
  induction l as [|d r IH]; intros prev run best; simpl; [done|].
  etrans; [|apply IH]. lia.
Qed.

(** The scan finds every block of consecutive days: if the days from
    [m] up to [m + k - 1] that come after [prev] are all still ahead in
    [l], the run that ends at [prev] covers the part of the block up to
    [prev], and a block that is already past is within [best], then the
    result is at least [k]. *)
Lemma scanRuns_block l :
  ∀ prev run best (m : Z) (k : nat),
    StronglySorted Z.lt (prev :: l) →
    1 ≤ run → run ≤ best →
    (∀ x, (m ≤ x < m + Z.of_nat k)%Z → (prev < x)%Z → In x l) →
    ((m ≤ prev < m + Z.of_nat k)%Z → (prev - m + 1 ≤ Z.of_nat run)%Z) →
    ((m + Z.of_nat k ≤ prev)%Z → k ≤ best) →
    k ≤ scanRuns prev run best l.
Proof.
  induction l as [|h t IH]; intros prev run best m k Hs Hrun Hbest HA HB HC.
  - simpl. destruct (decide (k = 0)) as [->|Hk]; [lia|].
    destruct (Z.lt_trichotomy prev m) as [Hlt|[Heq|Hgt]].
    + destruct (HA m); lia.
    + destruct (decide (k = 1)) as [->|Hk1]; [lia|].
      destruct (HA (m + 1)%Z); lia.
    + destruct (Z.le_gt_cases (m + Z.of_nat k) prev) as [Hle|Hin]; [auto|].
      destruct (decide (prev = m + Z.of_nat k - 1)%Z) as [Hlast|Hnot]; [lia|].
      destruct (HA (prev + 1)%Z); lia.
  - apply StronglySorted_inv in Hs as [Hs Hprev].
    pose proof Hs as Hs'. apply StronglySorted_inv in Hs' as [_ Hh].
    rewrite Forall_forall in Hprev, Hh.
    assert (prev < h)%Z as Hph by (apply Hprev; by left).
    assert (∀ x, In x (h :: t) → (h ≤ x)%Z) as Hmin.
    { intros x [->|Hx]; [lia|]. apply list_elem_of_In, Hh in Hx. lia. }
    simpl.
    set (run' := if (h =? prev + 1)%Z then S run else 1).
    assert (1 ≤ run') as Hrun' by (unfold run'; destruct (h =? prev + 1)%Z; lia).
    apply (IH h run' (Nat.max best run') m k); [done|done|lia| | |].
    + intros x Hx Hhx. destruct (HA x Hx) as [->|Hin]; [lia|lia|done].
    + intros Hin. destruct (decide (m = h)) as [->|Hne]; [lia|].
      assert (prev = h - 1)%Z as Hprev1.
      { destruct (decide (prev = h - 1)%Z) as [|Hne']; [done|].
        pose proof (Hmin (h - 1)%Z (HA (h - 1)%Z ltac:(lia) ltac:(lia))). lia. }
      unfold run'. destruct (Z.eqb_spec h (prev + 1)); [|lia].
      specialize (HB ltac:(lia)). lia.
    + intros Hle. destruct (decide (k = 0)) as [->|Hk]; [lia|].
      destruct (Z.le_gt_cases (m + Z.of_nat k) prev) as [Hpast|Hnot].
      { specialize (HC Hpast). lia. }
      destruct (Z.lt_ge_cases prev m) as [Hlt|Hge].
      { pose proof (Hmin m (HA m ltac:(lia) ltac:(lia))). lia. }
      destruct (decide (prev = m + Z.of_nat k - 1)%Z) as [Hlast|Hnl].
      { specialize (HB ltac:(lia)). lia. }
      pose proof (Hmin (prev + 1)%Z (HA (prev + 1)%Z ltac:(lia) ltac:(lia))). lia.
Qed.

(** The days [runEndingAt] counts are all there. *)
Lemma runEndingAt_block ds :
  ∀ e x, (e - Z.of_nat (runEndingAt e ds) < x ≤ e)%Z → In x ds.
Proof.
  induction ds as [|d r IH]; intros e x Hx; simpl in *; [lia|].
  destruct (Z.gtb_spec d e); [right; by apply (IH e)|].
  destruct (Z.eqb_spec d e) as [->|Hne]; [|lia].
  destruct (decide (x = e)) as [->|Hxe]; [by left|].
  right. apply (IH (e - 1)%Z). lia.
Qed.

Section StreakProperties.
Variable dayNumber : string → Z.

(** A block of visited days is never longer than the longest streak. *)
Lemma block_le_longest visits (e : Z) (k : nat) :
  (∀ x, (e - Z.of_nat k < x ≤ e)%Z → In x (visitDays dayNumber visits)) →
  k ≤ calculateLongestStreak dayNumber visits.
Proof.
  intros Hblock. unfold calculateLongestStreak.
  pose proof (sortedUnique_sorted (map dayNumber visits)) as Hs.
  fold (visitDays dayNumber visits) in Hs.
  destruct (visitDays dayNumber visits) as [|d r].
  - destruct (decide (k = 0)) as [->|Hk]; [done|]. destruct (Hblock e). lia.
  - assert (∀ x, In x (d :: r) → (d ≤ x)%Z) as Hmin.
    { apply StronglySorted_inv in Hs as [_ Hd]. rewrite Forall_forall in Hd.
      intros x [->|Hx]; [lia|]. apply list_elem_of_In, Hd in Hx. lia. }
    apply (scanRuns_block r d 1 1 (e - Z.of_nat k + 1)%Z k); [done|lia|lia| | |].
    + intros x Hx Hdx. destruct (Hblock x) as [->|Hin]; [lia|lia|done].
    + intros Hin. pose proof (Hmin _ (Hblock (e - Z.of_nat k + 1)%Z ltac:(lia))).
      lia.
    + intros Hle. destruct (decide (k = 0)) as [->|Hk]; [lia|].
      pose proof (Hmin _ (Hblock (e - Z.of_nat k + 1)%Z ltac:(lia))). lia.
Qed.

(** C9. For every list of visits and every today, the longest streak
    is at least the current streak. *)
Theorem longest_streak_ge_current today visits :
  calculateCurrentStreak dayNumber today visits
  ≤ calculateLongestStreak dayNumber visits.
Proof.
  unfold calculateCurrentStreak.
  assert (∀ e, runEndingAt e (rev (visitDays dayNumber visits))
               ≤ calculateLongestStreak dayNumber visits) as Hrun.
  { intros e. apply (block_le_longest visits e). intros x Hx.
    apply in_rev. by apply (runEndingAt_block _ e). }
  destruct (memZ (dayNumber today) _); [apply Hrun|].
  destruct (memZ (dayNumber today - 1) _); [apply Hrun|lia].
Qed.
End StreakProperties.

(** The visits of 2024-01-01 to 2024-01-05 seen on the 5th, on the day
    after, and two days after; and no visits at all. *)
Example streak_five_days :
  let visits :=
    ["2024-01-03"; "2024-01-01"; "2024-01-02"; "2024-01-05"; "2024-01-04";
     "2024-01-03"] in
  calculateCurrentStreak isoDayNumber "2024-01-05" visits = 5
  ∧ calculateCurrentStreak isoDayNumber "2024-01-06" visits = 5
  ∧ calculateCurrentStreak isoDayNumber "2024-01-07" visits = 0
  ∧ calculateLongestStreak isoDayNumber visits = 5
  ∧ calculateTotalVisits isoDayNumber visits = 5
  ∧ calculateCurrentStreak isoDayNumber "2024-01-05" [] = 0
  ∧ calculateLongestStreak isoDayNumber [] = 0.
Proof. by vm_compute. Qed.

(** A streak across the end of February of a leap year, with an older
    and longer one before it. *)
Example streak_across_months :
  let visits :=
    ["2024-02-28"; "2024-02-29"; "2024-03-01";
     "2023-12-30"; "2023-12-31"; "2024-01-01"; "2024-01-02"] in
  calculateCurrentStreak isoDayNumber "2024-03-01" visits = 3
  ∧ calculateLongestStreak isoDayNumber visits = 4.
Proof. by vm_compute. Qed.

(** * Properties of the week columns *)

Lemma slotAt_app_l (ws ws' : list (list Slot)) c r :
  c < length ws → slotAt (ws ++ ws') c r = slotAt ws c r.
Proof. intros Hc. unfold slotAt. by rewrite lookup_app_l. Qed.

Lemma slotAt_app_last (ws : list (list Slot)) w r :
  slotAt (ws ++ [w]) (length ws) r = w !! r.
Proof.
  unfold slotAt. by rewrite lookup_app_r, Nat.sub_diag by lia.
Qed.

Lemma slotAt_app_cases (ws : list (list Slot)) w c r s :
  slotAt (ws ++ [w]) c r = Some s →
  (c < length ws ∧ slotAt ws c r = Some s) ∨ (c = length ws ∧ w !! r = Some s).
Proof.
  intros Hs. destruct (Nat.lt_trichotomy c (length ws)) as [Hlt|[->|Hgt]].
  - left. by rewrite slotAt_app_l in Hs.
  - right. by rewrite slotAt_app_last in Hs.
  - unfold slotAt in Hs. rewrite lookup_ge_None_2 in Hs; [done|].
    rewrite length_app. simpl. lia.
Qed.

Lemma EMPTY_WEEK_lookup r s : EMPTY_WEEK !! r = Some s → s = SNull.
Proof.
  unfold EMPTY_WEEK. simpl.
  do 7 (destruct r as [|r]; [by intros [= <-]|]). done.
Qed.

Lemma arraySet_in_range a i v : i < length a → arraySet a i v = <[i:=v]> a.
Proof.
  intros Hi. unfold arraySet. by apply Nat.ltb_lt in Hi as ->.
Qed.

Section WeekColumns.
Variable getDayOfWeek : string → nat.

Lemma columnOf_app days rest i :
  i ≤ length days →
  columnOf getDayOfWeek (days ++ rest) i = columnOf getDayOfWeek days i.
Proof. intros Hi. unfold columnOf. by rewrite take_app_le. Qed.

Lemma columnOf_S days i d :
  days !! i = Some d →
  columnOf getDayOfWeek days (S i)
  = columnOf getDayOfWeek days i + (if getDayOfWeek d =? 6 then 1 else 0).
Proof.
  intros Hd. unfold columnOf. rewrite (take_S_r _ _ _ Hd), filter_app, length_app.
  f_equal. destruct (Nat.eqb_spec (getDayOfWeek d) 6) as [He|Hne].
  - by rewrite filter_cons_True.
  - by rewrite filter_cons_False.
Qed.

Lemma columnOf_mono days i j :
  i ≤ j → columnOf getDayOfWeek days i ≤ columnOf getDayOfWeek days j.
Proof.
  induction 1 as [|j Hij IH]; [done|].
  etrans; [exact IH|].
  destruct (days !! j) as [d|] eqn:Hd.
  - rewrite (columnOf_S _ _ _ Hd). lia.
  - apply lookup_ge_None in Hd. unfold columnOf.
    by rewrite !take_ge by lia.
Qed.

Lemma consecutiveDaysb_spec days :
  consecutiveDaysb getDayOfWeek days = true → consecutiveDays getDayOfWeek days.
Proof.
  induction days as [|d rest IH]; simpl.
  - intros _. split; [intros d Hd; by apply elem_of_nil in Hd|].
    intros i d d' Hd. by rewrite lookup_nil in Hd.
  - rewrite !andb_true_iff. intros [[Hd Hnext] Hrest].
    destruct (IH Hrest) as [Hlt Hstep]. apply Nat.ltb_lt in Hd. split.
    + intros d0 Hd0. apply elem_of_cons in Hd0 as [->|Hd0]; auto.
    + intros [|i] d1 d2; simpl.
      * intros [= <-] Hd2. destruct rest as [|d' rest']; [done|].
        simpl in Hd2. injection Hd2 as <-. by apply Nat.eqb_eq.
      * apply Hstep.
Qed.

Lemma consecutiveDays_snoc p x :
  consecutiveDays getDayOfWeek (p ++ [x]) →
  consecutiveDays getDayOfWeek p
  ∧ getDayOfWeek x < 7
  ∧ (∀ l, last p = Some l → getDayOfWeek x = (getDayOfWeek l + 1) mod 7).
Proof.
  intros [Hlt Hstep]. split_and!.
  - split.
    + intros d Hd. apply Hlt, elem_of_app. by left.
    + intros i d d' Hd Hd'. apply (Hstep i); by apply lookup_app_l_Some.
  - apply Hlt, elem_of_app. right. by apply list_elem_of_singleton.
  - intros l Hl. rewrite last_lookup in Hl.
    pose proof (lookup_lt_Some _ _ _ Hl) as Hlen.
    apply (Hstep (pred (length p))).
    + by apply lookup_app_l_Some.
    + apply list_lookup_middle. lia.
Qed.

Lemma bucketInvariant_nil : bucketInvariant getDayOfWeek [] ([], EMPTY_WEEK).
Proof.
  split_and!; try done.
  - intros c r d Hs. apply slotAt_app_cases in Hs as [[Hc _]|[_ Hs]].
    + simpl in Hc. lia.
    + by apply EMPTY_WEEK_lookup in Hs.
  - intros r d Hs. by apply EMPTY_WEEK_lookup in Hs.
Qed.

Lemma bucketInvariant_step p x st :
  getDayOfWeek x < 7 →
  (∀ l, last p = Some l → getDayOfWeek x = (getDayOfWeek l + 1) mod 7) →
  bucketInvariant getDayOfWeek p st →
  bucketInvariant getDayOfWeek (p ++ [x]) (bucketStep getDayOfWeek st x).
Proof.
  destruct st as [weeks cur].
  intros Hdx Hnext (Hw7 & Hc7 & Hlen & Hpos & Hinv & Hcur).
  unfold bucketStep. rewrite arraySet_in_range by lia.
  set (dx := getDayOfWeek x) in *.
  set (cur' := <[dx := SDay x]> cur).
  assert (length cur' = 7) as Hc7' by (unfold cur'; by rewrite length_insert).
  assert ((p ++ [x]) !! length p = Some x) as Hx.
  { by apply list_lookup_middle. }
  assert (columnOf getDayOfWeek (p ++ [x]) (length p) = length weeks) as Hcol_new.
  { by rewrite columnOf_app, Hlen by lia. }
  assert (columnOf getDayOfWeek (p ++ [x]) (length (p ++ [x]))
          = length weeks + (if dx =? 6 then 1 else 0)) as Hcol_end.
  { rewrite length_app. simpl. rewrite Nat.add_1_r.
    by rewrite (columnOf_S _ _ _ Hx), Hcol_new. }
  assert (∀ r d, cur !! r = Some (SDay d) → r < dx) as Hfresh.
  { intros r d Hr. destruct (Hcur r d Hr) as (l & Hl & Hrl & Hl6).
    rewrite (Hnext l Hl), Nat.mod_small by lia. lia. }
  assert (∀ i d, (p ++ [x]) !! i = Some d →
                 i ≤ length p
                 ∧ slotAt (weeks ++ [cur']) (columnOf getDayOfWeek (p ++ [x]) i)
                     (getDayOfWeek d) = Some (SDay d)) as F1.
  { intros i d Hd.
    pose proof (lookup_lt_Some _ _ _ Hd) as Hi. rewrite length_app in Hi.
    simpl in Hi. split; [lia|].
    destruct (decide (i = length p)) as [->|Hne].
    - rewrite Hx in Hd. injection Hd as <-.
      rewrite Hcol_new, slotAt_app_last. unfold cur'.
      apply list_lookup_insert_eq. fold dx. lia.
    - rewrite lookup_app_l in Hd by lia. rewrite columnOf_app by lia.
      pose proof (Hpos i d Hd) as Hs.
      apply slotAt_app_cases in Hs as [[Hc Hs]|[Hc Hs]].
      + by rewrite slotAt_app_l.
      + rewrite Hc, slotAt_app_last. unfold cur'.
        rewrite list_lookup_insert_ne; [done|].
        pose proof (Hfresh _ _ Hs). lia. }
  assert (∀ c r d, slotAt (weeks ++ [cur']) c r = Some (SDay d) →
                   ∃ i, (p ++ [x]) !! i = Some d
                        ∧ c = columnOf getDayOfWeek (p ++ [x]) i
                        ∧ r = getDayOfWeek d) as F2.
  { intros c r d Hs.
    assert (slotAt (weeks ++ [cur]) c r = Some (SDay d) →
            ∃ i, (p ++ [x]) !! i = Some d
                 ∧ c = columnOf getDayOfWeek (p ++ [x]) i
                 ∧ r = getDayOfWeek d) as Hold.
    { intros Hs'. destruct (Hinv c r d Hs') as (i & Hi & -> & ->).
      exists i. pose proof (lookup_lt_Some _ _ _ Hi).
      split_and!; [by apply lookup_app_l_Some| |done].
      by rewrite columnOf_app by lia. }
    apply slotAt_app_cases in Hs as [[Hc Hs]|[-> Hs]].
    - apply Hold. by rewrite slotAt_app_l.
    - unfold cur' in Hs. destruct (decide (dx = r)) as [<-|Hne].
      + rewrite list_lookup_insert_eq in Hs by lia. injection Hs as <-.
        exists (length p). by rewrite Hcol_new.
      + rewrite list_lookup_insert_ne in Hs by done.
        apply Hold. by rewrite slotAt_app_last. }
  destruct (Nat.eqb_spec dx 6) as [H6|H6].
  - split_and!.
    + apply Forall_app. split; [done|]. by apply Forall_singleton.
    + done.
    + rewrite Hcol_end, length_app. simpl. lia.
    + intros i d Hd. destruct (F1 i d Hd) as [Hi Hs].
      rewrite slotAt_app_l; [done|]. rewrite length_app. simpl.
      pose proof (columnOf_mono (p ++ [x]) i (length p) Hi). lia.
    + intros c r d Hs. apply slotAt_app_cases in Hs as [[_ Hs]|[_ Hs]].
      * by apply F2.
      * by apply EMPTY_WEEK_lookup in Hs.
    + intros r d Hs. by apply EMPTY_WEEK_lookup in Hs.
  - split_and!.
    + done.
    + done.
    + rewrite Hcol_end. lia.
    + intros i d Hd. by destruct (F1 i d Hd).
    + exact F2.
    + intros r d Hs. exists x. rewrite last_snoc. fold dx.
      split_and!; [done| |lia].
      unfold cur' in Hs. destruct (decide (dx = r)) as [<-|Hne]; [lia|].
      rewrite list_lookup_insert_ne in Hs by done.
      pose proof (Hfresh _ _ Hs). lia.
Qed.

Lemma bucketLoop_invariant days :
  consecutiveDays getDayOfWeek days →
  bucketInvariant getDayOfWeek days (bucketLoop getDayOfWeek days).
Proof.
  induction days as [|x p IH] using rev_ind; intros Hdays.
  - apply bucketInvariant_nil.
  - destruct (consecutiveDays_snoc p x Hdays) as (Hp & Hx & Hnext).
    unfold bucketLoop. rewrite foldl_snoc.
    apply bucketInvariant_step; auto.
Qed.

(** The week columns of distinct, consecutive days. *)
Lemma bucketWeeks_columns days :
  NoDup days →
  consecutiveDays getDayOfWeek days →
  let weeks := bucketWeeks getDayOfWeek days in
  Forall (λ w, length w = 7) weeks
  ∧ (∀ i d, days !! i = Some d →
       slotAt weeks (columnOf getDayOfWeek days i) (getDayOfWeek d)
       = Some (SDay d))
  ∧ (∀ i d c r, days !! i = Some d → slotAt weeks c r = Some (SDay d) →
       c = columnOf getDayOfWeek days i ∧ r = getDayOfWeek d)
  ∧ (∀ c r d, slotAt weeks c r = Some (SDay d) → d ∈ days)
  ∧ (∀ i d, days !! i = Some d →
       columnOf getDayOfWeek days (S i)
       = columnOf getDayOfWeek days i + (if getDayOfWeek d =? 6 then 1 else 0)).
Proof.
  intros Hnodup Hdays. cbv zeta.
  pose proof (bucketLoop_invariant days Hdays) as Hinv.
  unfold bucketWeeks. destruct (bucketLoop getDayOfWeek days) as [weeks cur].
  destruct Hinv as (Hw7 & Hc7 & Hlen & Hpos & Hinv & _).
  assert (∀ ws,
            Forall (λ w, length w = 7) ws →
            (∀ c r d, slotAt ws c r = Some (SDay d)
                      ↔ slotAt (weeks ++ [cur]) c r = Some (SDay d)) →
            Forall (λ w, length w = 7) ws
            ∧ (∀ i d, days !! i = Some d →
                 slotAt ws (columnOf getDayOfWeek days i) (getDayOfWeek d)
                 = Some (SDay d))
            ∧ (∀ i d c r, days !! i = Some d → slotAt ws c r = Some (SDay d) →
                 c = columnOf getDayOfWeek days i ∧ r = getDayOfWeek d)
            ∧ (∀ c r d, slotAt ws c r = Some (SDay d) → d ∈ days)
            ∧ (∀ i d, days !! i = Some d →
                 columnOf getDayOfWeek days (S i)
                 = columnOf getDayOfWeek days i
                   + (if getDayOfWeek d =? 6 then 1 else 0))) as Hgen.
  { intros ws Hws Hsame. split_and!.
    - done.
    - intros i d Hd. apply Hsame. by apply Hpos.
    - intros i d c r Hd Hs. apply Hsame in Hs.
      destruct (Hinv c r d Hs) as (i' & Hd' & -> & ->).
      by rewrite (NoDup_lookup _ _ _ _ Hnodup Hd Hd').
    - intros c r d Hs. apply Hsame in Hs.
      destruct (Hinv c r d Hs) as (i & Hd & _).
      by eapply list_elem_of_lookup_2.
    - intros i d Hd. by apply columnOf_S. }
  destruct (existsb notNull cur) eqn:Hany.
  - apply Hgen; [|done]. apply Forall_app. split; [done|]. by apply Forall_singleton.
  - apply Hgen; [done|]. intros c r d. split.
    + intros Hs. rewrite slotAt_app_l; [done|].
      unfold slotAt in Hs. destruct (weeks !! c) eqn:Hc; [|done].
      by apply lookup_lt_Some in Hc.
    + intros Hs. apply slotAt_app_cases in Hs as [[_ Hs]|[_ Hs]]; [done|].
      assert (existsb notNull cur = true) as Htrue; [|congruence].
      apply existsb_exists. exists (SDay d). split; [|done].
      apply list_elem_of_In. by eapply list_elem_of_lookup_2.
Qed.

(** X24. The loop of [MonthGrid] and [YearGrid], run on days that are
    distinct and consecutive: every week has seven rows, Monday at
    row 0 and Sunday at row 6; every day sits in the column that
    counts the Sundays before it, at the row of its day of the week,
    and in no other place; nothing but these days is in the grid; and
    the column of the next day is the same one, unless the day is a
    Sunday, after which the next column starts. *)
Theorem weeks_bucket_days days :
  NoDup days →
  consecutiveDays getDayOfWeek days →
  let weeks := bucketWeeks getDayOfWeek days in
  Forall (λ w, length w = 7) weeks
  ∧ (∀ i d, days !! i = Some d →
       slotAt weeks (columnOf getDayOfWeek days i) (getDayOfWeek d)
       = Some (SDay d))
  ∧ (∀ i d c r, days !! i = Some d → slotAt weeks c r = Some (SDay d) →
       c = columnOf getDayOfWeek days i ∧ r = getDayOfWeek d)
  ∧ (∀ c r d, slotAt weeks c r = Some (SDay d) → d ∈ days)
  ∧ (∀ i d, days !! i = Some d →
       columnOf getDayOfWeek days (S i)
       = columnOf getDayOfWeek days i + (if getDayOfWeek d =? 6 then 1 else 0)).
Proof. apply bucketWeeks_columns. Qed.
End WeekColumns.

(** February 2024: the days of the month are distinct and consecutive,
    and the grid has its five week columns. *)
Lemma weeks_bucket_days_witness :
  let days := calendarMonthDays isoFormat 2024 1 in
  let weeks := bucketWeeks isoDayOfWeek days in
  NoDup days
  ∧ consecutiveDays isoDayOfWeek days
  ∧ Forall (λ w, length w = 7) weeks
  ∧ (∀ i d, days !! i = Some d →
       slotAt weeks (columnOf isoDayOfWeek days i) (isoDayOfWeek d)
       = Some (SDay d))
  ∧ (∀ i d c r, days !! i = Some d → slotAt weeks c r = Some (SDay d) →
       c = columnOf isoDayOfWeek days i ∧ r = isoDayOfWeek d)
  ∧ (∀ c r d, slotAt weeks c r = Some (SDay d) → d ∈ days)
  ∧ (∀ i d, days !! i = Some d →
       columnOf isoDayOfWeek days (S i)
       = columnOf isoDayOfWeek days i + (if isoDayOfWeek d =? 6 then 1 else 0)).
Proof.
  assert (NoDup (calendarMonthDays isoFormat 2024 1)) as Hnodup.
  { apply NoDup_ListNoDup. vm_compute.
    repeat (constructor; [simpl; intuition discriminate|]). constructor. }
  assert (consecutiveDays isoDayOfWeek (calendarMonthDays isoFormat 2024 1))
    as Hdays.
  { apply consecutiveDaysb_spec. by vm_compute. }
  split; [exact Hnodup|]. split; [exact Hdays|].
  exact (weeks_bucket_days isoDayOfWeek _ Hnodup Hdays).
Defined.

(** The month grid of February 2024 has five columns, the first
    starting on a Thursday and the last ending on a Thursday; the year
    grid of 2024 has 53 columns for its 366 days. *)
Example february_2024_grid :
  bucketWeeks isoDayOfWeek (calendarMonthDays isoFormat 2024 1)
  = [ [SNull; SNull; SNull; SDay "2024-02-01"; SDay "2024-02-02";
       SDay "2024-02-03"; SDay "2024-02-04"];
      [SDay "2024-02-05"; SDay "2024-02-06"; SDay "2024-02-07";
       SDay "2024-02-08"; SDay "2024-02-09"; SDay "2024-02-10";
       SDay "2024-02-11"];
      [SDay "2024-02-12"; SDay "2024-02-13"; SDay "2024-02-14";
       SDay "2024-02-15"; SDay "2024-02-16"; SDay "2024-02-17";
       SDay "2024-02-18"];
      [SDay "2024-02-19"; SDay "2024-02-20"; SDay "2024-02-21";
       SDay "2024-02-22"; SDay "2024-02-23"; SDay "2024-02-24";
       SDay "2024-02-25"];
      [SDay "2024-02-26"; SDay "2024-02-27"; SDay "2024-02-28";
       SDay "2024-02-29"; SNull; SNull; SNull] ]
  ∧ length (calendarYearDays isoFormat 2024) = 366
  ∧ length (bucketWeeks isoDayOfWeek (calendarYearDays isoFormat 2024)) = 53
  ∧ consecutiveDaysb isoDayOfWeek (calendarYearDays isoFormat 2024) = true.
Proof. by vm_compute. Qed.

(** ** The days of a month under the ISO model *)

Lemma nat_of_digitChar n : nat_of_ascii (digitChar n) = 48 + n mod 10.
Proof.
  unfold digitChar. apply nat_ascii_embedding.
  pose proof (Nat.mod_upper_bound n 10 ltac:(lia)). lia.
Qed.

Lemma digitsValue_pad2 n : n < 100 → digitsValue (pad2 n) = Z.of_nat n.
Proof.
  intros Hn. unfold digitsValue, pad2.
  cbn -[Nat.div Nat.modulo Z.mul Z.add Z.sub Z.of_nat nat_of_ascii digitChar].
  rewrite !nat_of_digitChar.
  pose proof (Nat.div_mod_eq n 10).
  pose proof (Nat.mod_upper_bound n 10 ltac:(lia)).
  pose proof (Nat.mod_upper_bound (n / 10) 10 ltac:(lia)).
  assert (n / 10 < 10) by (apply Nat.Div0.div_lt_upper_bound; lia).
  rewrite (Nat.mod_small (n / 10)) by done. lia.
Qed.

Lemma digitsValue_pad4 n : n < 100 * 100 → digitsValue (pad4 n) = Z.of_nat n.
Proof.
  intros Hn. unfold digitsValue, pad4.
  cbn -[Nat.div Nat.modulo Z.mul Z.add Z.sub Z.of_nat nat_of_ascii digitChar].
  rewrite !nat_of_digitChar.
  pose proof (Nat.div_mod_eq n 10).
  pose proof (Nat.div_mod_eq (n / 10) 10).
  pose proof (Nat.div_mod_eq (n / 100) 10).
  pose proof (Nat.mod_upper_bound n 10 ltac:(lia)).
  pose proof (Nat.mod_upper_bound (n / 10) 10 ltac:(lia)).
  pose proof (Nat.mod_upper_bound (n / 100) 10 ltac:(lia)).
  assert (n / 1000 < 10) by (apply Nat.Div0.div_lt_upper_bound; lia).
  rewrite (Nat.mod_small (n / 1000)) by done.
  replace (n / 100) with (n / 10 / 10) in *
    by (rewrite Nat.Div0.div_div; reflexivity).
  replace (n / 1000) with (n / 10 / 10 / 10) in *
    by (rewrite !Nat.Div0.div_div; reflexivity).
  lia.
Qed.

(** Reading back the ISO string of a canonical date gives its day
    number. *)
Lemma isoDayNumber_isoFormat d :
  canonical d →
  isoDayNumber (isoFormat d)
  = daysFromCivil (Z.of_nat (JSDate.getFullYear d))
      (Z.of_nat (S (JSDate.getMonth d))) (Z.of_nat (JSDate.getDate d)).
Proof.
  intros (Hy & Hm & Hd). unfold isoDayNumber, isoFormat.
  change (substring 0 4 (pad4 ?y +:+ ?r)) with (pad4 y).
  change (substring 5 2 (pad4 ?y +:+ "-" +:+ pad2 ?m +:+ ?r)) with (pad2 m).
  change (substring 8 2 (pad4 ?y +:+ "-" +:+ pad2 ?m +:+ "-" +:+ pad2 ?dd))
    with (pad2 dd).
  by rewrite digitsValue_pad4, !digitsValue_pad2 by lia.
Qed.

Lemma isoDayOfWeek_lt s : isoDayOfWeek s < 7.
Proof.
  unfold isoDayOfWeek.
  pose proof (Z.mod_pos_bound (isoDayNumber s + 3) 7 ltac:(lia)). lia.
Qed.

(** From one day of a month to the next the day of the week steps by
    one. *)
Lemma isoDayOfWeek_next y m day :
  y < 100 * 100 → m ≤ 11 → S day ≤ 31 →
  isoDayOfWeek (isoFormat (JSDate.mk y m (S day)))
  = (isoDayOfWeek (isoFormat (JSDate.mk y m day)) + 1) mod 7.
Proof.
  intros Hy Hm Hd. unfold isoDayOfWeek.
  rewrite !isoDayNumber_isoFormat by (unfold canonical; simpl; lia).
  cbn [JSDate.getFullYear JSDate.getMonth JSDate.getDate].
  assert (daysFromCivil (Z.of_nat y) (Z.of_nat (S m)) (Z.of_nat (S day))
          = daysFromCivil (Z.of_nat y) (Z.of_nat (S m)) (Z.of_nat day) + 1)%Z
    as ->.
  { unfold daysFromCivil. cbv zeta. lia. }
  set (n := daysFromCivil _ _ _).
  pose proof (Z.mod_pos_bound (n + 3) 7 ltac:(lia)).
  replace (n + 1 + 3)%Z with ((n + 3) + 1)%Z by lia.
  rewrite Z.add_mod, (Z.mod_small 1 7) by lia.
  set (r := ((n + 3) mod 7)%Z) in *.
  destruct (decide (r = 6%Z)) as [->|Hr]; [reflexivity|].
  rewrite Z.mod_small by lia.
  rewrite Nat.mod_small by lia. lia.
Qed.

Lemma isoFormat_inj_day y m day1 day2 :
  y < 100 * 100 → m ≤ 11 → day1 ≤ 31 → day2 ≤ 31 →
  isoFormat (JSDate.mk y m day1) = isoFormat (JSDate.mk y m day2) →
  day1 = day2.
Proof.
  intros Hy Hm H1 H2 Heq.
  assert (∀ s, String.ltb s s = false) as Hirr.
  { intros s. unfold String.ltb.
    assert (String.compare s s = Eq) as ->; [|done].
    induction s as [|c s IH]; [done|]. simpl.
    assert (Ascii.compare c c = Eq) as ->; [|done].
    unfold Ascii.compare. apply N.compare_refl. }
  destruct (Nat.lt_trichotomy day1 day2) as [Hlt|[?|Hgt]]; [|done|].
  - assert (String.ltb (isoFormat (JSDate.mk y m day1))
              (isoFormat (JSDate.mk y m day2)) = true) as Hb.
    { apply isoFormat_ltb; unfold canonical, before; simpl; lia. }
    rewrite Heq, Hirr in Hb. done.
  - assert (String.ltb (isoFormat (JSDate.mk y m day2))
              (isoFormat (JSDate.mk y m day1)) = true) as Hb.
    { apply isoFormat_ltb; unfold canonical, before; simpl; lia. }
    rewrite Heq, Hirr in Hb. done.
Qed.

Lemma lastDayOfMonth_le y m : JSDate.lastDayOfMonth y m ≤ 31.
Proof.
  unfold JSDate.lastDayOfMonth.
  do 12 (destruct m as [|m]; [try destruct (JSDate.isLeap y); lia|]). lia.
Qed.

(** With ISO strings and the day of the week read from them, the days
    of every month of the years 0 to 9999 are distinct and
    consecutive: what the week columns ask of them. *)
Lemma calendarMonthDays_consecutive y m :
  y < 100 * 100 → m ≤ 11 →
  NoDup (calendarMonthDays isoFormat y m)
  ∧ consecutiveDays isoDayOfWeek (calendarMonthDays isoFormat y m).
Proof.
  intros Hy Hm. unfold calendarMonthDays.
  pose proof (lastDayOfMonth_le y m) as Hlast.
  set (n := JSDate.lastDayOfMonth y m) in *.
  split.
  - apply NoDup_fmap_2_strong; [|apply NoDup_seq].
    intros d1 d2 Hd1 Hd2. apply elem_of_seq in Hd1, Hd2.
    apply isoFormat_inj_day; lia.
  - split.
    + intros d _. apply isoDayOfWeek_lt.
    + intros i d d' Hd Hd'.
      apply list_lookup_fmap_Some in Hd as (k & -> & Hk).
      apply list_lookup_fmap_Some in Hd' as (k' & -> & Hk').
      apply lookup_seq in Hk as [-> Hi]. apply lookup_seq in Hk' as [-> Hi'].
      apply isoDayOfWeek_next; lia.
Qed.

(** The days of every month of the years 0 to 9999, with ISO strings
    and the day of the week read from them, fill the week columns as
    the grid promises. *)
Corollary month_weeks_iso y m :
  y < 100 * 100 → m ≤ 11 →
  let days := calendarMonthDays isoFormat y m in
  let weeks := bucketWeeks isoDayOfWeek days in
  Forall (λ w, length w = 7) weeks
  ∧ (∀ i d, days !! i = Some d →
       slotAt weeks (columnOf isoDayOfWeek days i) (isoDayOfWeek d)
       = Some (SDay d))
  ∧ (∀ i d c r, days !! i = Some d → slotAt weeks c r = Some (SDay d) →
       c = columnOf isoDayOfWeek days i ∧ r = isoDayOfWeek d)
  ∧ (∀ c r d, slotAt weeks c r = Some (SDay d) → d ∈ days).
Proof.
  intros Hy Hm.
  destruct (calendarMonthDays_consecutive y m Hy Hm) as [Hnodup Hdays].
  destruct (bucketWeeks_columns isoDayOfWeek _ Hnodup Hdays)
    as (H7 & Hpos & Huniq & Honly & _).
  by split_and!.
Qed.

(** * Further properties of the theme engine *)

Section ThemeExtras.
Context `{ThemeColors} `{ThemeDefinitions} {R : Type} `{WallpaperRegistry R}.
Implicit Types w : World R.

(** *** The first load, key by key *)

Lemma mapAt_mapSet loc k v w :
  loc < length (maps w) → mapAt loc (mapSet loc k v w) = <[k:=v]> (mapAt loc w).
Proof. intros Hloc. unfold mapSet. rewrite mapAt_insert. by case_decide. Qed.

Lemma mapAt_mapDelete loc k w :
  loc < length (maps w) → mapAt loc (mapDelete loc k w) = delete k (mapAt loc w).
Proof. intros Hloc. unfold mapDelete. rewrite mapAt_insert. by case_decide. Qed.

Lemma length_maps_mapSet loc k v w :
  length (maps (mapSet loc k v w)) = length (maps w).
Proof. unfold mapSet. simpl. apply length_insert. Qed.

Lemma length_maps_mapDelete loc k w :
  length (maps (mapDelete loc k w)) = length (maps w).
Proof. unfold mapDelete. simpl. apply length_insert. Qed.

Lemma setAllTemplates_lookup loc ts :
  ∀ w k,
    loc < length (maps w) →
    loc < length (maps (setAllTemplates loc ts w))
    ∧ mapAt loc (setAllTemplates loc ts w) !! k
      = match lastTemplate ts k with
        | Some t => Some (buildThemeFromTemplate t)
        | None => mapAt loc w !! k
        end.
Proof.
  induction ts as [|t ts IH]; intros w k Hloc; [done|].
  change (setAllTemplates loc (t :: ts) w)
    with (setAllTemplates loc ts
            (mapSet loc (ThemeTemplate.id t) (buildThemeFromTemplate t) w)).
  destruct (IH (mapSet loc (ThemeTemplate.id t) (buildThemeFromTemplate t) w) k)
    as [Hlen Hlook]; [by rewrite length_maps_mapSet|].
  split; [done|]. rewrite Hlook. cbn [lastTemplate].
  destruct (lastTemplate ts k); [done|].
  rewrite mapAt_mapSet, lookup_insert by done.
  destruct (String.eqb_spec (ThemeTemplate.id t) k); by case_decide.
Qed.

Lemma registerOne_fold_lookup loc urls wps :
  ∀ w k,
    loc < length (maps w) →
    loc < length (maps (foldl (registerOne loc urls) w wps))
    ∧ mapAt loc (foldl (registerOne loc urls) w wps) !! k
      = if includes (map CustomWallpaper.id wps) k
        then Some (buildCustomWallpaperTheme k)
        else mapAt loc w !! k.
Proof.
  induction wps as [|wp wps IH]; intros w k Hloc; simpl; [done|].
  destruct (IH (registerOne loc urls w wp) k) as [Hlen Hlook].
  { unfold registerOne. by rewrite length_maps_mapSet. }
  split; [done|]. rewrite Hlook.
  destruct (includes (map CustomWallpaper.id wps) k) eqn:Hin.
  - by rewrite orb_true_r.
  - rewrite orb_false_r. unfold registerOne.
    rewrite mapAt_mapSet, lookup_insert by done.
    change (mapAt loc (withRegistry ?f ?x)) with (mapAt loc x).
    destruct (String.eqb_spec k (CustomWallpaper.id wp)) as [->|Hne];
      case_decide; congruence.
Qed.

Lemma removeOne_fold_lookup loc ids keys :
  ∀ w k,
    loc < length (maps w) →
    loc < length (maps (foldl (removeOne loc ids) w keys))
    ∧ mapAt loc (foldl (removeOne loc ids) w keys) !! k
      = if includes keys k && isStale ids k then None else mapAt loc w !! k.
Proof.
  induction keys as [|key keys IH]; intros w k Hloc; simpl; [done|].
  destruct (IH (removeOne loc ids w key) k) as [Hlen Hlook].
  { unfold removeOne. destruct (isStale ids key); [|done]. simpl.
    by rewrite length_insert. }
  split; [done|]. rewrite Hlook.
  destruct (includes keys k && isStale ids k) eqn:Hin.
  - apply andb_true_iff in Hin as [-> ->]. by rewrite orb_true_r.
  - unfold removeOne at 1.
    destruct (String.eqb_spec k key) as [->|Hne]; simpl.
    + destruct (isStale ids key) eqn:Hst.
      * change (mapAt loc (withRegistry ?f ?x)) with (mapAt loc x).
        by rewrite mapAt_mapDelete, lookup_delete_eq.
      * done.
    + rewrite Hin. destruct (isStale ids key); [|done].
      change (mapAt loc (withRegistry ?f ?x)) with (mapAt loc x).
      by rewrite mapAt_mapDelete, lookup_delete_ne.
Qed.

(** [syncCustomWallpapers], key by key, on the map in [_themeMap]: the
    custom wallpapers are there as glass themes, every other key that
    starts with "custom-" is gone, the rest is as it was. *)
Lemma syncCustomWallpapers_lookup loc w k :
  _themeMap w = Some loc → loc < length (maps w) →
  loc < length (maps (syncCustomWallpapers w))
  ∧ mapAt loc (syncCustomWallpapers w) !! k
    = if includes (map CustomWallpaper.id (wallpapers w)) k
      then Some (buildCustomWallpaperTheme k)
      else if String.prefix "custom-" k then None
      else mapAt loc w !! k.
Proof.
  intros Hmap Hloc. unfold syncCustomWallpapers, getThemeMap. rewrite Hmap.
  cbv zeta.
  set (ids := map CustomWallpaper.id (wallpapers w)).
  set (keys := (map_to_list (mapAt loc w)).*1).
  destruct (removeOne_fold_lookup loc ids keys w k Hloc) as [Hlen1 Hlook1].
  destruct (registerOne_fold_lookup loc (objectUrls w) (wallpapers w)
              (foldl (removeOne loc ids) w keys) k Hlen1) as [Hlen2 Hlook2].
  split; [done|]. rewrite Hlook2. fold ids.
  destruct (includes ids k) eqn:Hin; [done|].
  rewrite Hlook1. unfold isStale. rewrite Hin. simpl. rewrite andb_true_r.
  destruct (String.prefix "custom-" k); [|by rewrite andb_false_r].
  rewrite andb_true_r.
  destruct (includes keys k) eqn:Hk; [done|].
  destruct (mapAt loc w !! k) as [t|] eqn:Ht; [|done].
  assert (includes keys k = true) as Hk'; [|congruence].
  apply includes_elem_of. unfold keys.
  apply list_elem_of_fmap. exists (k, t). split; [done|].
  by apply elem_of_map_to_list.
Qed.

(** What the first lookup of a freshly loaded module sees. *)
Lemma lookupMap_fresh w k :
  _customThemesLoaded w = false →
  _themeMap w = None →
  lookupMap w !! k = firstLookup w k.
Proof.
  intros Hl Hnone.
  set (loc := length (maps w)).
  set (w2 := withThemeMap (Some loc)
               (withMaps (λ h, h ++ [builtinThemeMap]) (withLoaded true w))).
  set (w3 := setAllTemplates loc (customThemes w) w2).
  set (w4 := withListener (Some loc) w3).
  assert (ensureCustomThemesLoaded w = syncCustomWallpapers w4) as Hens.
  { unfold ensureCustomThemesLoaded. rewrite Hl.
    unfold getThemeMap at 1. simpl. by rewrite Hnone. }
  assert (loc < length (maps w2)) as Hloc2.
  { unfold w2, loc. simpl. rewrite length_app. simpl. lia. }
  assert (mapAt loc w2 = builtinThemeMap) as Hmap2.
  { unfold mapAt, w2, loc. simpl. by rewrite lookup_app_r, Nat.sub_diag by lia. }
  destruct (setAllTemplates_lookup loc (customThemes w) w2 k Hloc2)
    as [Hloc3 Hlook3].
  destruct (evolves_setAllTemplates loc (customThemes w) w2) as (Hc3 & _ & _).
  destruct (control_inv _ _ Hc3) as (Ht3 & _ & _ & _ & Hwp3 & _).
  fold w3 in Hloc3, Hlook3, Ht3, Hwp3.
  assert (_themeMap w4 = Some loc) as Hmap4 by (simpl; by rewrite Ht3).
  destruct (syncCustomWallpapers_lookup loc w4 k Hmap4 Hloc3) as [Hloc5 Hlook5].
  destruct (evolves_syncCustomWallpapers loc w4 Hmap4) as (Hc5 & _ & _).
  destruct (control_inv _ _ Hc5) as (Ht5 & _).
  unfold lookupMap. rewrite Hens. unfold getThemeMap. rewrite Ht5, Hmap4, Hlook5.
  unfold firstLookup.
  change (wallpapers w4) with (wallpapers w3). rewrite Hwp3.
  change (wallpapers w2) with (wallpapers w).
  change (mapAt loc w4) with (mapAt loc w3). by rewrite Hlook3, Hmap2.
Qed.

(** X1. The first lookup of a freshly loaded module sees, under every
    key: the glass theme of a custom wallpaper of that id; failing
    that, nothing if the key starts with "custom-"; failing that, the
    last custom theme of that id, which so shadows a built-in theme of
    the same id; failing that, the built-in theme. *)
Theorem lookupMap_first_load w k :
  _customThemesLoaded w = false →
  _themeMap w = None →
  lookupMap w !! k = firstLookup w k.
Proof. apply lookupMap_fresh. Qed.

(** *** Built-in themes stay *)

Lemma is_Some_foldl_insert_mono {A} (key : A → string) (val : A → Theme.t)
    (l : list A) :
  ∀ (m : gmap string Theme.t) k,
    is_Some (m !! k) ∨ k ∈ map key l →
    is_Some (foldl (λ m x, <[key x := val x]> m) m l !! k).
Proof.
  induction l as [|x l IH]; intros m k [Hm|Hl]; simpl.
  - done.
  - by apply elem_of_nil in Hl.
  - apply IH. left. rewrite lookup_insert. by case_decide.
  - apply IH. simpl in Hl. apply elem_of_cons in Hl as [->|Hl]; [|by right].
    left. by rewrite lookup_insert_eq.
Qed.

Lemma builtinThemeMap_has k : k ∈ builtinIds → is_Some (builtinThemeMap !! k).
Proof.
  unfold builtinThemeMap, builtinIds, themeSets.
  assert (∀ (gs : list BaseThemeGroup.t) (m : gmap string Theme.t),
             is_Some (m !! k)
             ∨ k ∈ flat_map (λ g, map BaseTheme.id (BaseThemeGroup.themes g)) gs →
             is_Some (foldl (λ m group,
                               foldl (λ m theme, <[Theme.id theme := theme]> m) m
                                 (ThemeGroup.themes group))
                        m (map buildThemeGroup gs) !! k)) as Hgen.
  { induction gs as [|g gs IH]; intros m Hk; simpl in *.
    - destruct Hk as [Hk|Hk]; [done|]. by apply elem_of_nil in Hk.
    - apply IH. destruct Hk as [Hk|Hk].
      + left. apply (is_Some_foldl_insert_mono Theme.id (λ t, t)). by left.
      + apply elem_of_app in Hk as [Hk|Hk]; [|by right].
        left. apply (is_Some_foldl_insert_mono Theme.id (λ t, t)). right.
        by rewrite map_map. }
  intros Hk. apply Hgen. by right.
Qed.

Lemma lookupMap_covers w k :
  consistent w → coversBuiltin w →
  is_Some (builtinThemeMap !! k) → String.prefix "custom-" k = false →
  is_Some (lookupMap w !! k).
Proof.
  intros (Hwk & Hf & Ht) Hcov Hb Hp.
  destruct (_customThemesLoaded w) eqn:Hl.
  - destruct (_themeMap w) as [loc|] eqn:Hm.
    + unfold lookupMap, ensureCustomThemesLoaded, getThemeMap. rewrite Hl, Hm.
      by apply Hcov.
    + by rewrite lookupMap_rebuilt.
  - destruct (Hf eq_refl) as [Hm _].
    rewrite lookupMap_fresh by done. unfold firstLookup.
    destruct (includes _ k); [done|]. rewrite Hp.
    by destruct (lastTemplate _ k).
Qed.

Lemma coversBuiltin_internals w w' :
  internals w' = internals w → coversBuiltin w → coversBuiltin w'.
Proof.
  unfold internals, coversBuiltin, mapAt. intros [= Hmaps Hmap _ _ _ _ _ _].
  rewrite Hmaps, Hmap. done.
Qed.

Lemma coversBuiltin_lookupWorld w :
  consistent w → coversBuiltin w → coversBuiltin (lookupWorld w).
Proof.
  intros Hc Hcov loc' k Hloc' Hb Hp.
  destruct (lookupMap_mapAt w) as (loc & Hloc & Hmap).
  rewrite Hloc in Hloc'. injection Hloc' as <-. rewrite <- Hmap.
  by apply lookupMap_covers.
Qed.

Lemma coversBuiltin_perform a w :
  consistent w → coversBuiltin w → coversBuiltin (perform a w).
Proof.
  intros Hc Hcov.
  destruct (isMutation a) eqn:Hmut.
  - intros loc k Hloc. by rewrite (mutation_clears_themeMap a w Hc Hmut) in Hloc.
  - destruct a as [themeId|theme|themeId|ts|ws urls]; try discriminate; simpl.
    + eapply coversBuiltin_internals; [apply internals_applyTheme|].
      by apply coversBuiltin_lookupWorld.
    + eapply coversBuiltin_internals; [|exact Hcov].
      unfold applyThemeObject. apply internals_writeVariables.
    + rewrite getTheme_world. by apply coversBuiltin_lookupWorld.
Qed.

Lemma reachable_coversBuiltin w : reachable w → coversBuiltin w.
Proof.
  induction 1 as [w (_ & Hm & _)|a w Hr IH].
  - intros loc k Hloc. by rewrite Hm in Hloc.
  - apply coversBuiltin_perform; [by apply reachable_consistent|done].
Qed.

(** X2. In every run of the module, [getTheme] finds a theme for every
    id whose alias-resolved form is a built-in id that does not start
    with "custom-": no mutation of the stores and no synchronisation
    of the wallpapers ever removes a built-in theme. *)
Theorem builtin_theme_always_found themeId w :
  reachable w →
  resolveThemeId themeId ∈ builtinIds →
  String.prefix "custom-" (resolveThemeId themeId) = false →
  is_Some (getTheme themeId w).1.
Proof.
  intros Hr Hb Hp. rewrite getTheme_lookupMap.
  apply lookupMap_covers; [by apply reachable_consistent| |by apply builtinThemeMap_has|done].
  by apply reachable_coversBuiltin.
Qed.

(** *** After a mutation *)

Lemma mutation_keeps_loaded a w :
  isMutation a = true →
  _customThemesLoaded (perform a w) = _customThemesLoaded w.
Proof.
  intros Ha. destruct a as [| | |ts|ws urls]; try discriminate; simpl.
  - unfold setCustomThemes. simpl.
    destruct (listenerThemeMap w) as [loc|]; [|done].
    unfold onCustomThemesChange.
    destruct (evolves_setAllTemplates loc ts (withCustomThemes ts w)) as (Hc & _).
    destruct (control_inv _ _ Hc) as (_ & Hl & _). exact Hl.
  - unfold setCustomWallpapers. simpl.
    destruct (listenerThemeMap w) as [loc0|]; [|done].
    unfold onCustomWallpapersChange. rewrite syncCustomWallpapers_getThemeMap.
    destruct (getThemeMap_spec (withWallpapers ws urls w))
      as (loc & w2 & Hg & Hloc & Hld & _).
    rewrite Hg. simpl in *.
    destruct (evolves_syncCustomWallpapers loc w2 Hloc) as (Hc & _).
    destruct (control_inv _ _ Hc) as (_ & Hl & _). simpl. by rewrite Hl.
Qed.

(** X3. Once the first lookup has happened, every mutation of the
    custom theme or custom wallpaper collection leaves the next lookup
    with the built-in themes alone: the map is rebuilt from them and
    the collections are not read again, so [getTheme] then answers for
    a custom theme or wallpaper that is still in its store as for an
    id it never heard of. *)
Theorem lookupMap_after_mutation a w :
  reachable w →
  _customThemesLoaded w = true →
  isMutation a = true →
  lookupMap (perform a w) = builtinThemeMap
  ∧ ∀ themeId,
      (getTheme themeId (perform a w)).1
      = builtinThemeMap !! resolveThemeId themeId.
Proof.
  intros Hr Hl Ha.
  assert (lookupMap (perform a w) = builtinThemeMap) as Hmap.
  { apply lookupMap_rebuilt.
    - by rewrite mutation_keeps_loaded.
    - apply mutation_clears_themeMap; [by apply reachable_consistent|done]. }
  split; [done|]. intros themeId. by rewrite getTheme_lookupMap, Hmap.
Qed.

(** *** Aliases *)

Lemma getThemeDefaultWallpaperId_resolved themeId :
  getThemeDefaultWallpaperId (resolveThemeId themeId)
  = getThemeDefaultWallpaperId themeId.
Proof. unfold getThemeDefaultWallpaperId. by rewrite resolveThemeId_idem. Qed.

Lemma document_applyTheme themeId w :
  document (applyTheme themeId w)
  = match lookupMap w !! resolveThemeId themeId with
    | None => document w
    | Some theme => document (applyFound (resolveThemeId themeId) theme (lookupWorld w))
    end.
Proof.
  rewrite applyTheme_unfold.
  destruct (lookupMap w !! resolveThemeId themeId); [done|].
  destruct (visible_inv _ _ (visible_lookupWorld w)) as (Hg & Hs & Ha & Hb & _).
  unfold document. simpl. by rewrite Hg, Hs, Ha, Hb.
Qed.

(** X4. A legacy alias stands for its target everywhere: resolving is
    idempotent, and [isPremiumThemeId], [getThemeDefaultWallpaperId],
    [getTheme] and the document [applyTheme] leaves are the same for
    an id and for its resolved form. *)
Theorem alias_transparent themeId w :
  resolveThemeId (resolveThemeId themeId) = resolveThemeId themeId
  ∧ isPremiumThemeId (resolveThemeId themeId) = isPremiumThemeId themeId
  ∧ getThemeDefaultWallpaperId (resolveThemeId themeId)
    = getThemeDefaultWallpaperId themeId
  ∧ (getTheme (resolveThemeId themeId) w).1 = (getTheme themeId w).1
  ∧ document (applyTheme (resolveThemeId themeId) w)
    = document (applyTheme themeId w).
Proof.
  split_and!.
  - apply resolveThemeId_idem.
  - apply isPremiumThemeId_resolved.
  - apply getThemeDefaultWallpaperId_resolved.
  - by rewrite !getTheme_lookupMap, resolveThemeId_idem.
  - by rewrite !document_applyTheme, resolveThemeId_idem.
Qed.

(** *** The live preview *)

Lemma rootAttrs_writeVariables e w : rootAttrs (writeVariables e w) = rootAttrs w.
Proof.
  unfold writeVariables.
  by destruct (truthy (EffectiveTheme.secondaryColor e)).
Qed.

Lemma rootAttrs_applyWallpaper r w : rootAttrs (applyWallpaper r w) = rootAttrs w.
Proof.
  unfold applyWallpaper.
  destruct (truthyOpt _); [|done]. by destruct (getWallpaperById _ _).
Qed.

Lemma effectiveThemeOf_theme theme :
  effectiveThemeOf (isPremiumThemeId (Theme.id theme)) theme
  = if isPremiumThemeId (Theme.id theme) then getPremiumThemeVariables
    else ownColors theme.
Proof.
  unfold effectiveThemeOf, ownColors, getModifiedCardColor, getModifiedBorderColor.
  by destruct (isPremiumThemeId (Theme.id theme)).
Qed.

(** X5. [applyThemeObject], the live preview, writes the variables that
    [applyTheme] would write for a theme of that id and nothing else:
    the premium values when the theme's id is premium, the theme's own
    colours otherwise, with the secondary pair left alone when the
    secondary colour is empty; the glass-mode preference, the
    attributes of the root, the wallpaper of the body, the theme map
    and the stores stay as they are. *)
Theorem applyThemeObject_preview theme w :
  let w' := applyThemeObject theme w in
  variablesRead w'
  = (if isPremiumThemeId (Theme.id theme) then getPremiumThemeVariables
     else if truthy (Theme.secondaryColor theme) then ownColors theme
     else keepSecondary (variablesRead w) (ownColors theme))
  ∧ glassMode w' = glassMode w
  ∧ rootAttrs w' = rootAttrs w
  ∧ bodyStyle w' = bodyStyle w
  ∧ internals w' = internals w
  ∧ Forall (λ e, isSetProperty e = true) (drop (length (effects w)) (effects w')).
Proof.
  cbv zeta. unfold applyThemeObject. split_and!.
  - rewrite variablesRead_writeVariables, effectiveThemeOf_theme.
    by destruct (isPremiumThemeId (Theme.id theme)).
  - apply glassMode_writeVariables.
  - apply rootAttrs_writeVariables.
  - apply bodyStyle_writeVariables.
  - apply internals_writeVariables.
  - rewrite effects_writeVariables, drop_app_length. unfold variableWrites.
    destruct (truthy _); repeat constructor.
Qed.

(** *** Wallpaper ids and styles *)

Lemma groupWallpaperId_Some groups resolvedId wid :
  groupWallpaperId groups resolvedId = Some wid →
  truthy wid = true
  ∧ ∃ group theme,
      group ∈ groups ∧ theme ∈ BaseThemeGroup.themes group
      ∧ BaseTheme.id theme = resolvedId
      ∧ BaseTheme.wallpaperId theme = Some wid.
Proof.
  induction groups as [|group rest IH]; simpl; [done|].
  assert (groupWallpaperId rest resolvedId = Some wid →
          truthy wid = true
          ∧ ∃ group' theme,
              group' ∈ group :: rest ∧ theme ∈ BaseThemeGroup.themes group'
              ∧ BaseTheme.id theme = resolvedId
              ∧ BaseTheme.wallpaperId theme = Some wid) as Hrest.
  { intros Hr. destruct (IH Hr) as (Ht & g & t & Hg & Hrest).
    split; [done|]. exists g, t. split; [by right|done]. }
  destruct (List.find _ (BaseThemeGroup.themes group)) as [theme|] eqn:Hfind;
    [|done].
  destruct (truthyOpt (BaseTheme.wallpaperId theme)) eqn:Htr; [|done].
  intros Hw. apply find_some in Hfind as [Hin Hid].
  apply String.eqb_eq in Hid.
  split; [by rewrite Hw in Htr|].
  exists group, theme. split_and!; [by left|by apply list_elem_of_In|done|done].
Qed.

(** X6. The wallpaper id of a theme is never the empty string: it is
    the resolved id itself when that starts with "custom-", and
    otherwise the non-empty wallpaper id that a built-in theme of the
    resolved id declares; when there is none, the resolved id does not
    start with "custom-". So testing the result for truth, as
    [applyTheme] does, is testing that there is one. *)
Theorem getThemeDefaultWallpaperId_truthy themeId :
  let resolved := resolveThemeId themeId in
  match getThemeDefaultWallpaperId themeId with
  | Some wid =>
      truthy wid = true
      ∧ (if String.prefix "custom-" resolved then wid = resolved
         else ∃ group theme,
                group ∈ baseThemeSets ∧ theme ∈ BaseThemeGroup.themes group
                ∧ BaseTheme.id theme = resolved
                ∧ BaseTheme.wallpaperId theme = Some wid)
  | None => String.prefix "custom-" resolved = false
  end.
Proof.
  cbv zeta. unfold getThemeDefaultWallpaperId.
  destruct (String.prefix "custom-" (resolveThemeId themeId)) eqn:Hp.
  - split; [|done]. by destruct (resolveThemeId themeId) as [|c s].
  - destruct (groupWallpaperId baseThemeSets (resolveThemeId themeId))
      as [wid|] eqn:Hg; [|done].
    by apply groupWallpaperId_Some.
Qed.

(** X7. The preview style of a wallpaper and the wallpaper [applyTheme]
    puts on the body agree: for a wallpaper with a URL,
    [getWallpaperStyles] gives the same background image, with the
    AVIF and WebP image set when there is a WebP URL, and the same
    size, position and repeat; without a URL it gives the empty
    object. *)
Theorem getWallpaperStyles_agrees wallpaper isHighlighted :
  getWallpaperStyles (Some (Wallpaper.url wallpaper)) isHighlighted
    (Some (Wallpaper.urlWebp wallpaper))
  = if truthy (Wallpaper.url wallpaper)
    then Some (WallpaperStyles.mk
                 (BodyStyle.backgroundImage (wallpaperBodyStyle wallpaper))
                 (BodyStyle.backgroundSize (wallpaperBodyStyle wallpaper))
                 (BodyStyle.backgroundPosition (wallpaperBodyStyle wallpaper))
                 (BodyStyle.backgroundRepeat (wallpaperBodyStyle wallpaper))
                 (if isHighlighted then "brightness(1)" else "brightness(0.85)"))
    else None.
Proof.
  unfold getWallpaperStyles, wallpaperBodyStyle, wallpaperBackgroundImage. simpl.
  destruct (truthy (Wallpaper.url wallpaper)); [|done]. simpl.
  by destruct (truthy (Wallpaper.urlWebp wallpaper)).
Qed.

(** *** The data-theme attribute *)

Lemma rootAttrs_applyFound r t w :
  rootAttrs (applyFound r t w) = <["data-theme" := r]> (rootAttrs w).
Proof.
  unfold applyFound. rewrite rootAttrs_applyWallpaper.
  change (rootAttrs (setAttribute ?n ?v ?x)) with (<[n:=v]> (rootAttrs x)).
  by rewrite rootAttrs_writeVariables.
Qed.

(** X8. A successful [applyTheme] sets the data-theme attribute of the
    root to the alias-resolved id, not to the id it was called with,
    and leaves every other attribute of the root alone. *)
Theorem applyTheme_sets_data_theme themeId w theme :
  lookupMap w !! resolveThemeId themeId = Some theme →
  rootAttrs (applyTheme themeId w)
  = <["data-theme" := resolveThemeId themeId]> (rootAttrs w).
Proof.
  intros Hsome. rewrite applyTheme_unfold, Hsome, rootAttrs_applyFound.
  by destruct (visible_inv _ _ (visible_lookupWorld w)) as (_ & _ & -> & _).
Qed.

(** *** Applying twice *)

Lemma rootStyle_setProperty_lookup n' v w n :
  rootStyle (setProperty n' v w) !! n
  = if decide (n' = n) then (if truthy v then Some v else None)
    else rootStyle w !! n.
Proof.
  simpl. destruct (truthy v).
  - rewrite lookup_insert. by case_decide.
  - rewrite lookup_delete. by case_decide.
Qed.

Lemma rootStyle_writeVariables_idem e w w' :
  rootStyle w' = rootStyle (writeVariables e w) →
  rootStyle (writeVariables e w') = rootStyle w'.
Proof.
  intros Hw'. apply map_eq. intros n.
  unfold writeVariables in *.
  destruct (truthy (EffectiveTheme.secondaryColor e));
    rewrite !rootStyle_setProperty_lookup, Hw', !rootStyle_setProperty_lookup;
    repeat (case_decide; try congruence).
Qed.

Lemma applyFound_idem r t w :
  document (applyFound r t (applyFound r t w)) = document (applyFound r t w).
Proof.
  unfold document. f_equal; [f_equal; [f_equal|]|].
  - unfold applyFound.
    by rewrite !glassMode_applyWallpaper, !glassMode_setAttribute,
      !glassMode_writeVariables.
  - unfold applyFound at 1.
    rewrite rootStyle_applyWallpaper, rootStyle_setAttribute.
    etrans;
      [apply (rootStyle_writeVariables_idem _
                (setGlassMode (isPremiumThemeId r) w))|reflexivity].
    change (rootStyle (setGlassMode ?b ?x)) with (rootStyle x) at 1.
    unfold applyFound.
    by rewrite rootStyle_applyWallpaper, rootStyle_setAttribute.
  - by rewrite !rootAttrs_applyFound, insert_insert_eq.
  - rewrite !bodyStyle_applyFound. cbv zeta.
    destruct (truthyOpt _); [|done].
    pose proof (internals_applyFound r t w) as Hi.
    assert (registry (applyFound r t w) = registry w) as ->.
    { unfold internals in Hi. by injection Hi. }
    by destruct (getWallpaperById _ _).
Qed.

Lemma lookupWorld_facts w :
  _customThemesLoaded (lookupWorld w) = true
  ∧ ∃ loc, _themeMap (lookupWorld w) = Some loc
           ∧ lookupMap w = mapAt loc (lookupWorld w).
Proof.
  split; [|apply lookupMap_mapAt].
  unfold lookupWorld.
  destruct (getThemeMap_spec (ensureCustomThemesLoaded w))
    as (loc & w' & -> & _ & Hld & _).
  simpl. rewrite Hld.
  destruct (_customThemesLoaded w) eqn:Hl.
  - unfold ensureCustomThemesLoaded. by rewrite Hl.
  - by destruct (ensureCustomThemesLoaded_first w Hl) as (? & _ & ? & _).
Qed.

Lemma lookup_again w w1 :
  internals w1 = internals (lookupWorld w) →
  lookupWorld w1 = w1 ∧ lookupMap w1 = lookupMap w.
Proof.
  intros Hi. destruct (lookupWorld_facts w) as (Hl & loc & Hloc & Hmap).
  unfold internals in Hi. injection Hi as Hmaps Htm Hld _ _ _ _ _.
  rewrite Hl in Hld. rewrite Hloc in Htm.
  assert (ensureCustomThemesLoaded w1 = w1) as Hens.
  { unfold ensureCustomThemesLoaded. by rewrite Hld. }
  split.
  - unfold lookupWorld. rewrite Hens. unfold getThemeMap. by rewrite Htm.
  - rewrite Hmap. unfold lookupMap. rewrite Hens. unfold getThemeMap.
    rewrite Htm. unfold mapAt. by rewrite Hmaps.
Qed.

(** X9. Applying a theme a second time changes nothing: after
    [applyTheme] of an id, [applyTheme] of the same id leaves the
    glass-mode preference, the presentation variables, the attributes
    of the root and the wallpaper of the body exactly as the first
    call left them, whether the theme was found or not. *)
Theorem applyTheme_idempotent themeId w :
  document (applyTheme themeId (applyTheme themeId w))
  = document (applyTheme themeId w).
Proof.
  destruct (lookup_again w (applyTheme themeId w) (internals_applyTheme themeId w))
    as [Hworld Hmap].
  rewrite (document_applyTheme themeId (applyTheme themeId w)), Hmap, Hworld.
  destruct (lookupMap w !! resolveThemeId themeId) as [theme|] eqn:Hsome; [|done].
  rewrite applyTheme_unfold, Hsome. apply applyFound_idem.
Qed.
End ThemeExtras.

(** ** The further properties on the sample data *)

Section ThemeExtrasExamples.
Import Sample.

(** A fresh module with the custom theme "sunset" and the wallpaper
    "custom-beach". *)
Lemma lookupMap_first_load_witness :
  let w := world0 [sunset] [beach] in
  _customThemesLoaded w = false
  ∧ _themeMap w = None
  ∧ lookupMap w !! "sunset" = firstLookup w "sunset".
Proof.
  split; [reflexivity|]. split; [reflexivity|].
  apply (lookupMap_first_load (world0 [sunset] [beach]) "sunset"); reflexivity.
Defined.

(** On the first lookup a custom theme shadows the built-in theme of
    its id, and a custom theme whose id starts with "custom-" is
    dropped unless a wallpaper has that id. *)
Example first_load_shadowing :
  let paper' :=
    ThemeTemplate.mk "paper" "oklch(50% 0 0)" "oklch(55% 0 0)" "oklch(60% 0 0)"
      "oklch(10% 0 0)" "oklch(20% 0 0)" in
  let odd :=
    ThemeTemplate.mk "custom-odd" "oklch(50% 0 0)" "oklch(55% 0 0)"
      "oklch(60% 0 0)" "oklch(10% 0 0)" "oklch(20% 0 0)" in
  let w := world0 [paper'; odd] [beach] in
  (getTheme "paper" w).1 = Some (buildThemeFromTemplate paper')
  ∧ (getTheme "custom-odd" w).1 = None
  ∧ (getTheme "custom-beach" w).1 = Some (buildCustomWallpaperTheme "custom-beach").
Proof. by vm_compute. Qed.

(** The built-in theme "paper" after a lookup and two mutations. *)
Lemma builtin_theme_always_found_witness :
  let w :=
    perform (DoSetCustomWallpapers [] ∅)
      (perform (DoSetCustomThemes [])
         (perform (DoGetTheme "sunset") (world0 [sunset] [beach]))) in
  reachable w
  ∧ resolveThemeId "paper" ∈ builtinIds
  ∧ String.prefix "custom-" (resolveThemeId "paper") = false
  ∧ is_Some (getTheme "paper" w).1.
Proof.
  assert (reachable
            (perform (DoSetCustomWallpapers [] ∅)
               (perform (DoSetCustomThemes [])
                  (perform (DoGetTheme "sunset") (world0 [sunset] [beach])))))
    as Hr.
  { do 3 apply reachable_step. apply reachable_start, world0_justLoaded. }
  assert (resolveThemeId "paper" ∈ builtinIds) as Hin.
  { apply list_elem_of_In. vm_compute. tauto. }
  split; [exact Hr|]. split; [exact Hin|]. split; [reflexivity|].
  apply (builtin_theme_always_found "paper" _ Hr Hin). reflexivity.
Defined.

(** After the first lookup, adding a second custom theme. *)
Lemma lookupMap_after_mutation_witness :
  let w := perform (DoGetTheme "sunset") (world0 [sunset] [beach]) in
  let a := DoSetCustomThemes [sunset; sunset] in
  reachable w
  ∧ _customThemesLoaded w = true
  ∧ isMutation a = true
  ∧ lookupMap (perform a w) = builtinThemeMap
  ∧ ∀ themeId,
      (getTheme themeId (perform a w)).1
      = builtinThemeMap !! resolveThemeId themeId.
Proof.
  assert (reachable (perform (DoGetTheme "sunset") (world0 [sunset] [beach])))
    as Hr.
  { apply reachable_step, reachable_start, world0_justLoaded. }
  split; [exact Hr|]. split; [reflexivity|]. split; [reflexivity|].
  apply (lookupMap_after_mutation (DoSetCustomThemes [sunset; sunset]) _ Hr);
    reflexivity.
Defined.

(** The alias "neon-city-glass" on a fresh module. *)
Lemma applyTheme_sets_data_theme_witness :
  let w := world0 [sunset] [beach] in
  lookupMap w !! resolveThemeId "neon-city-glass" = Some (buildTheme neonCity false)
  ∧ rootAttrs (applyTheme "neon-city-glass" w)
    = <["data-theme" := resolveThemeId "neon-city-glass"]> (rootAttrs w).
Proof.
  split; [by vm_compute|].
  apply (applyTheme_sets_data_theme "neon-city-glass" (world0 [sunset] [beach])
           (buildTheme neonCity false)).
  by vm_compute.
Defined.

(** The alias sets the attribute to "neon-city". *)
Example applyTheme_alias_data_theme :
  rootAttrs (applyTheme "neon-city-glass" (world0 [] [])) !! "data-theme"
  = Some "neon-city".
Proof. by vm_compute. Qed.
End ThemeExtrasExamples.

(** * Further properties of the streak calendar *)


Lemma omap_slotDay_none (l : list Slot) :
  (∀ r d, l !! r = Some (SDay d) → False) → omap slotDay l = [].
Proof.
  induction l as [|s l IH]; intros Hl; [done|]. simpl.
  assert (slotDay s = None) as ->.
  { destruct s as [| |d]; try done. destruct (Hl 0 d eq_refl). }
  apply IH. intros r d Hr. apply (Hl (S r) d Hr).
Qed.

Lemma omap_slotDay_insert (cur : list Slot) :
  ∀ dx x,
    dx < length cur →
    (∀ r d, cur !! r = Some (SDay d) → r < dx) →
    truthy x = true →
    omap slotDay (<[dx := SDay x]> cur) = omap slotDay cur ++ [x].
Proof.
  induction cur as [|s cur IH]; intros dx x Hdx Hfresh Hx; simpl in Hdx; [lia|].
  destruct dx as [|dx]; simpl.
  - rewrite Hx.
    assert (slotDay s = None) as ->.
    { destruct s as [| |d]; try done. specialize (Hfresh 0 d eq_refl). lia. }
    rewrite omap_slotDay_none; [done|].
    intros r d Hr. specialize (Hfresh (S r) d Hr). lia.
  - rewrite IH; [by destruct (slotDay s)|lia| |done].
    intros r d Hr. specialize (Hfresh (S r) d Hr). lia.
Qed.

Lemma cellsOf_dates cell today visits (weeks : list (list Slot)) :
  map CalendarCell.date
    (cellsOf (map (mapArray (renderSlot cell today visits)) weeks))
  = slotsDays weeks.
Proof.
  unfold cellsOf, slotsDays.
  induction weeks as [|row weeks IH]; [done|]. simpl.
  rewrite !omap_app, fmap_app. f_equal; [|exact IH].
  clear IH. induction row as [|s row IH]; [done|].
  destruct s as [| |day]; simpl; try exact IH.
  unfold renderSlot at 1. simpl. destruct (truthy day); simpl; [f_equal|]; exact IH.
Qed.

Lemma slotsDays_snoc (weeks : list (list Slot)) cur :
  slotsDays (weeks ++ [cur]) = slotsDays weeks ++ omap slotDay cur.
Proof.
  unfold slotsDays. rewrite join_app, omap_app. simpl. by rewrite app_nil_r.
Qed.

Section WeekColumnsMore.
Variable getDayOfWeek : string → nat.

(** Reading the week columns in order gives the days back. *)
Lemma bucketLoop_reading days :
  consecutiveDays getDayOfWeek days →
  Forall (λ d, truthy d = true) days →
  slotsDays ((bucketLoop getDayOfWeek days).1 ++ [(bucketLoop getDayOfWeek days).2])
  = days.
Proof.
  induction days as [|x p IH] using rev_ind; intros Hdays Htruthy; [done|].
  destruct (consecutiveDays_snoc getDayOfWeek p x Hdays) as (Hp & Hx & Hnext).
  apply Forall_app in Htruthy as [Htp Htx]. rewrite Forall_singleton in Htx.
  specialize (IH Hp Htp).
  pose proof (bucketLoop_invariant getDayOfWeek p Hp) as Hinv.
  unfold bucketLoop in *. rewrite foldl_snoc.
  destruct (foldl (bucketStep getDayOfWeek) ([], EMPTY_WEEK) p) as [weeks cur].
  destruct Hinv as (_ & Hc7 & _ & _ & _ & Hcur). simpl in IH.
  unfold bucketStep. rewrite arraySet_in_range by lia.
  assert (∀ r d, cur !! r = Some (SDay d) → r < getDayOfWeek x) as Hfresh.
  { intros r d Hr. destruct (Hcur r d Hr) as (l & Hl & Hrl & Hl6).
    rewrite (Hnext l Hl), Nat.mod_small by lia. lia. }
  assert (slotsDays (weeks ++ [<[getDayOfWeek x := SDay x]> cur]) = p ++ [x])
    as Hnew.
  { rewrite slotsDays_snoc in *.
    rewrite omap_slotDay_insert by (done || lia).
    by rewrite app_assoc, IH. }
  destruct (getDayOfWeek x =? 6); simpl; [|done].
  rewrite slotsDays_snoc, Hnew. simpl. by rewrite app_nil_r.
Qed.

(** The cells of the week columns, read column by column. *)
Lemma renderWeeks_reading size today visits days :
  consecutiveDays getDayOfWeek days →
  Forall (λ d, truthy d = true) days →
  map CalendarCell.date
    (cellsOf (renderWeeks size today visits (bucketWeeks getDayOfWeek days)))
  = days.
Proof.
  intros Hdays Htruthy. unfold renderWeeks. rewrite cellsOf_dates.
  pose proof (bucketLoop_reading days Hdays Htruthy) as Hread.
  unfold bucketWeeks. destruct (bucketLoop getDayOfWeek days) as [weeks cur].
  simpl in Hread.
  destruct (existsb notNull cur) eqn:Hany; [done|].
  rewrite slotsDays_snoc in Hread.
  rewrite omap_slotDay_none, app_nil_r in Hread; [done|].
  intros r d Hr.
  assert (existsb notNull cur = true) as Htrue; [|congruence].
  apply existsb_exists. exists (SDay d). split; [|done].
  apply list_elem_of_In. by eapply list_elem_of_lookup_2.
Qed.

(** X10. Read column by column, the cells of [MonthGrid] are the days
    it was given, each once and in their order: no day of a run of
    consecutive, non-empty day strings is lost, overwritten or shown
    twice, and no other cell is shown. *)
Theorem month_grid_reads_in_order size today visits days :
  consecutiveDays getDayOfWeek days →
  Forall (λ d, truthy d = true) days →
  map CalendarCell.date
    (cellsOf (renderWeeks size today visits (bucketWeeks getDayOfWeek days)))
  = days.
Proof. apply renderWeeks_reading. Qed.

(** The number of week columns. *)
Lemma bucketWeeks_count days :
  consecutiveDays getDayOfWeek days →
  length (bucketWeeks getDayOfWeek days)
  = columnOf getDayOfWeek days (length days)
    + match last days with
      | Some l => if getDayOfWeek l =? 6 then 0 else 1
      | None => 0
      end.
Proof.
  intros Hdays.
  pose proof (bucketLoop_invariant getDayOfWeek days Hdays) as Hinv.
  unfold bucketWeeks. destruct (bucketLoop getDayOfWeek days) as [weeks cur].
  destruct Hinv as (_ & _ & Hlen & Hpos & _ & Hcur).
  destruct (existsb notNull cur) eqn:Hany.
  - apply existsb_exists in Hany as (s & Hs & Hnn).
    destruct s as [| |d]; try discriminate.
    apply list_elem_of_In, list_elem_of_lookup in Hs as [r Hr].
    destruct (Hcur r d Hr) as (l & -> & _ & Hl6).
    rewrite length_app, Hlen. simpl.
    by destruct (Nat.eqb_spec (getDayOfWeek l) 6); [lia|].
  - rewrite Hlen. destruct (last days) as [l|] eqn:Hlast; [|lia].
    destruct (Nat.eqb_spec (getDayOfWeek l) 6) as [H6|H6]; [lia|].
    rewrite last_lookup in Hlast.
    pose proof (lookup_lt_Some _ _ _ Hlast) as Hlt.
    pose proof (Hpos _ _ Hlast) as Hs.
    pose proof (columnOf_S getDayOfWeek _ _ _ Hlast) as Hcol.
    replace (S (pred (length days))) with (length days) in Hcol by lia.
    destruct (Nat.eqb_spec (getDayOfWeek l) 6); [done|].
    rewrite Nat.add_0_r in Hcol. rewrite <- Hcol, <- Hlen in Hs.
    rewrite slotAt_app_last in Hs.
    assert (existsb notNull cur = true) as Htrue; [|congruence].
    apply existsb_exists. exists (SDay l). split; [|done].
    apply list_elem_of_In. by eapply list_elem_of_lookup_2.
Qed.

(** X11. The grid has one column for each Sunday among the days and
    one more when the last day is not a Sunday: the last partial week
    is pushed, an empty week never is, and no days give no column. *)
Theorem bucketWeeks_length days :
  consecutiveDays getDayOfWeek days →
  length (bucketWeeks getDayOfWeek days)
  = columnOf getDayOfWeek days (length days)
    + match last days with
      | Some l => if getDayOfWeek l =? 6 then 0 else 1
      | None => 0
      end.
Proof. apply bucketWeeks_count. Qed.
End WeekColumnsMore.


(** February 2024 again: the month read column by column. *)
Lemma month_grid_reads_in_order_witness :
  let days := calendarMonthDays isoFormat 2024 1 in
  consecutiveDays isoDayOfWeek days
  ∧ Forall (λ d, truthy d = true) days
  ∧ map CalendarCell.date
      (cellsOf (renderWeeks md (isoFormat Sample.now) ["2024-02-13"]
                  (bucketWeeks isoDayOfWeek days)))
    = days.
Proof.
  assert (consecutiveDays isoDayOfWeek (calendarMonthDays isoFormat 2024 1))
    as Hdays.
  { apply consecutiveDaysb_spec. by vm_compute. }
  assert (Forall (λ d, truthy d = true) (calendarMonthDays isoFormat 2024 1))
    as Htruthy.
  { vm_compute. repeat constructor. }
  split; [exact Hdays|]. split; [exact Htruthy|].
  exact (month_grid_reads_in_order isoDayOfWeek md (isoFormat Sample.now)
           ["2024-02-13"] _ Hdays Htruthy).
Defined.

Lemma bucketWeeks_length_witness :
  let days := calendarMonthDays isoFormat 2024 1 in
  consecutiveDays isoDayOfWeek days
  ∧ length (bucketWeeks isoDayOfWeek days)
    = columnOf isoDayOfWeek days (length days)
      + match last days with
        | Some l => if isoDayOfWeek l =? 6 then 0 else 1
        | None => 0
        end.
Proof.
  assert (consecutiveDays isoDayOfWeek (calendarMonthDays isoFormat 2024 1))
    as Hdays.
  { apply consecutiveDaysb_spec. by vm_compute. }
  split; [exact Hdays|].
  exact (bucketWeeks_length isoDayOfWeek _ Hdays).
Defined.


(** * Properties of the FAQ list *)

Lemma elem_of_imap_index {A} (l : list A) i :
  i ∈ imap (λ i _, i) l ↔ i < length l.
Proof.
  split.
  - intros Hi. apply elem_of_lookup_imap_1 in Hi as (j & x & -> & Hx).
    by apply lookup_lt_Some in Hx.
  - intros Hi. destruct (lookup_lt_is_Some_2 l i Hi) as [x Hx].
    by apply (elem_of_lookup_imap_2 (λ i _, i) l x i).
Qed.

(** X13. Toggling an FAQ item flips that item and no other, and doing
    it twice gives the set of expanded items back; [expandAll] expands
    exactly the indices of the displayed items, and [collapseAll]
    leaves none expanded. *)
Theorem toggleItem_flips {A} index (prev : gset nat) (displayed : list A) :
  FAQ.toggleItem index (FAQ.toggleItem index prev) = prev
  ∧ (index ∈ FAQ.toggleItem index prev ↔ index ∉ prev)
  ∧ (∀ j, j ≠ index → (j ∈ FAQ.toggleItem index prev ↔ j ∈ prev))
  ∧ (∀ i, i ∈ FAQ.expandAll displayed ↔ i < length displayed)
  ∧ (∀ i, i ∉ FAQ.collapseAll).
Proof.
  split_and!.
  - unfold FAQ.toggleItem. destruct (decide (index ∈ prev)) as [Hin|Hnot].
    + rewrite decide_False by set_solver.
      apply set_eq. intros j. destruct (decide (j = index)); set_solver.
    + rewrite decide_True by set_solver. set_solver.
  - unfold FAQ.toggleItem. case_decide; set_solver.
  - intros j Hj. unfold FAQ.toggleItem. case_decide; set_solver.
  - intros i. unfold FAQ.expandAll.
    by rewrite elem_of_list_to_set, elem_of_imap_index.
  - intros i. unfold FAQ.collapseAll. set_solver.
Qed.

(** X14. The FAQ shows every item unless there are more items than the
    initial count and "show all" is off; then it shows the first
    [initialDisplayCount] of them, or, for a negative count, all but
    the last so many. The button that switches is there exactly when
    there are more items than the count. *)
Theorem displayedItems_spec {A} (items : list A) initialDisplayCount showAll :
  FAQ.displayedItems items initialDisplayCount showAll
  = if showAll || negb (FAQ.hasMoreItems items initialDisplayCount) then items
    else take (Z.to_nat (if (initialDisplayCount <? 0)%Z
                         then Z.of_nat (length items) + initialDisplayCount
                         else initialDisplayCount)%Z) items.
Proof.
  unfold FAQ.displayedItems, FAQ.hasMoreItems, sliceFromStart.
  destruct showAll; [done|]. simpl.
  destruct (Z.ltb_spec initialDisplayCount (Z.of_nat (length items))); simpl.
  - by destruct (initialDisplayCount <? 0)%Z.
  - destruct (Z.ltb_spec initialDisplayCount 0); [lia|].
    apply take_ge. lia.
Qed.

(** * Properties of the timed challenge *)

Section TimedChallengeProperties.
Variable shuffle : list KanaCharacter.t → list KanaCharacter.t.

Lemma generateOptions_unfold question items count isReverse :
  generateOptions shuffle question items count isReverse
  = getCorrectOption question isReverse
    :: map (optionOf isReverse)
         (sliceFromStart
            (shuffle
               (List.filter
                  (λ item, negb (String.eqb (optionOf isReverse item)
                                   (getCorrectOption question isReverse)))
                  items))
            (count - 1)).
Proof. by destruct isReverse. Qed.

(** X15. With a shuffle that only rearranges and a count of at least
    one, the options of a question start with the correct answer, which
    does not come again among the others; every other option is the
    answer of one of the items; and there are [count] options, or fewer
    when the items do not have that many other answers. *)
Theorem generateOptions_spec question items count isReverse :
  (∀ l, shuffle l ≡ₚ l) →
  (1 ≤ count)%Z →
  let correct := getCorrectOption question isReverse in
  let options := generateOptions shuffle question items count isReverse in
  head options = Some correct
  ∧ (correct ∉ tail options)
  ∧ (∀ o, o ∈ tail options →
          ∃ item, item ∈ items ∧ optionOf isReverse item = o ∧ o ≠ correct)
  ∧ length options
    = Z.to_nat
        (Z.min count
           (1 + Z.of_nat
                  (length
                     (List.filter
                        (λ item, negb (String.eqb (optionOf isReverse item) correct))
                        items)))).
Proof.
  intros Hperm Hcount. cbv zeta. rewrite generateOptions_unfold. simpl.
  set (correct := getCorrectOption question isReverse).
  set (others := List.filter _ items).
  unfold sliceFromStart. destruct (Z.ltb_spec (count - 1) 0); [lia|].
  assert (∀ o, o ∈ map (optionOf isReverse)
                     (take (Z.to_nat (count - 1)) (shuffle others)) →
               ∃ item, item ∈ items ∧ optionOf isReverse item = o ∧ o ≠ correct)
    as Hothers.
  { intros o Ho. apply list_elem_of_fmap in Ho as (item & -> & Hitem).
    apply subseteq_take in Hitem. rewrite Hperm in Hitem.
    apply list_elem_of_In, filter_In in Hitem as [Hin Hne].
    exists item. split_and!; [by apply list_elem_of_In|done|].
    apply negb_true_iff, String.eqb_neq in Hne. done. }
  split_and!.
  - done.
  - intros Hin. by destruct (Hothers _ Hin) as (_ & _ & _ & Hne).
  - exact Hothers.
  - rewrite length_map, length_take, (Permutation_length (Hperm others)). lia.
Qed.
End TimedChallengeProperties.

(** With the identity for a shuffle: three of four kana, two of them
    sharing the romaji of the question. *)
Lemma generateOptions_spec_witness :
  let shuffle := λ l : list KanaCharacter.t, l in
  let ji := KanaCharacter.mk "じ" "ji" in
  let items :=
    [ji; KanaCharacter.mk "ぢ" "ji"; KanaCharacter.mk "か" "ka";
     KanaCharacter.mk "き" "ki"] in
  (∀ l, shuffle l ≡ₚ l)
  ∧ (1 ≤ 4)%Z
  ∧ let correct := getCorrectOption ji false in
    let options := generateOptions shuffle ji items 4 false in
    head options = Some correct
    ∧ (correct ∉ tail options)
    ∧ (∀ o, o ∈ tail options →
            ∃ item, item ∈ items ∧ optionOf false item = o ∧ o ≠ correct)
    ∧ length options
      = Z.to_nat
          (Z.min 4
             (1 + Z.of_nat
                    (length
                       (List.filter
                          (λ item, negb (String.eqb (optionOf false item) correct))
                          items)))).
Proof.
  split; [done|]. split; [lia|].
  apply (generateOptions_spec (λ l, l) (KanaCharacter.mk "じ" "ji")); [done|lia].
Defined.

(** A count of zero makes [slice(0, -1)] of the other answers: all but
    the last of them come after the correct answer. *)
Example generateOptions_count_zero :
  generateOptions (λ l, l) (KanaCharacter.mk "あ" "a")
    [KanaCharacter.mk "あ" "a"; KanaCharacter.mk "か" "ka";
     KanaCharacter.mk "き" "ki"; KanaCharacter.mk "く" "ku"] 0 false
  = ["a"; "ka"; "ki"].
Proof. reflexivity. Qed.

(** * Properties of the selection labels *)

Section KanaLabelProperties.
Variable kana : list KanaGroup.t.

Lemma elem_of_nonChallengeIndices i :
  i ∈ nonChallengeIndices kana
  ↔ ∃ group, kana !! i = Some group ∧ isChallenge group = false.
Proof.
  unfold nonChallengeIndices. rewrite list_elem_of_fmap. split.
  - intros ([j g] & -> & Hin).
    apply list_elem_of_In, filter_In in Hin as [Hin Hc].
    apply list_elem_of_In, elem_of_lookup_imap_1 in Hin as (j' & g' & Heq & Hg).
    injection Heq as -> ->. exists g'. split; [done|].
    by apply negb_true_iff in Hc.
  - intros (g & Hg & Hc). exists (i, g). split; [done|].
    apply list_elem_of_In, filter_In. split.
    + apply list_elem_of_In.
      by apply (elem_of_lookup_imap_2 (λ i k, (i, k)) kana g i).
    + simpl. by rewrite Hc.
Qed.

Lemma allNonChallengeSelected_spec idx :
  allNonChallengeSelected kana idx = true
  ↔ ∀ i, i ∈ nonChallengeIndices kana → i ∈ idx.
Proof.
  unfold allNonChallengeSelected. rewrite forallb_forall. split.
  - intros Hall i Hi. apply list_elem_of_In, Hall in Hi.
    by apply bool_decide_eq_true in Hi.
  - intros Hall i Hi. apply bool_decide_eq_true, Hall. by apply list_elem_of_In.
Qed.

Lemma selectedKanaGroups_unfold idx :
  selectedKanaGroups kana idx
  = if allNonChallengeSelected kana idx
    then "all kana" :: omap (challengeLabelOfIndex kana) idx
    else map (labelOfIndex kana) idx.
Proof.
  unfold selectedKanaGroups. cbv zeta.
  generalize (allNonChallengeSelected kana idx). intros all.
  match goal with
  | |- foldl ?f ?a _ = _ =>
      assert (∀ l acc,
                foldl f acc l
                = acc ++ (if all then omap (challengeLabelOfIndex kana) l
                          else map (labelOfIndex kana) l)) as Hfold
  end.
  { induction l as [|i l IH]; intros acc; simpl.
    - destruct all; by rewrite app_nil_r.
    - rewrite IH. unfold challengeLabelOfIndex, labelOfIndex.
      destruct (kana !! i) as [group|]; destruct all; simpl;
        try destruct (isChallenge group); simpl;
        by rewrite <- ?app_assoc. }
  rewrite Hfold. by destruct all.
Qed.

Lemma kanaGroupNames_unfold idx :
  (kanaGroupNames kana idx).1 = selectedKanaGroups kana idx
  ∧ length (kanaGroupNames kana idx).2 = length (kanaGroupNames kana idx).1.
Proof.
  unfold kanaGroupNames, selectedKanaGroups. cbv zeta.
  generalize (allNonChallengeSelected kana idx). intros all.
  match goal with
  | |- (foldl ?f2 _ _).1 = foldl ?f1 _ _ ∧ _ =>
      assert (∀ l full compact,
                length compact = length full →
                (foldl f2 (full, compact) l).1 = foldl f1 full l
                ∧ length (foldl f2 (full, compact) l).2
                  = length (foldl f2 (full, compact) l).1) as Hfold
  end.
  { induction l as [|i l IH]; intros full compact Hlen; simpl; [done|].
    destruct (kana !! i) as [group|]; destruct all; simpl;
      try destruct (isChallenge group); simpl;
      apply IH; rewrite ?length_app; simpl; lia. }
  destruct all; by apply Hfold.
Qed.

(** X16. The labels the timed challenge shows for a selection of kana
    groups: when every group that is no challenge group is selected,
    "all kana" followed by the labels of the selected challenge groups
    only; otherwise one label for each selected index in the order of
    the selection, with "Group n" for an index the table does not
    have. *)
Theorem selectedKanaGroups_spec idx :
  selectedKanaGroups kana idx
  = if allNonChallengeSelected kana idx
    then "all kana" :: omap (challengeLabelOfIndex kana) idx
    else map (labelOfIndex kana) idx.
Proof. apply selectedKanaGroups_unfold. Qed.

(** X17. The full names of the selection status bar are the labels the
    timed challenge computes for the same selection, and the compact
    names are as many. *)
Theorem kanaGroupNames_agrees idx :
  (kanaGroupNames kana idx).1 = selectedKanaGroups kana idx
  ∧ length (kanaGroupNames kana idx).2 = length (selectedKanaGroups kana idx).
Proof.
  destruct (kanaGroupNames_unfold idx) as [Hfull Hlen].
  split; [done|]. by rewrite Hlen, Hfull.
Qed.

(** X18. A selection that holds exactly the groups that are no
    challenge groups, as "Select All Kana" computes it, in any order
    and with any repetition, is labelled "all kana" and nothing else,
    in the timed challenge and in both texts of the status bar. *)
Theorem select_all_is_all_kana idx :
  (∀ i, i ∈ idx ↔ i ∈ nonChallengeIndices kana) →
  selectedKanaGroups kana idx = ["all kana"]
  ∧ kanaGroupNames kana idx = (["all kana"], [Some "all kana"])
  ∧ formattedSelection (kanaGroupNames kana idx).2 = "all kana".
Proof.
  intros Hidx.
  assert (allNonChallengeSelected kana idx = true) as Hall.
  { apply allNonChallengeSelected_spec. intros i. apply Hidx. }
  assert (∀ l, (∀ i, i ∈ l → i ∈ nonChallengeIndices kana) →
               omap (challengeLabelOfIndex kana) l = []) as Hnone.
  { induction l as [|i l IH]; intros Hl; [done|]. simpl.
    destruct (proj1 (elem_of_nonChallengeIndices i) (Hl i ltac:(left)))
      as (group & Hg & Hc).
    unfold challengeLabelOfIndex at 1. rewrite Hg, Hc.
    apply IH. intros j Hj. apply Hl. by right. }
  assert (selectedKanaGroups kana idx = ["all kana"]) as Hlabels.
  { rewrite selectedKanaGroups_unfold, Hall, Hnone; [done|].
    intros i. apply Hidx. }
  destruct (kanaGroupNames_unfold idx) as [Hfull Hlen].
  rewrite Hlabels in Hfull. rewrite Hfull in Hlen.
  assert (kanaGroupNames kana idx = (["all kana"], [Some "all kana"])) as Hnames.
  { revert Hfull Hlen. unfold kanaGroupNames. cbv zeta. rewrite Hall.
    match goal with
    | |- (foldl ?f ?a idx).1 = _ → _ =>
        assert (∀ l, (∀ i, i ∈ l → i ∈ nonChallengeIndices kana) →
                     foldl f a l = a) as Hfold
    end.
    { induction l as [|i l IH]; intros Hl; [done|]. simpl.
      destruct (proj1 (elem_of_nonChallengeIndices i) (Hl i ltac:(left)))
        as (group & Hg & Hc).
      rewrite Hg, Hc. simpl. apply IH. intros j Hj. apply Hl. by right. }
    rewrite Hfold; [done|]. intros i. apply Hidx. }
  split_and!; [done|done|]. by rewrite Hnames.
Qed.

(** X19. While the status bar is shown on the kana page, that is while
    the selection is not empty, neither of its texts is the "None" it
    keeps for an empty list of names: there is at least one name. *)
Theorem kana_selection_never_none idx :
  idx ≠ [] →
  let names := kanaGroupNames kana idx in
  names.1 ≠ [] ∧ names.2 ≠ []
  ∧ formattedSelection (map Some names.1) = joinWith ", " (map Some names.1)
  ∧ formattedSelection names.2 = joinWith ", " names.2.
Proof.
  intros Hidx. cbv zeta.
  destruct (kanaGroupNames_unfold idx) as [Hfull Hlen].
  assert (0 < length (kanaGroupNames kana idx).1) as Hpos.
  { rewrite Hfull, selectedKanaGroups_unfold.
    destruct (allNonChallengeSelected kana idx); simpl; [lia|].
    rewrite length_map. destruct idx; [done|simpl; lia]. }
  unfold formattedSelection. rewrite length_map, Hlen.
  destruct (Nat.ltb_spec 0 (length (kanaGroupNames kana idx).1)); [|lia].
  split_and!; try done.
  - intros Heq. rewrite Heq in Hpos. simpl in Hpos. lia.
  - intros Heq. rewrite Heq in Hlen. simpl in Hlen. lia.
Qed.
End KanaLabelProperties.

(** A table of two plain groups and a challenge group between them. *)
Lemma select_all_is_all_kana_witness :
  let kana :=
    [KanaGroup.mk "hiragana.a" ["あ"; "い"];
     KanaGroup.mk "challenge.similar" ["ぬ"; "め"];
     KanaGroup.mk "hiragana.ka" ["か"; "き"]] in
  let idx := [2; 0; 2] in
  (∀ i, i ∈ idx ↔ i ∈ nonChallengeIndices kana)
  ∧ selectedKanaGroups kana idx = ["all kana"]
  ∧ kanaGroupNames kana idx = (["all kana"], [Some "all kana"])
  ∧ formattedSelection (kanaGroupNames kana idx).2 = "all kana".
Proof.
  assert (∀ i, i ∈ [2; 0; 2] ↔ i ∈ [0; 2]) as Hidx.
  { intros i. rewrite !elem_of_cons, !elem_of_nil. lia. }
  split; [exact Hidx|].
  apply (select_all_is_all_kana
           [KanaGroup.mk "hiragana.a" ["あ"; "い"];
            KanaGroup.mk "challenge.similar" ["ぬ"; "め"];
            KanaGroup.mk "hiragana.ka" ["か"; "き"]] [2; 0; 2]).
  exact Hidx.
Defined.

Lemma kana_selection_never_none_witness :
  let kana :=
    [KanaGroup.mk "hiragana.a" ["あ"; "い"];
     KanaGroup.mk "challenge.similar" ["ぬ"; "め"];
     KanaGroup.mk "hiragana.ka" ["か"; "き"]] in
  let idx := [1; 7] in
  idx ≠ []
  ∧ let names := kanaGroupNames kana idx in
    names.1 ≠ [] ∧ names.2 ≠ []
    ∧ formattedSelection (map Some names.1) = joinWith ", " (map Some names.1)
    ∧ formattedSelection names.2 = joinWith ", " names.2.
Proof.
  split; [done|].
  apply (kana_selection_never_none
           [KanaGroup.mk "hiragana.a" ["あ"; "い"];
            KanaGroup.mk "challenge.similar" ["ぬ"; "め"];
            KanaGroup.mk "hiragana.ka" ["か"; "き"]] [1; 7]).
  done.
Defined.

(** The labels of a challenge group, of an index past the table, and
    of all three groups with the challenge group among them. *)
Example kana_labels :
  let kana :=
    [KanaGroup.mk "hiragana.a" ["あ"; "い"];
     KanaGroup.mk "challenge.similar" ["ぬ"; "め"];
     KanaGroup.mk "hiragana.ka" ["か"; "き"];
     KanaGroup.mk "hiragana.empty" []] in
  kanaGroupNames kana [1; 7]
  = (["ぬ-group (challenge)"; "Group 8"], [Some "ぬ"; Some "Group 8"])
  ∧ formattedSelection (kanaGroupNames kana [1; 7]).2 = "ぬ, Group 8"
  ∧ selectedKanaGroups kana [0; 1; 2; 3] = ["all kana"; "ぬ-group (challenge)"]
  ∧ kanaGroupNames kana [3; 0]
    = (["undefined-group"; "あ-group"], [None; Some "あ"])
  ∧ formattedSelection (kanaGroupNames kana [3; 0]).2 = ", あ".
Proof. by vm_compute. Qed.

(** * The calendar *)

(** Within a cycle of 400 years the year is found again from the day,
    and the day of the year stays inside the year. *)
Lemma yearOfEra_bounds (doe : Z) :
  (0 ≤ doe < 146097)%Z →
  let yoe := ((doe - doe / 1460 + doe / 36524 - doe / 146096) / 365)%Z in
  let doy := (doe - (365 * yoe + yoe / 4 - yoe / 100))%Z in
  (0 ≤ yoe ≤ 399 ∧ 0 ≤ doy ≤ 365)%Z.
Proof. intros H. cbv zeta. Z.div_mod_to_equations. lia. Qed.

Lemma yearOfEra_recover (yoe doy : Z) :
  (0 ≤ yoe ≤ 399)%Z →
  (0 ≤ doy ≤ 364 + (if isLeapYear (yoe + 1) then 1 else 0))%Z →
  let doe := (yoe * 365 + yoe / 4 - yoe / 100 + doy)%Z in
  (0 ≤ doe < 146097)%Z
  ∧ ((doe - doe / 1460 + doe / 36524 - doe / 146096) / 365)%Z = yoe.
Proof.
  intros Hy Hd. cbv zeta. unfold isLeapYear in Hd.
  destruct (Z.eqb_spec ((yoe + 1) mod 4) 0), (Z.eqb_spec ((yoe + 1) mod 100) 0),
    (Z.eqb_spec ((yoe + 1) mod 400) 0); simpl in Hd;
    split; Z.div_mod_to_equations; lia.
Qed.

(** The civil date of a day number is a date, and it is the date of
    that day. *)
Lemma daysFromCivil_civilFromDays (n : Z) :
  let '(y, m, d) := civilFromDays n in
  daysFromCivil y m d = n ∧ (1 ≤ m ≤ 12)%Z ∧ (1 ≤ d ≤ 31)%Z.
Proof.
  unfold civilFromDays. cbv zeta.
  set (z := (n + 719468)%Z).
  set (era := (z / 146097)%Z).
  set (doe := (z - era * 146097)%Z).
  assert (0 ≤ doe < 146097)%Z as Hdoe.
  { unfold doe, era. Z.div_mod_to_equations. lia. }
  pose proof (yearOfEra_bounds doe Hdoe) as Hb. cbv zeta in Hb.
  set (yoe := ((doe - doe / 1460 + doe / 36524 - doe / 146096) / 365)%Z) in *.
  set (doy := (doe - (365 * yoe + yoe / 4 - yoe / 100))%Z) in *.
  destruct Hb as [Hyoe Hdoy].
  set (mp := ((5 * doy + 2) / 153)%Z).
  assert (0 ≤ mp ≤ 11)%Z as Hmp.
  { unfold mp. Z.div_mod_to_equations. lia. }
  set (d := (doy - (153 * mp + 2) / 5 + 1)%Z).
  assert (1 ≤ d ≤ 31)%Z as Hd.
  { unfold d, mp. Z.div_mod_to_equations. lia. }
  assert (((yoe + era * 400) / 400)%Z = era) as Hera.
  { Z.div_mod_to_equations. lia. }
  destruct (Z.ltb_spec mp 10) as [Hlt|Hge].
  - destruct (Z.leb_spec (mp + 3) 2); [lia|].
    split; [|lia]. unfold daysFromCivil. cbv zeta.
    destruct (Z.leb_spec (mp + 3) 2); [lia|].
    destruct (Z.gtb_spec (mp + 3) 2); [|lia].
    replace (mp + 3 - 3)%Z with mp by lia. rewrite Hera.
    replace (yoe + era * 400 - era * 400)%Z with yoe by lia.
    unfold d, doy, doe, z. lia.
  - destruct (Z.leb_spec (mp - 9) 2); [|lia].
    split; [|lia]. unfold daysFromCivil. cbv zeta.
    destruct (Z.leb_spec (mp - 9) 2); [|lia].
    destruct (Z.gtb_spec (mp - 9) 2); [lia|].
    replace (mp - 9 + 9)%Z with mp by lia.
    replace (yoe + era * 400 + 1 - 1)%Z with (yoe + era * 400)%Z by lia.
    rewrite Hera.
    replace (yoe + era * 400 - era * 400)%Z with yoe by lia.
    unfold d, doy, doe, z. lia.
Qed.

Lemma isLeap_isLeapYear (y : nat) : JSDate.isLeap y = isLeapYear (Z.of_nat y).
Proof.
  unfold JSDate.isLeap, isLeapYear.
  assert (∀ k : nat, 0 < k → (y mod k =? 0) = (Z.of_nat y mod Z.of_nat k =? 0)%Z)
    as Hk.
  { intros k Hk. rewrite <- Nat2Z.inj_mod.
    destruct (Nat.eqb_spec (y mod k) 0), (Z.eqb_spec (Z.of_nat (y mod k)) 0);
      try done; lia. }
  by rewrite (Hk 4), (Hk 100), (Hk 400) by lia.
Qed.

Lemma civilFromDays_daysFromCivil_Z (y m d : Z) :
  (1 ≤ m ≤ 12)%Z →
  (1 ≤ d ≤ (if m =? 2 then (if isLeapYear y then 29 else 28)
            else if (m =? 4) || (m =? 6) || (m =? 9) || (m =? 11) then 30
                 else 31))%Z →
  civilFromDays (daysFromCivil y m d) = (y, m, d).
Proof.
  intros Hm Hd.
  assert (m = 1 ∨ m = 2 ∨ m = 3 ∨ m = 4 ∨ m = 5 ∨ m = 6 ∨ m = 7 ∨ m = 8
          ∨ m = 9 ∨ m = 10 ∨ m = 11 ∨ m = 12)%Z as Hcases by lia.
  clear Hm. unfold daysFromCivil. cbv zeta.
  set (y' := if (m <=? 2)%Z then (y - 1)%Z else y).
  set (era := (y' / 400)%Z).
  set (yoe := (y' - era * 400)%Z).
  set (mp := if (m >? 2)%Z then (m - 3)%Z else (m + 9)%Z).
  set (doy := ((153 * mp + 2) / 5 + d - 1)%Z).
  assert (0 ≤ yoe ≤ 399)%Z as Hyoe.
  { unfold yoe, era. Z.div_mod_to_equations. lia. }
  assert ((0 ≤ mp ≤ 11)%Z ∧ m = (if (mp <? 10)%Z then (mp + 3)%Z else (mp - 9)%Z)
          ∧ y = (if (m <=? 2)%Z then (y' + 1)%Z else y')
          ∧ (0 ≤ doy ≤ 364 + (if isLeapYear (yoe + 1) then 1 else 0))%Z
          ∧ ((5 * doy + 2) / 153)%Z = mp) as (Hmp & HM & HY & Hdoy & Hmpr).
  { unfold doy, mp, y' in *.
    destruct Hcases as [->|[->|[->|[->|[->|[->|[->|[->|[->|[->|[->| ->]]]]]]]]]]];
      simpl in *; split_and!; try lia;
      try (destruct (isLeapYear (yoe + 1)); Z.div_mod_to_equations; lia).
    all: try (Z.div_mod_to_equations; lia).
    - assert (isLeapYear (yoe + 1) = isLeapYear y) as ->.
      { unfold isLeapYear, yoe, era.
        assert (((y - 1 - (y - 1) / 400 * 400 + 1) mod 4)%Z = (y mod 4)%Z) as ->
          by (Z.div_mod_to_equations; lia).
        assert (((y - 1 - (y - 1) / 400 * 400 + 1) mod 100)%Z = (y mod 100)%Z) as ->
          by (Z.div_mod_to_equations; lia).
        assert (((y - 1 - (y - 1) / 400 * 400 + 1) mod 400)%Z = (y mod 400)%Z) as ->
          by (Z.div_mod_to_equations; lia).
        done. }
      destruct (isLeapYear y); Z.div_mod_to_equations; lia.
    - destruct (isLeapYear y); Z.div_mod_to_equations; lia. }
  destruct (yearOfEra_recover yoe doy Hyoe Hdoy) as [Hdoe Hrec].
  cbv zeta in Hdoe, Hrec.
  set (doe := (yoe * 365 + yoe / 4 - yoe / 100 + doy)%Z) in *.
  unfold civilFromDays. cbv zeta.
  replace (era * 146097 + doe - 719468 + 719468)%Z with (era * 146097 + doe)%Z
    by lia.
  assert (((era * 146097 + doe) / 146097)%Z = era) as ->
    by (Z.div_mod_to_equations; lia).
  replace (era * 146097 + doe - era * 146097)%Z with doe by lia.
  rewrite Hrec.
  replace (doe - (365 * yoe + yoe / 4 - yoe / 100))%Z with doy by (unfold doe; lia).
  rewrite Hmpr, <- HM.
  replace (yoe + era * 400)%Z with y' by (unfold yoe; lia).
  rewrite <- HY. f_equal. unfold doy. lia.
Qed.

(** The day number of a date of the calendar is the day of that date. *)
Lemma civilFromDays_daysFromCivil (y m d : nat) :
  m ≤ 11 → 1 ≤ d ≤ JSDate.lastDayOfMonth y m →
  civilFromDays (daysFromCivil (Z.of_nat y) (Z.of_nat (S m)) (Z.of_nat d))
  = (Z.of_nat y, Z.of_nat (S m), Z.of_nat d).
Proof.
  intros Hm Hd. apply civilFromDays_daysFromCivil_Z; [lia|].
  unfold JSDate.lastDayOfMonth in Hd. rewrite isLeap_isLeapYear in Hd.
  do 12 (destruct m as [|m]; [simpl; try destruct (isLeapYear _); lia|]). lia.
Qed.

(** * The days of a year under the ISO model *)

(** The day number of March 1 steps by 365 from one year to the next,
    and by 366 into a leap year. *)
Lemma yearStart_leap (y : nat) :
  let N := λ y : Z, (y / 400 * 146097 + ((y - y / 400 * 400) * 365
             + (y - y / 400 * 400) / 4 - (y - y / 400 * 400) / 100))%Z in
  (N (Z.of_nat y) - N (Z.of_nat y - 1) = 365 + (if JSDate.isLeap y then 1 else 0))%Z.
Proof.
  cbv zeta.
  pose proof (Nat2Z.inj_mod y 4) as H4.
  pose proof (Nat2Z.inj_mod y 100) as H100.
  pose proof (Nat2Z.inj_mod y 400) as H400.
  destruct (JSDate.isLeap y) eqn:Hleap; unfold JSDate.isLeap in Hleap.
  - rewrite orb_true_iff, andb_true_iff, negb_true_iff, !Nat.eqb_eq, Nat.eqb_neq in Hleap.
    zify. Z.div_mod_to_equations. lia.
  - rewrite orb_false_iff, andb_false_iff, negb_false_iff, !Nat.eqb_eq, !Nat.eqb_neq in Hleap.
    zify. Z.div_mod_to_equations. lia.
Qed.

Lemma daysFromCivil_in_year (y m : nat) (d : Z) :
  m ≤ 11 →
  daysFromCivil (Z.of_nat y) (Z.of_nat (S m)) d
  = (daysFromCivil (Z.of_nat y) 1 1
     + Z.of_nat (list_sum (map (JSDate.lastDayOfMonth y) (seq 0 m))) + d - 1)%Z.
Proof.
  intros Hm. pose proof (yearStart_leap y) as Hleap. cbv zeta in Hleap.
  unfold daysFromCivil. cbv zeta.
  change (1 <=? 2)%Z with true. change (1 >? 2)%Z with false. cbv iota.
  assert (m = 0 ∨ m = 1 ∨ m = 2 ∨ m = 3 ∨ m = 4 ∨ m = 5 ∨ m = 6 ∨ m = 7
          ∨ m = 8 ∨ m = 9 ∨ m = 10 ∨ m = 11) as Hcases by lia.
  clear Hm.
  destruct Hcases as [->|[->|[->|[->|[->|[->|[->|[->|[->|[->|[->| ->]]]]]]]]]]];
    cbn [seq map list_sum JSDate.lastDayOfMonth Nat.add];
    destruct (JSDate.isLeap y);
    match goal with
    | |- context [(Z.of_nat ?n <=? 2)%Z] =>
        let b := eval vm_compute in (Z.of_nat n <=? 2)%Z in
        change (Z.of_nat n <=? 2)%Z with b;
        let c := eval vm_compute in (Z.of_nat n >? 2)%Z in
        change (Z.of_nat n >? 2)%Z with c;
        let k := eval vm_compute in (Z.of_nat n) in
        change (Z.of_nat n) with k
    end; cbv iota;
    match goal with
    | |- context [list_sum ?l] =>
        let v := eval vm_compute in (list_sum l) in change (list_sum l) with v
    end;
    Z.div_mod_to_equations; lia.
Qed.

Lemma map_seq_shift {A} (f g : nat → A) a b n :
  (∀ i, i < n → f (a + i) = g (b + i)) → map f (seq a n) = map g (seq b n).
Proof.
  revert a b. induction n as [|n IH]; intros a b Hfg; [done|]. simpl. f_equal.
  - specialize (Hfg 0 ltac:(lia)). by rewrite !Nat.add_0_r in Hfg.
  - apply IH. intros i Hi. specialize (Hfg (S i) ltac:(lia)).
    by rewrite !Nat.add_succ_r in Hfg.
Qed.

Lemma month_day_numbers y m :
  y < 100 * 100 → m ≤ 11 →
  map isoDayNumber
    (map (λ day, isoFormat (JSDate.mk y m day))
       (seq 1 (JSDate.lastDayOfMonth y m)))
  = map (λ i, (daysFromCivil (Z.of_nat y) 1 1 + Z.of_nat i)%Z)
      (seq (list_sum (map (JSDate.lastDayOfMonth y) (seq 0 m)))
         (JSDate.lastDayOfMonth y m)).
Proof.
  intros Hy Hm. rewrite map_map. apply map_seq_shift. intros i Hi.
  pose proof (lastDayOfMonth_le y m).
  rewrite isoDayNumber_isoFormat by (unfold canonical; simpl; lia).
  cbn [JSDate.getFullYear JSDate.getMonth JSDate.getDate].
  rewrite daysFromCivil_in_year by done. lia.
Qed.

Lemma year_day_numbers y :
  y < 100 * 100 →
  map isoDayNumber (calendarYearDays isoFormat y)
  = map (λ i, (daysFromCivil (Z.of_nat (y)) 1 1
               + Z.of_nat i)%Z)
      (seq 0 (if JSDate.isLeap (y) then 366 else 365)).
Proof.
  intros Hy. unfold calendarYearDays, calendarMonthDays. cbn [seq flat_map].
  rewrite !map_app. rewrite !month_day_numbers by lia.
  set (g := λ i : nat, _). clearbody g.
  unfold JSDate.lastDayOfMonth.
  destruct (JSDate.isLeap (y)); reflexivity.
Qed.

Lemma isoDayOfWeek_succ s s' :
  isoDayNumber s' = (isoDayNumber s + 1)%Z →
  isoDayOfWeek s' = (isoDayOfWeek s + 1) mod 7.
Proof.
  intros Hs. unfold isoDayOfWeek. rewrite Hs.
  set (n := isoDayNumber s).
  pose proof (Z.mod_pos_bound (n + 3) 7 ltac:(lia)).
  replace (n + 1 + 3)%Z with ((n + 3) + 1)%Z by lia.
  rewrite Z.add_mod, (Z.mod_small 1 7) by lia.
  set (r := ((n + 3) mod 7)%Z) in *.
  destruct (decide (r = 6%Z)) as [->|Hr]; [reflexivity|].
  rewrite Z.mod_small by lia.
  rewrite Nat.mod_small by lia. lia.
Qed.

Lemma calendarYearDays_consecutive y :
  y < 100 * 100 →
  NoDup (calendarYearDays isoFormat y)
  ∧ consecutiveDays isoDayOfWeek (calendarYearDays isoFormat y).
Proof.
  intros Hy. pose proof (year_day_numbers y Hy) as Hnum. split.
  - apply (NoDup_fmap_1 isoDayNumber).
    change (NoDup (map isoDayNumber (calendarYearDays isoFormat y))).
    rewrite Hnum. apply NoDup_fmap_2_strong; [|apply NoDup_seq].
    intros i j _ _ Hij. lia.
  - split; [intros d _; apply isoDayOfWeek_lt|].
    intros i d d' Hd Hd'. apply isoDayOfWeek_succ.
    assert (map isoDayNumber (calendarYearDays isoFormat y) !! i
            = Some (isoDayNumber d)) as Hi.
    { change (map isoDayNumber ?l) with (isoDayNumber <$> l).
      by rewrite list_lookup_fmap, Hd. }
    assert (map isoDayNumber (calendarYearDays isoFormat y) !! S i
            = Some (isoDayNumber d')) as Hi'.
    { change (map isoDayNumber ?l) with (isoDayNumber <$> l).
      by rewrite list_lookup_fmap, Hd'. }
    rewrite Hnum in Hi, Hi'.
    apply list_lookup_fmap_Some in Hi as (k & Hk & Hseq).
    apply list_lookup_fmap_Some in Hi' as (k' & Hk' & Hseq').
    apply lookup_seq in Hseq as [-> _]. apply lookup_seq in Hseq' as [-> _].
    lia.
Qed.

Lemma length_filter_weekday (g : string → nat) (l : list string) :
  length (filter (λ d, g d = 6) l) = length (filter (λ w, w = 6) (map g l)).
Proof.
  induction l as [|d l IH]; [done|]. simpl.
  rewrite !filter_cons. destruct (decide (g d = 6)); simpl; by rewrite IH.
Qed.

Lemma year_weekdays y :
  y < 100 * 100 →
  ∃ w0, w0 < 7
    ∧ map isoDayOfWeek (calendarYearDays isoFormat y)
      = map (λ i, (w0 + i) mod 7)
          (seq 0 (if JSDate.isLeap (y) then 366 else 365)).
Proof.
  intros Hy. pose proof (year_day_numbers y Hy) as Hnum.
  set (base := daysFromCivil (Z.of_nat (y)) 1 1) in *.
  pose proof (Z.mod_pos_bound (base + 3) 7 ltac:(lia)) as Hb.
  exists (Z.to_nat ((base + 3) mod 7)). split; [lia|].
  transitivity (map (λ z, Z.to_nat ((z + 3) mod 7))
                  (map isoDayNumber (calendarYearDays isoFormat y))).
  { by rewrite map_map. }
  rewrite Hnum, map_map. apply map_ext. intros i.
  pose proof (Z.mod_pos_bound (base + Z.of_nat i + 3) 7 ltac:(lia)).
  apply Nat2Z.inj. rewrite Nat2Z.inj_mod, Nat2Z.inj_add, !Z2Nat.id by lia.
  rewrite Z.add_mod_idemp_l by lia. f_equal. lia.
Qed.

Lemma year_columns y :
  y < 100 * 100 →
  let n := length (bucketWeeks isoDayOfWeek (calendarYearDays isoFormat y)) in
  n = 53 ∨ n = 54.
Proof.
  intros Hy. cbv zeta.
  destruct (calendarYearDays_consecutive y Hy) as [_ Hdays].
  rewrite (bucketWeeks_count isoDayOfWeek _ Hdays).
  destruct (year_weekdays y Hy) as (w0 & Hw0 & Hweek).
  unfold columnOf. rewrite take_ge by done. rewrite length_filter_weekday.
  assert (match last (calendarYearDays isoFormat y) with
          | Some l => if isoDayOfWeek l =? 6 then 0 else 1
          | None => 0
          end
          = match last (map isoDayOfWeek (calendarYearDays isoFormat y)) with
            | Some w => if w =? 6 then 0 else 1
            | None => 0
            end) as ->.
  { change (map isoDayOfWeek ?l) with (isoDayOfWeek <$> l).
    rewrite fmap_last. by destruct (last _). }
  rewrite Hweek. clear Hweek Hdays.
  assert (w0 = 0 ∨ w0 = 1 ∨ w0 = 2 ∨ w0 = 3 ∨ w0 = 4 ∨ w0 = 5 ∨ w0 = 6)
    as Hcases by lia.
  destruct (JSDate.isLeap (y));
    destruct Hcases as [->|[->|[->|[->|[->|[->| ->]]]]]];
    vm_compute; lia.
Qed.


(** * The days of a month under the ISO model *)

(** On consecutive days the days of the week are those of the first
    day, counted on. *)
Lemma consecutiveDays_weekdays (getDayOfWeek : string → nat) d0 rest :
  consecutiveDays getDayOfWeek (d0 :: rest) →
  map getDayOfWeek (d0 :: rest)
  = map (λ i, (getDayOfWeek d0 + i) mod 7) (seq 0 (S (length rest))).
Proof.
  intros [Hlt Hnext].
  assert (∀ i d, (d0 :: rest) !! i = Some d →
                 getDayOfWeek d = (getDayOfWeek d0 + i) mod 7) as Hday.
  { induction i as [|i IH]; intros d Hd.
    - injection Hd as <-. rewrite Nat.add_0_r, Nat.mod_small; [done|].
      apply Hlt. by left.
    - destruct (lookup_lt_is_Some_2 (d0 :: rest) i) as [p Hp].
      { apply lookup_lt_Some in Hd. lia. }
      rewrite (Hnext i p d Hp Hd), (IH p Hp), Nat.Div0.add_mod_idemp_l.
      f_equal. lia. }
  apply list_eq. intros i.
  change (map ?f ?l) with (f <$> l). rewrite !list_lookup_fmap.
  destruct ((d0 :: rest) !! i) as [d|] eqn:Hd.
  - rewrite lookup_seq_lt by (apply lookup_lt_Some in Hd; simpl in Hd; lia).
    simpl. f_equal. by apply Hday.
  - rewrite lookup_seq_ge; [done|]. apply lookup_ge_None in Hd. simpl in Hd. lia.
Qed.

Lemma calendarMonthDays_truthy y m d :
  d ∈ calendarMonthDays isoFormat y m → truthy d = true.
Proof.
  intros Hd. apply list_elem_of_In in Hd. unfold calendarMonthDays in Hd.
  apply in_map_iff in Hd as (day & <- & _). reflexivity.
Qed.

Lemma lastDayOfMonth_cases y m :
  let n := JSDate.lastDayOfMonth y m in n = 28 ∨ n = 29 ∨ n = 30 ∨ n = 31.
Proof.
  unfold JSDate.lastDayOfMonth.
  do 12 (destruct m as [|m]; [try destruct (JSDate.isLeap y); lia|]). lia.
Qed.

Lemma month_columns y m :
  y < 100 * 100 → m ≤ 11 →
  4 ≤ length (bucketWeeks isoDayOfWeek (calendarMonthDays isoFormat y m)) ≤ 6.
Proof.
  intros Hy Hm.
  destruct (calendarMonthDays_consecutive y m Hy Hm) as [_ Hdays].
  rewrite (bucketWeeks_count isoDayOfWeek _ Hdays).
  unfold columnOf. rewrite take_ge by done. rewrite length_filter_weekday.
  assert (match last (calendarMonthDays isoFormat y m) with
          | Some l => if isoDayOfWeek l =? 6 then 0 else 1
          | None => 0
          end
          = match last (map isoDayOfWeek (calendarMonthDays isoFormat y m)) with
            | Some w => if w =? 6 then 0 else 1
            | None => 0
            end) as ->.
  { change (map isoDayOfWeek ?l) with (isoDayOfWeek <$> l).
    rewrite fmap_last. by destruct (last _). }
  assert (length (calendarMonthDays isoFormat y m)
          = JSDate.lastDayOfMonth y m)
    as Hlen.
  { unfold calendarMonthDays. by rewrite length_map, length_seq. }
  pose proof (lastDayOfMonth_cases y m)
    as Hn. cbv zeta in Hn. rewrite <- Hlen in Hn. clear Hlen.
  destruct (calendarMonthDays isoFormat y m) as [|d0 rest]; [simpl in Hn; lia|].
  rewrite (consecutiveDays_weekdays isoDayOfWeek d0 rest Hdays).
  pose proof (isoDayOfWeek_lt d0) as Hw0.
  set (w0 := isoDayOfWeek d0) in *. clearbody w0.
  simpl length in Hn.
  assert (w0 = 0 ∨ w0 = 1 ∨ w0 = 2 ∨ w0 = 3 ∨ w0 = 4 ∨ w0 = 5 ∨ w0 = 6)
    as Hcases by lia.
  assert (length rest = 27 ∨ length rest = 28 ∨ length rest = 29
          ∨ length rest = 30) as Hrest by lia.
  clear Hdays Hn Hw0.
  destruct Hrest as [->|[->|[->| ->]]];
    destruct Hcases as [->|[->|[->|[->|[->|[->| ->]]]]]];
    vm_compute; lia.
Qed.

(** * What [Date] does with local midnights *)

Lemma Day_MakeDate day : Day (MakeDate day 0) = day.
Proof.
  unfold Day, MakeDate, msPerDay. rewrite Z.add_0_r. by apply Z.div_mul.
Qed.

Lemma TimeWithinDay_MakeDate day : TimeWithinDay (MakeDate day 0) = 0%Z.
Proof.
  unfold TimeWithinDay, MakeDate, msPerDay. rewrite Z.add_0_r.
  by apply Z.mod_mul.
Qed.

Lemma TimeClip_Some t : (Z.abs t ≤ 8640000000000000)%Z → TimeClip t = Some t.
Proof. intros Ht. unfold TimeClip. by destruct (Z.leb_spec (Z.abs t) 8640000000000000); [|lia]. Qed.

Lemma TimeClip_inv t u : TimeClip t = Some u → u = t.
Proof. unfold TimeClip. destruct (_ <=? _)%Z; congruence. Qed.

Lemma daysFromCivil_day y m d :
  daysFromCivil y m d = (daysFromCivil y m 1 + d - 1)%Z.
Proof. unfold daysFromCivil. cbv zeta. lia. Qed.

(** [MakeDay] of a month of the year itself. *)
Lemma MakeDay_month (y m : Z) (d : Z) :
  (0 ≤ m ≤ 11)%Z → MakeDay y m d = daysFromCivil y (m + 1) d.
Proof.
  intros Hm. unfold MakeDay.
  rewrite Z.div_small, Z.mod_small, Z.add_0_r by lia.
  by rewrite (daysFromCivil_day y (m + 1) d).
Qed.

(** The first of the month after December is the first of January of
    the next year. *)
Lemma MakeDay_month_12 (y : Z) (d : Z) :
  MakeDay y 12 d = daysFromCivil (y + 1) 1 d.
Proof.
  unfold MakeDay. change (12 / 12)%Z with 1%Z. change (12 mod 12 + 1)%Z with 1%Z.
  by rewrite (daysFromCivil_day (y + 1) 1 d).
Qed.

(** [setDate(getDate() + 1)] asks for the day after. *)
Lemma MakeDay_next t :
  MakeDay (YearFromTime t) (MonthFromTime t) (DateFromTime t + 1) = (Day t + 1)%Z.
Proof.
  unfold YearFromTime, MonthFromTime, DateFromTime.
  pose proof (daysFromCivil_civilFromDays (Day t)) as Hc.
  destruct (civilFromDays (Day t)) as [[y m] d]. simpl.
  destruct Hc as (Heq & Hm & Hd).
  rewrite MakeDay_month by lia. replace (m - 1 + 1)%Z with m by lia.
  rewrite daysFromCivil_day. rewrite daysFromCivil_day in Heq. lia.
Qed.

(** The calendar date of a local time that falls on a day of the
    calendar. *)
Lemma calendarDate_day (y m d : nat) t :
  m ≤ 11 → 1 ≤ d ≤ JSDate.lastDayOfMonth y m →
  Day t = daysFromCivil (Z.of_nat y) (Z.of_nat (S m)) (Z.of_nat d) →
  calendarDate t = JSDate.mk y m d.
Proof.
  intros Hm Hd Ht. unfold calendarDate, YearFromTime, MonthFromTime, DateFromTime.
  rewrite Ht, civilFromDays_daysFromCivil by done. simpl.
  rewrite !Nat2Z.id. f_equal. lia.
Qed.

(** The year after starts 365 days later, 366 after a leap year. *)
Lemma year_length (y : nat) :
  daysFromCivil (Z.of_nat y + 1) 1 1
  = (daysFromCivil (Z.of_nat y) 1 1
     + Z.of_nat (if JSDate.isLeap y then 366 else 365))%Z.
Proof.
  pose proof (yearStart_leap y) as Hleap. cbv zeta in Hleap.
  unfold daysFromCivil. cbv zeta.
  change (1 <=? 2)%Z with true. change (1 >? 2)%Z with false. cbv iota.
  replace (Z.of_nat y + 1 - 1)%Z with (Z.of_nat y) by lia.
  destruct (JSDate.isLeap y); lia.
Qed.

(** The days of a month and of a year by their day numbers. *)
Lemma calendarMonthDays_numbers formatDate y m :
  m ≤ 11 →
  calendarMonthDays formatDate y m
  = map (λ i, formatDate
                (calendarDate
                   (MakeDate (daysFromCivil (Z.of_nat y) 1 1 + Z.of_nat i) 0)))
      (seq (list_sum (map (JSDate.lastDayOfMonth y) (seq 0 m)))
         (JSDate.lastDayOfMonth y m)).
Proof.
  intros Hm. unfold calendarMonthDays. apply map_seq_shift. intros i Hi.
  f_equal. symmetry. apply calendarDate_day; [done|lia|].
  rewrite Day_MakeDate, daysFromCivil_in_year by done. lia.
Qed.

Lemma calendarYearDays_numbers formatDate y :
  calendarYearDays formatDate y
  = map (λ i, formatDate
                (calendarDate
                   (MakeDate (daysFromCivil (Z.of_nat y) 1 1 + Z.of_nat i) 0)))
      (seq 0 (if JSDate.isLeap y then 366 else 365)).
Proof.
  unfold calendarYearDays. cbn [seq flat_map].
  rewrite !calendarMonthDays_numbers by lia.
  set (g := λ i : nat, _). clearbody g.
  unfold JSDate.lastDayOfMonth.
  destruct (JSDate.isLeap y); reflexivity.
Qed.

Section YearWalk.
Variable zone : TimeZone.t.
Variable formatDate : JSDate.t → string.

(** The loop from the midnight of day [first + k] on, when the [n]
    midnights from [first] on exist, none of them is after [endDate],
    and the midnight after them is. *)
Lemma yearLoop_walk (first : Z) (n : nat) (endDate : Z) :
  (∀ i, i < n → midnightExists zone (first + Z.of_nat i)) →
  (∀ i, i < n →
     (TimeZone.UTC zone (MakeDate (first + Z.of_nat i) 0) ≤ endDate)%Z) →
  (endDate < TimeZone.UTC zone (MakeDate (first + Z.of_nat n) 0))%Z →
  ∀ j k yearDays fuel,
    k + j = n → 1 ≤ j → j < fuel →
    yearLoop zone formatDate fuel
      (TimeZone.UTC zone (MakeDate (first + Z.of_nat k) 0)) endDate yearDays
    = Some (yearDays
            ++ map (λ i, formatDate
                           (calendarDate (MakeDate (first + Z.of_nat i) 0)))
                 (seq k j)).
Proof.
  intros Hmid Hle Hafter. induction j as [|j IH]; intros k yearDays fuel Hk Hj Hfuel;
    [lia|].
  destruct fuel as [|fuel]; [lia|]. simpl.
  destruct (Hmid k ltac:(lia)) as [Hvalid Hlocal].
  destruct (Z.leb_spec (TimeZone.UTC zone (MakeDate (first + Z.of_nat k) 0)) endDate)
    as [_|Hgt]; [|specialize (Hle k ltac:(lia)); lia].
  unfold localDate, setDate, getDate. rewrite Hlocal.
  rewrite MakeDay_next, Day_MakeDate, TimeWithinDay_MakeDate.
  replace (first + Z.of_nat k + 1)%Z with (first + Z.of_nat (S k))%Z by lia.
  destruct (decide (j = 0)) as [->|Hj0].
  - assert (S k = n) as Hn by lia. rewrite Hn.
    destruct (TimeClip _) as [t|] eqn:Hclip; [|done].
    apply TimeClip_inv in Hclip as ->.
    destruct fuel as [|fuel]; [lia|]. simpl.
    by destruct (Z.leb_spec (TimeZone.UTC zone (MakeDate (first + Z.of_nat n) 0))
                   endDate) as [Hle'|_]; [lia|].
  - destruct (Hmid (S k) ltac:(lia)) as [Hvalid' _].
    rewrite (TimeClip_Some _ Hvalid').
    rewrite (IH (S k)) by lia. by rewrite <- app_assoc.
Qed.
End YearWalk.

(** In a year in which every local midnight exists, [getFullYearDays]
    returns, and returns the days of the year. *)
Lemma getFullYearDays_calendar zone formatDate fuel now :
  let y := JSDate.getFullYear now in
  100 ≤ y → regularYear zone y → 366 < fuel →
  getFullYearDays zone formatDate fuel now = Some (calendarYearDays formatDate y).
Proof.
  destruct now as [y m0 d0]. unfold getFullYearDays.
  cbn [JSDate.getFullYear]. cbv zeta. intros Hy [Hmid Hmono] Hfuel.
  pose proof (year_length y) as Hlen.
  set (n := if JSDate.isLeap y then 366 else 365) in *.
  set (first := daysFromCivil (Z.of_nat y) 1 1) in *.
  cbv zeta in Hmid, Hmono. rewrite Hlen in Hmid, Hmono.
  assert (1 ≤ n ≤ 366) as Hn by (unfold n; destruct (JSDate.isLeap y); lia).
  assert (MakeDay (Z.of_nat y) 11 31 = first + Z.of_nat (n - 1))%Z as Hend.
  { rewrite MakeDay_month by lia.
    rewrite (daysFromCivil_in_year y 11) by lia.
    unfold n, JSDate.lastDayOfMonth. cbn [seq map].
    destruct (JSDate.isLeap y); vm_compute list_sum; lia. }
  assert (MakeDay (Z.of_nat y) 0 1 = first + Z.of_nat 0)%Z as Hstart.
  { rewrite MakeDay_month by lia. change (0 + 1)%Z with 1%Z.
    change (Z.of_nat 0) with 0%Z. unfold first. lia. }
  unfold newDate. cbv zeta.
  destruct (Z.leb_spec (Z.of_nat y) 99); [lia|]. rewrite andb_false_r.
  rewrite Hstart, Hend.
  destruct (Hmid (first + Z.of_nat 0)%Z ltac:(lia)) as [Hv0 _].
  destruct (Hmid (first + Z.of_nat (n - 1))%Z ltac:(lia)) as [Hve _].
  rewrite (TimeClip_Some _ Hv0), (TimeClip_Some _ Hve).
  set (endDate := TimeZone.UTC zone (MakeDate (first + Z.of_nat (n - 1)) 0)).
  assert (∀ i, i < n → midnightExists zone (first + Z.of_nat i)) as H1.
  { intros i Hi. apply Hmid. lia. }
  assert (∀ i, i < n →
            (TimeZone.UTC zone (MakeDate (first + Z.of_nat i) 0) ≤ endDate)%Z)
    as H2.
  { intros i Hi. destruct (decide (i = n - 1)) as [->|Hne]; [done|].
    apply Z.lt_le_incl, Hmono; lia. }
  assert (endDate < TimeZone.UTC zone (MakeDate (first + Z.of_nat n) 0))%Z as H3.
  { apply Hmono; lia. }
  rewrite (yearLoop_walk zone formatDate first n endDate H1 H2 H3 n 0 [] fuel)
    by lia.
  by rewrite calendarYearDays_numbers.
Qed.

(** In a month in which every local midnight gives a time of its own
    day, [getFullMonthDays] returns the days of the month. *)
Lemma getFullMonthDays_calendar zone formatDate formatInvalidDate now :
  let y := JSDate.getFullYear now in
  let m := JSDate.getMonth now in
  100 ≤ y → m ≤ 11 → regularMonth zone y m →
  getFullMonthDays zone formatDate formatInvalidDate now
  = calendarMonthDays formatDate y m.
Proof.
  destruct now as [y m d0]. unfold getFullMonthDays.
  cbn [JSDate.getFullYear JSDate.getMonth]. cbv zeta. intros Hy Hm Hreg.
  pose proof (lastDayOfMonth_cases y m) as Hlast. cbv zeta in Hlast.
  set (last := JSDate.lastDayOfMonth y m) in *.
  assert (MakeDay (Z.of_nat y) (Z.of_nat m + 1) 0
          = daysFromCivil (Z.of_nat y) (Z.of_nat (S m)) (Z.of_nat last)) as Hend.
  { destruct (decide (m = 11)) as [Hm11|Hm11].
    - rewrite Hm11. change (Z.of_nat 11 + 1)%Z with 12%Z.
      rewrite MakeDay_month_12, (daysFromCivil_day _ 1 0), year_length.
      rewrite (daysFromCivil_in_year y 11) by lia.
      unfold last. rewrite Hm11. unfold JSDate.lastDayOfMonth. cbn [seq map].
      destruct (JSDate.isLeap y); vm_compute list_sum; lia.
    - rewrite MakeDay_month by lia.
      replace (Z.of_nat m + 1 + 1)%Z with (Z.of_nat (S (S m))) by lia.
      rewrite (daysFromCivil_in_year y (S m)), (daysFromCivil_in_year y m) by lia.
      rewrite seq_S, map_app, list_sum_app. simpl. fold last. lia. }
  unfold newDate. cbv zeta.
  destruct (Z.leb_spec (Z.of_nat y) 99); [lia|]. rewrite andb_false_r.
  rewrite Hend.
  destruct (Hreg last ltac:(lia)) as [Hvalid Hday].
  rewrite (TimeClip_Some _ Hvalid). unfold getDate, DateFromTime.
  rewrite Hday, civilFromDays_daysFromCivil by (done || lia). simpl.
  unfold calendarMonthDays. fold last.
  unfold seqZ. rewrite Nat2Z.id. change (?f <$> ?l) with (map f l).
  rewrite map_map. apply map_seq_shift. intros i Hi.
  replace (Z.of_nat (0 + i) + 1)%Z with (Z.of_nat (1 + i)) by lia.
  rewrite MakeDay_month by lia.
  replace (Z.of_nat m + 1)%Z with (Z.of_nat (S m)) by lia.
  destruct (Hreg (1 + i) ltac:(fold last; lia)) as [Hvalid' Hday'].
  rewrite (TimeClip_Some _ Hvalid'). unfold formatDateOf, localDate.
  f_equal. apply calendarDate_day; [done|fold last; lia|done].
Qed.

(** * The year grid and the month grid under the ISO model *)

Lemma yearRows_cell today visits (weeks : list (list Slot)) r c :
  r < 7 →
  (yearRows today visits weeks !! r ≫= λ row, row !! c)
  = (λ week,
       renderSlot (λ d v f, DayCell d v f sm) today visits
         (default SHole (week !! r)))
    <$> weeks !! c.
Proof.
  intros Hr. unfold yearRows.
  change (map ?f ?l) with (f <$> l).
  rewrite list_lookup_fmap, (lookup_seq_lt 0 (length DAY_LABELS) r Hr). simpl.
  by rewrite list_lookup_fmap.
Qed.

Lemma calendarYearDays_truthy y d :
  d ∈ calendarYearDays isoFormat y → truthy d = true.
Proof.
  intros Hd. apply list_elem_of_In in Hd.
  unfold calendarYearDays, calendarMonthDays in Hd.
  apply in_flat_map in Hd as (m & _ & Hd).
  apply in_map_iff in Hd as (day & <- & _). reflexivity.
Qed.

Lemma calendarYearDays_ends formatDate y :
  head (calendarYearDays formatDate y) = Some (formatDate (JSDate.mk y 0 1))
  ∧ last (calendarYearDays formatDate y) = Some (formatDate (JSDate.mk y 11 31)).
Proof.
  unfold calendarYearDays, calendarMonthDays. split; [reflexivity|].
  cbn [seq flat_map]. rewrite !app_assoc, app_nil_r.
  change (JSDate.lastDayOfMonth y 11) with 31.
  change 31 with (30 + 1) at 1. rewrite seq_app, map_app, app_assoc.
  apply last_snoc.
Qed.

(** The days of a year under the ISO model: 365 or 366 distinct days,
    each the day after the one before. *)
Lemma calendarYearDays_iso y :
  y < 100 * 100 →
  let days := calendarYearDays isoFormat y in
  head days = Some (isoFormat (JSDate.mk y 0 1))
  ∧ last days = Some (isoFormat (JSDate.mk y 11 31))
  ∧ length days = (if JSDate.isLeap y then 366 else 365)
  ∧ NoDup days
  ∧ (∀ i d d', days !! i = Some d → days !! S i = Some d' →
       isoDayNumber d' = (isoDayNumber d + 1)%Z
       ∧ isoDayOfWeek d' = (isoDayOfWeek d + 1) mod 7).
Proof.
  intros Hy. cbv zeta.
  destruct (calendarYearDays_ends isoFormat y) as [Hhead Hlast].
  destruct (calendarYearDays_consecutive y Hy) as [Hnodup [_ Hnext]].
  pose proof (year_day_numbers y Hy) as Hnum.
  split_and!; try done.
  - apply (f_equal length) in Hnum. by rewrite !length_map, length_seq in Hnum.
  - intros i d d' Hd Hd'. split; [|by apply (Hnext i)].
    assert (map isoDayNumber (calendarYearDays isoFormat y) !! i
            = Some (isoDayNumber d)) as Hi.
    { change (map isoDayNumber ?l) with (isoDayNumber <$> l).
      by rewrite list_lookup_fmap, Hd. }
    assert (map isoDayNumber (calendarYearDays isoFormat y) !! S i
            = Some (isoDayNumber d')) as Hi'.
    { change (map isoDayNumber ?l) with (isoDayNumber <$> l).
      by rewrite list_lookup_fmap, Hd'. }
    rewrite Hnum in Hi, Hi'.
    apply list_lookup_fmap_Some in Hi as (k & Hk & Hseq).
    apply list_lookup_fmap_Some in Hi' as (k' & Hk' & Hseq').
    apply lookup_seq in Hseq as [-> _]. apply lookup_seq in Hseq' as [-> _].
    lia.
Qed.

(** The rows of the year grid for the days of a year. *)
Lemma yearRows_iso y today visits :
  y < 100 * 100 →
  let days := calendarYearDays isoFormat y in
  let grid := yearRows today visits (bucketWeeks isoDayOfWeek days) in
  length grid = 7
  ∧ (∃ n, (n = 53 ∨ n = 54) ∧ Forall (λ row, length row = n) grid)
  ∧ (∀ i d, days !! i = Some d →
       (grid !! isoDayOfWeek d ≫= λ row, row !! columnOf isoDayOfWeek days i)
       = Some (Some
           (CalendarCell.mk d (hasVisit visits d) (isFutureDate today d)
              (DayCell d (hasVisit visits d) (isFutureDate today d) sm))))
  ∧ (∀ r c cell, (grid !! r ≫= λ row, row !! c) = Some (Some cell) →
       ∃ i, days !! i = Some (CalendarCell.date cell)
            ∧ r = isoDayOfWeek (CalendarCell.date cell)
            ∧ c = columnOf isoDayOfWeek days i).
Proof.
  intros Hy. cbv zeta.
  destruct (calendarYearDays_consecutive y Hy) as [Hnodup Hdays].
  destruct (bucketWeeks_columns isoDayOfWeek _ Hnodup Hdays)
    as (H7 & Hpos & Huniq & Honly & _).
  set (days := calendarYearDays isoFormat y) in *.
  set (weeks := bucketWeeks isoDayOfWeek days) in *.
  assert (length (yearRows today visits weeks) = 7) as Hrows.
  { unfold yearRows. by rewrite length_map, length_seq. }
  split_and!.
  - exact Hrows.
  - exists (length weeks). split; [apply (year_columns y Hy)|].
    apply Forall_forall. intros row Hrow. unfold yearRows in Hrow.
    apply list_elem_of_fmap in Hrow as (r & -> & _). by rewrite length_map.
  - intros i d Hd.
    rewrite yearRows_cell by (destruct Hdays as [Hlt _]; apply Hlt;
                              by eapply list_elem_of_lookup_2).
    specialize (Hpos i d Hd). unfold slotAt in Hpos.
    destruct (weeks !! columnOf isoDayOfWeek days i) as [week|]; [|done].
    simpl in Hpos. simpl. rewrite Hpos. simpl. unfold renderSlot. simpl.
    rewrite (calendarYearDays_truthy y d); [done|].
    by eapply list_elem_of_lookup_2.
  - intros r c cell Hcell.
    assert (r < 7) as Hr.
    { rewrite <- Hrows. apply lookup_lt_is_Some.
      destruct (yearRows today visits weeks !! r); [eauto|done]. }
    rewrite yearRows_cell in Hcell by done.
    destruct (weeks !! c) as [week|] eqn:Hweek; [|done].
    simpl in Hcell. injection Hcell as Hcell. unfold renderSlot in Hcell.
    destruct (week !! r) as [slot|] eqn:Hslot; [|done]. simpl in Hcell.
    destruct slot as [| |day]; try done. simpl in Hcell.
    destruct (truthy day); [|done]. injection Hcell as <-. simpl.
    assert (slotAt weeks c r = Some (SDay day)) as Hs.
    { unfold slotAt. by rewrite Hweek. }
    pose proof (Honly c r day Hs) as Hin.
    apply list_elem_of_lookup in Hin as [i Hi]. exists i.
    destruct (Huniq i day c r Hi Hs) as [-> ->]. done.
Qed.

(** On consecutive days the loop writes inside the seven places of a
    week: no week gets a hole. *)
Lemma bucketWeeks_no_hole (getDayOfWeek : string → nat) days :
  consecutiveDays getDayOfWeek days →
  Forall (Forall (λ s, s ≠ SHole)) (bucketWeeks getDayOfWeek days).
Proof.
  intros Hdays.
  assert (Forall (Forall (λ s, s ≠ SHole)) (bucketLoop getDayOfWeek days).1
          ∧ Forall (λ s, s ≠ SHole) (bucketLoop getDayOfWeek days).2) as Hloop.
  { induction days as [|x p IH] using rev_ind.
    - split; [by apply Forall_nil|]. by repeat constructor.
    - destruct (consecutiveDays_snoc getDayOfWeek p x Hdays) as (Hp & Hx & Hnext).
      specialize (IH Hp).
      pose proof (bucketLoop_invariant getDayOfWeek p Hp) as Hinv.
      unfold bucketLoop in *. rewrite foldl_snoc.
      destruct (foldl (bucketStep getDayOfWeek) ([], EMPTY_WEEK) p) as [weeks cur].
      destruct Hinv as (_ & Hc7 & _). destruct IH as [Hweeks Hcur].
      simpl in Hweeks, Hcur.
      unfold bucketStep. rewrite arraySet_in_range by lia.
      assert (Forall (λ s, s ≠ SHole) (<[getDayOfWeek x := SDay x]> cur)) as Hnew.
      { by apply Forall_insert. }
      destruct (getDayOfWeek x =? 6); simpl.
      + split; [|by repeat constructor].
        apply Forall_app. split; [done|]. by apply Forall_singleton.
      + done. }
  unfold bucketWeeks. destruct (bucketLoop getDayOfWeek days) as [weeks cur].
  destruct Hloop as [Hweeks Hcur]. simpl in Hweeks, Hcur.
  destruct (existsb notNull cur); [|done].
  apply Forall_app. split; [done|]. by apply Forall_singleton.
Qed.

Lemma mapArray_dense {B} (f : Slot → B) (week : list Slot) :
  Forall (λ s, s ≠ SHole) week → mapArray f week = map f week.
Proof.
  unfold mapArray. induction 1 as [|s week Hs _ IH]; [done|].
  destruct s; [|done|]; simpl; f_equal; exact IH.
Qed.

(** X21. In a zone where every local midnight of the year exists and
    later midnights are later times, for the years 100 to 9999 and
    with ISO strings, [getFullYearDays] returns once the loop has the
    rounds it needs, and what it returns are the days of the year from
    January 1 to December 31: 365 of them or 366 in a leap year, each
    once, and each the calendar day after the one before it, also
    from the last day of a month to the first of the next. *)
Theorem year_days_continuous zone fuel now :
  let y := JSDate.getFullYear now in
  100 ≤ y < 100 * 100 →
  regularYear zone y →
  366 < fuel →
  let days := calendarYearDays isoFormat y in
  getFullYearDays zone isoFormat fuel now = Some days
  ∧ head days = Some (isoFormat (JSDate.mk y 0 1))
  ∧ last days = Some (isoFormat (JSDate.mk y 11 31))
  ∧ length days = (if JSDate.isLeap y then 366 else 365)
  ∧ NoDup days
  ∧ (∀ i d d', days !! i = Some d → days !! S i = Some d' →
       isoDayNumber d' = (isoDayNumber d + 1)%Z
       ∧ isoDayOfWeek d' = (isoDayOfWeek d + 1) mod 7).
Proof.
  cbv zeta. intros [Hy Hy'] Hreg Hfuel.
  split; [by apply getFullYearDays_calendar|].
  by apply calendarYearDays_iso.
Qed.

(** X22. In such a zone and for such a year, with ISO strings and the
    day of the week read from them, [YearGrid] has seven rows of 53 or
    54 cells and boxes; every day of the year has its cell at the row
    of its day of the week and in the column that counts the Sundays
    before it, rendered by [DayCell] at size sm from whether the day
    is visited and whether it is after today; and every cell of the
    grid is such a day at that place. *)
Theorem year_grid_iso zone fuel now visits :
  let y := JSDate.getFullYear now in
  100 ≤ y < 100 * 100 →
  regularYear zone y →
  366 < fuel →
  let days := calendarYearDays isoFormat y in
  ∃ grid,
    YearGrid zone isoFormat isoDayOfWeek fuel now visits = Some grid
    ∧ length grid = 7
    ∧ (∃ n, (n = 53 ∨ n = 54) ∧ Forall (λ row, length row = n) grid)
    ∧ (∀ i d, days !! i = Some d →
         (grid !! isoDayOfWeek d ≫= λ row, row !! columnOf isoDayOfWeek days i)
         = Some (Some
             (CalendarCell.mk d (hasVisit visits d)
                (isFutureDate (isoFormat now) d)
                (DayCell d (hasVisit visits d)
                   (isFutureDate (isoFormat now) d) sm))))
    ∧ (∀ r c cell, (grid !! r ≫= λ row, row !! c) = Some (Some cell) →
         ∃ i, days !! i = Some (CalendarCell.date cell)
              ∧ r = isoDayOfWeek (CalendarCell.date cell)
              ∧ c = columnOf isoDayOfWeek days i).
Proof.
  cbv zeta. intros [Hy Hy'] Hreg Hfuel.
  eexists. split.
  - unfold YearGrid.
    by rewrite (getFullYearDays_calendar zone isoFormat fuel now Hy Hreg Hfuel).
  - by apply yearRows_iso.
Qed.

(** X23. In a zone where local midnight of every day of the month
    gives a time of that day, for the years 100 to 9999 and with ISO
    strings and the day of the week read from them: [getFullMonthDays]
    returns the days of the month from the first to the last;
    [MonthGrid] has four to six week columns of seven places; read
    column by column its cells are those days, each once; and every
    day has its cell in the column that counts the Sundays before it,
    at the row of its day of the week, rendered by [DayCell] at size
    md from whether the day is visited and whether it is after
    today. *)
Theorem month_grid_iso zone formatInvalidDate now visits :
  let y := JSDate.getFullYear now in
  let m := JSDate.getMonth now in
  100 ≤ y < 100 * 100 → m ≤ 11 →
  regularMonth zone y m →
  let days := calendarMonthDays isoFormat y m in
  let grid := MonthGrid zone isoFormat formatInvalidDate isoDayOfWeek now visits in
  getFullMonthDays zone isoFormat formatInvalidDate now = days
  ∧ length days = JSDate.lastDayOfMonth y m
  ∧ 4 ≤ length grid ≤ 6
  ∧ Forall (λ column, length column = 7) grid
  ∧ map CalendarCell.date (cellsOf grid) = days
  ∧ (∀ i d, days !! i = Some d →
       (grid !! columnOf isoDayOfWeek days i ≫= λ column, column !! isoDayOfWeek d)
       = Some (Some
           (CalendarCell.mk d (hasVisit visits d)
              (isFutureDate (isoFormat now) d)
              (DayCell d (hasVisit visits d)
                 (isFutureDate (isoFormat now) d) md)))).
Proof.
  cbv zeta. intros [Hy Hy'] Hm Hreg.
  pose proof (getFullMonthDays_calendar zone isoFormat formatInvalidDate now
                Hy Hm Hreg) as Hdays'.
  set (y := JSDate.getFullYear now) in *. set (m := JSDate.getMonth now) in *.
  destruct (calendarMonthDays_consecutive y m Hy' Hm) as [Hnodup Hdays].
  destruct (bucketWeeks_columns isoDayOfWeek _ Hnodup Hdays)
    as (H7 & Hpos & _).
  unfold MonthGrid, renderWeeks. rewrite Hdays'.
  assert (∀ week : list Slot,
            week ∈ bucketWeeks isoDayOfWeek (calendarMonthDays isoFormat y m) →
            mapArray (renderSlot (λ d v f, DayCell d v f md) (isoFormat now) visits)
              week
            = map (renderSlot (λ d v f, DayCell d v f md) (isoFormat now) visits)
                week) as Hdense.
  { intros week Hweek. apply mapArray_dense.
    pose proof (bucketWeeks_no_hole isoDayOfWeek _ Hdays) as Hno.
    rewrite Forall_forall in Hno. by apply Hno. }
  split_and!.
  - done.
  - unfold calendarMonthDays. by rewrite length_map, length_seq.
  - rewrite length_map. apply (month_columns y m Hy' Hm).
  - rewrite length_map. apply (month_columns y m Hy' Hm).
  - apply Forall_fmap. apply Forall_forall. intros week Hweek. simpl.
    rewrite (Hdense week Hweek), length_map.
    rewrite Forall_forall in H7. by apply H7.
  - apply (renderWeeks_reading isoDayOfWeek md (isoFormat now) visits _ Hdays).
    apply Forall_forall. intros d Hd. by apply (calendarMonthDays_truthy y m).
  - intros i d Hd. specialize (Hpos i d Hd). unfold slotAt in Hpos.
    change (map ?f ?l) with (f <$> l). rewrite list_lookup_fmap.
    destruct (bucketWeeks isoDayOfWeek (calendarMonthDays isoFormat y m)
                !! columnOf isoDayOfWeek (calendarMonthDays isoFormat y m) i)
      as [week|] eqn:Hweek; [|done].
    simpl in Hpos. simpl.
    rewrite (Hdense week) by (by eapply list_elem_of_lookup_2).
    change (map ?f ?l) with (f <$> l).
    rewrite list_lookup_fmap, Hpos. simpl. unfold renderSlot. simpl.
    rewrite (calendarMonthDays_truthy y m d); [done|].
    by eapply list_elem_of_lookup_2.
Qed.

(** * Sample zones *)

Lemma daysFromCivil_bounds (y : nat) (m d : Z) :
  y ≤ 100 * 100 → (1 ≤ m ≤ 12)%Z → (1 ≤ d ≤ 31)%Z →
  (- 720000 ≤ daysFromCivil (Z.of_nat y) m d ≤ 3000000)%Z.
Proof.
  intros Hy Hm Hd. unfold daysFromCivil. cbv zeta.
  destruct (Z.leb_spec m 2), (Z.gtb_spec m 2); try lia;
    Z.div_mod_to_equations; lia.
Qed.

(** Two hours ahead of UTC all year, every local midnight exists. *)
Lemma utcPlus2_regularYear y : y < 100 * 100 → regularYear Sample.utcPlus2 y.
Proof.
  intros Hy. unfold regularYear. cbv zeta.
  pose proof (daysFromCivil_bounds y 1 1 ltac:(lia) ltac:(lia) ltac:(lia)) as H1.
  pose proof (daysFromCivil_bounds (S y) 1 1 ltac:(lia) ltac:(lia) ltac:(lia))
    as H2.
  replace (Z.of_nat (S y)) with (Z.of_nat y + 1)%Z in H2 by lia.
  split.
  - intros day Hday. unfold midnightExists, MakeDate, msPerDay. simpl. lia.
  - intros a b Ha Hab Hb. unfold MakeDate, msPerDay. simpl. lia.
Qed.

(** April 2024 in Cairo: midnight of the 26th does not exist, and the
    date made for it is 01:00 of the same day. *)
Lemma cairo2024_april : regularMonth Sample.cairo2024 2024 3.
Proof.
  intros day Hday. change (JSDate.lastDayOfMonth 2024 3) with 30 in Hday.
  assert (day = 1 ∨ day = 2 ∨ day = 3 ∨ day = 4 ∨ day = 5 ∨ day = 6 ∨ day = 7
          ∨ day = 8 ∨ day = 9 ∨ day = 10 ∨ day = 11 ∨ day = 12 ∨ day = 13
          ∨ day = 14 ∨ day = 15 ∨ day = 16 ∨ day = 17 ∨ day = 18 ∨ day = 19
          ∨ day = 20 ∨ day = 21 ∨ day = 22 ∨ day = 23 ∨ day = 24 ∨ day = 25
          ∨ day = 26 ∨ day = 27 ∨ day = 28 ∨ day = 29 ∨ day = 30) as Hcases
    by lia.
  repeat (destruct Hcases as [->|Hcases]; [by vm_compute|]).
  subst day. by vm_compute.
Qed.

Example cairo2024_midnights :
  let midnight := λ m d : Z, MakeDate (daysFromCivil 2024 m d) 0 in
  let there := λ t, TimeZone.LocalTime Sample.cairo2024
                      (TimeZone.UTC Sample.cairo2024 t) in
  (there (midnight 4 25) = midnight 4 25
   ∧ there (midnight 4 26) = midnight 4 26 + 3600000
   ∧ there (midnight 4 27) = midnight 4 27
   ∧ there (midnight 11 1) = midnight 11 1)%Z.
Proof. by vm_compute. Qed.

(** * The year grid where the clocks go forward at midnight *)

(** C8. The year grid of 2024 in Cairo, seen on 31 December 2024:
    [getFullYearDays] returns the days of the year without the last,
    365 days that end on 30 December, and the grid has no cell for 31
    December, which is a day of the year and is today. *)
Theorem year_grid_drops_december_31 :
  let now := JSDate.mk 2024 11 31 in
  let days := getFullYearDays Sample.cairo2024 isoFormat 400 now in
  let grid := YearGrid Sample.cairo2024 isoFormat isoDayOfWeek 400 now [] in
  days = Some (removelast (calendarYearDays isoFormat 2024))
  ∧ length <$> days = Some 365
  ∧ days ≫= last = Some "2024-12-30"
  ∧ (λ days, includes days "2024-12-31") <$> days = Some false
  ∧ includes (calendarYearDays isoFormat 2024) "2024-12-31" = true
  ∧ isoFormat now = "2024-12-31"
  ∧ (λ grid,
       existsb (λ cell, String.eqb (CalendarCell.date cell) "2024-12-31")
         (cellsOf grid)) <$> grid = Some false.
Proof. cbv zeta. split_and!; by vm_compute. Qed.

(** The month grid of the same zone makes a date for every day by
    itself and has all of April 2024, the 26th with it; and two hours
    ahead of UTC all year the year has its 366 days. A year from 0 to
    99 is read as the year 1900 later: in the year 50 the grids show
    the days of 1950. *)
Example grids_by_zone :
  getFullMonthDays Sample.cairo2024 isoFormat "Invalid Date" (JSDate.mk 2024 3 26)
  = calendarMonthDays isoFormat 2024 3
  ∧ getFullYearDays Sample.utcPlus2 isoFormat 400 (JSDate.mk 2024 11 31)
    = Some (calendarYearDays isoFormat 2024)
  ∧ getFullYearDays Sample.utcPlus2 isoFormat 366 (JSDate.mk 2024 11 31) = None
  ∧ getFullMonthDays Sample.utcPlus2 isoFormat "Invalid Date" (JSDate.mk 50 1 10)
    = calendarMonthDays isoFormat 1950 1
  ∧ getFullYearDays Sample.utcPlus2 isoFormat 400 (JSDate.mk 50 1 10)
    = Some (calendarYearDays isoFormat 1950).
Proof. split_and!; by vm_compute. Qed.

(** The year 2024, two hours ahead of UTC. *)
Lemma year_days_continuous_witness :
  let zone := Sample.utcPlus2 in
  let now := Sample.now in
  let y := JSDate.getFullYear now in
  (100 ≤ y < 100 * 100)
  ∧ regularYear zone y
  ∧ 366 < 367
  ∧ let days := calendarYearDays isoFormat y in
    getFullYearDays zone isoFormat 367 now = Some days
    ∧ head days = Some (isoFormat (JSDate.mk y 0 1))
    ∧ last days = Some (isoFormat (JSDate.mk y 11 31))
    ∧ length days = (if JSDate.isLeap y then 366 else 365)
    ∧ NoDup days
    ∧ (∀ i d d', days !! i = Some d → days !! S i = Some d' →
         isoDayNumber d' = (isoDayNumber d + 1)%Z
         ∧ isoDayOfWeek d' = (isoDayOfWeek d + 1) mod 7).
Proof.
  assert (100 ≤ 2024 < 100 * 100) as Hy by lia.
  assert (regularYear Sample.utcPlus2 2024) as Hreg
    by (apply utcPlus2_regularYear; lia).
  split; [exact Hy|]. split; [exact Hreg|]. split; [lia|].
  exact (year_days_continuous Sample.utcPlus2 367 Sample.now Hy Hreg
           ltac:(lia)).
Defined.

Lemma year_grid_iso_witness :
  let zone := Sample.utcPlus2 in
  let now := Sample.now in
  let visits := ["2024-02-13"; "2024-02-14"] in
  let y := JSDate.getFullYear now in
  (100 ≤ y < 100 * 100)
  ∧ regularYear zone y
  ∧ 366 < 367
  ∧ let days := calendarYearDays isoFormat y in
    ∃ grid,
      YearGrid zone isoFormat isoDayOfWeek 367 now visits = Some grid
      ∧ length grid = 7
      ∧ (∃ n, (n = 53 ∨ n = 54) ∧ Forall (λ row, length row = n) grid)
      ∧ (∀ i d, days !! i = Some d →
           (grid !! isoDayOfWeek d ≫= λ row, row !! columnOf isoDayOfWeek days i)
           = Some (Some
               (CalendarCell.mk d (hasVisit visits d)
                  (isFutureDate (isoFormat now) d)
                  (DayCell d (hasVisit visits d)
                     (isFutureDate (isoFormat now) d) sm))))
      ∧ (∀ r c cell, (grid !! r ≫= λ row, row !! c) = Some (Some cell) →
           ∃ i, days !! i = Some (CalendarCell.date cell)
                ∧ r = isoDayOfWeek (CalendarCell.date cell)
                ∧ c = columnOf isoDayOfWeek days i).
Proof.
  assert (100 ≤ 2024 < 100 * 100) as Hy by lia.
  assert (regularYear Sample.utcPlus2 2024) as Hreg
    by (apply utcPlus2_regularYear; lia).
  split; [exact Hy|]. split; [exact Hreg|]. split; [lia|].
  exact (year_grid_iso Sample.utcPlus2 367 Sample.now
           ["2024-02-13"; "2024-02-14"] Hy Hreg ltac:(lia)).
Defined.

(** April 2024 in Cairo, seen on the 26th. *)
Lemma month_grid_iso_witness :
  let zone := Sample.cairo2024 in
  let now := JSDate.mk 2024 3 26 in
  let visits := ["2024-04-25"; "2024-04-26"] in
  let y := JSDate.getFullYear now in
  let m := JSDate.getMonth now in
  (100 ≤ y < 100 * 100) ∧ m ≤ 11
  ∧ regularMonth zone y m
  ∧ let days := calendarMonthDays isoFormat y m in
    let grid := MonthGrid zone isoFormat "Invalid Date" isoDayOfWeek now visits in
    getFullMonthDays zone isoFormat "Invalid Date" now = days
    ∧ length days = JSDate.lastDayOfMonth y m
    ∧ 4 ≤ length grid ≤ 6
    ∧ Forall (λ column, length column = 7) grid
    ∧ map CalendarCell.date (cellsOf grid) = days
    ∧ (∀ i d, days !! i = Some d →
         (grid !! columnOf isoDayOfWeek days i ≫= λ column, column !! isoDayOfWeek d)
         = Some (Some
             (CalendarCell.mk d (hasVisit visits d)
                (isFutureDate (isoFormat now) d)
                (DayCell d (hasVisit visits d)
                   (isFutureDate (isoFormat now) d) md)))).
Proof.
  assert (100 ≤ 2024 < 100 * 100) as Hy by lia.
  assert (3 ≤ 11) as Hm by lia.
  split; [exact Hy|]. split; [exact Hm|]. split; [exact cairo2024_april|].
  exact (month_grid_iso Sample.cairo2024 "Invalid Date" (JSDate.mk 2024 3 26)
           ["2024-04-25"; "2024-04-26"] Hy Hm cairo2024_april).
Defined.

(** 2024 starts on a Monday and is a leap year: 53 columns; 2023
    starts on a Sunday: 53 columns with one day in the first; 2012, a
    leap year that starts on a Sunday, has 54. February 2021 starts on
    a Monday and has four columns; August 2021 starts on a Sunday and
    has six. *)
Example grid_columns :
  length (bucketWeeks isoDayOfWeek (calendarYearDays isoFormat 2024)) = 53
  ∧ length (bucketWeeks isoDayOfWeek (calendarYearDays isoFormat 2023)) = 53
  ∧ length (bucketWeeks isoDayOfWeek (calendarYearDays isoFormat 2012)) = 54
  ∧ head (bucketWeeks isoDayOfWeek (calendarYearDays isoFormat 2023))
    = Some [SNull; SNull; SNull; SNull; SNull; SNull; SDay "2023-01-01"]
  ∧ length (MonthGrid Sample.utcPlus2 isoFormat "Invalid Date" isoDayOfWeek
              (JSDate.mk 2021 1 10) []) = 4
  ∧ length (MonthGrid Sample.utcPlus2 isoFormat "Invalid Date" isoDayOfWeek
              (JSDate.mk 2021 7 10) []) = 6.
Proof. by vm_compute. Qed.

(** * Cache invalidation *)

Section CacheInvalidation.
Context `{ThemeColors} `{ThemeDefinitions} {R : Type} `{WallpaperRegistry R}.
Implicit Types w : World R.




End CacheInvalidation.

Section CacheInvalidationExamples.
Import Sample.


(** The entry of the wallpaper is in the cache before the removal and
    is deleted from that map by it. *)
Example custom_wallpaper_entry_deleted :
  let w := perform (DoGetTheme "custom-beach") (world0 [sunset] [beach]) in
  let w' := perform (DoSetCustomWallpapers [] ∅) w in
  _themeMap w = Some 0
  ∧ mapAt 0 w !! "custom-beach" = Some (buildCustomWallpaperTheme "custom-beach")
  ∧ mapAt 0 w' !! "custom-beach" = None
  ∧ (getTheme "custom-beach" w').1 = None.
Proof. by vm_compute. Qed.

End CacheInvalidationExamples.

(** * The streak cards *)

Section StreakStatsProperties.
Variable calculateCurrentStreak : list string → nat.
Variable calculateLongestStreak : list string → nat.
Variable calculateTotalVisits : list string → nat.

(** X20. When the current streak is not above the longest streak,
    [StreakStats] gives three cards, "Current Streak", "Longest Streak"
    and "Total Visits" in that order, each with its value and the unit
    "day" for the value 1 and "days" otherwise. The first card says
    "Start your streak today!" for 0 and "Keep it going!" otherwise;
    the second says "You're at your best!" exactly when the current
    streak is not zero and is the longest streak, and "Your personal
    record" in every other case; the third says "Days you've
    practiced". *)
Theorem StreakStats_at_best visits :
  let current := calculateCurrentStreak visits in
  let longest := calculateLongestStreak visits in
  let total := calculateTotalVisits visits in
  let units (n : nat) := if bool_decide (n = 1) then "day" else "days" in
  current ≤ longest →
  StreakStats calculateCurrentStreak calculateLongestStreak calculateTotalVisits
    visits
  = [ StatCardView.mk "Current Streak" current (units current)
        (if bool_decide (current = 0) then "Start your streak today!"
         else "Keep it going!");
      StatCardView.mk "Longest Streak" longest (units longest)
        (if bool_decide (current ≠ 0 ∧ current = longest)
         then "You're at your best!" else "Your personal record");
      StatCardView.mk "Total Visits" total (units total)
        "Days you've practiced" ].
Proof.
  cbv zeta. intros Hle. unfold StreakStats, StatCard. cbv zeta. simpl.
  set (c := calculateCurrentStreak visits) in *.
  set (l := calculateLongestStreak visits) in *.
  set (t := calculateTotalVisits visits).
  assert (∀ n, (if n =? 1 then "day" else "days")
               = if bool_decide (n = 1) then "day" else "days") as Hunits.
  { intros n. destruct (Nat.eqb_spec n 1); case_bool_decide; done. }
  rewrite !Hunits. repeat f_equal.
  - destruct (Nat.ltb_spec 0 c); case_bool_decide; try done; lia.
  - destruct (Nat.leb_spec l c), (Nat.ltb_spec 0 c); simpl;
      case_bool_decide; try done; lia.
Qed.
End StreakStatsProperties.

(** Three visits in a row ending today, after a longer run earlier in
    the month, with the calculators as the specification describes
    them. *)
Lemma StreakStats_at_best_witness :
  let visits :=
    ["2024-02-01"; "2024-02-02"; "2024-02-03"; "2024-02-04";
     "2024-02-12"; "2024-02-13"; "2024-02-14"] in
  let current := calculateCurrentStreak isoDayNumber "2024-02-14" in
  let longest := calculateLongestStreak isoDayNumber in
  let total := calculateTotalVisits isoDayNumber in
  current visits ≤ longest visits
  ∧ StreakStats current longest total visits
    = [ StatCardView.mk "Current Streak" 3 "days" "Keep it going!";
        StatCardView.mk "Longest Streak" 4 "days" "Your personal record";
        StatCardView.mk "Total Visits" 7 "days" "Days you've practiced" ].
Proof.
  cbv zeta. split; [vm_compute; lia|].
  rewrite (StreakStats_at_best
             (calculateCurrentStreak isoDayNumber "2024-02-14")
             (calculateLongestStreak isoDayNumber)
             (calculateTotalVisits isoDayNumber)); [by vm_compute|].
  vm_compute. lia.
Defined.

(** One visit, today: the unit is "day" and the streak is at its
    best. *)
Example StreakStats_first_visit :
  StreakStats (calculateCurrentStreak isoDayNumber "2024-02-14")
    (calculateLongestStreak isoDayNumber) (calculateTotalVisits isoDayNumber)
    ["2024-02-14"]
  = [ StatCardView.mk "Current Streak" 1 "day" "Keep it going!";
      StatCardView.mk "Longest Streak" 1 "day" "You're at your best!";
      StatCardView.mk "Total Visits" 1 "day" "Days you've practiced" ].
Proof. by vm_compute. Qed.
